(** * Email digest pipeline (nlp_utils.py): model and properties

    The text passes of [nlp_utils.py] are embedded as Rocq functions:
    [clean_email_text], [get_summary], [extract_deadlines],
    [extract_key_points_and_actions] and [detect_attachments_with_context],
    and the sequence of calls of [app.py] as [compute_digest].

    Conventions of the model.
    - A Python [str] is a [list ascii]; a character is the code point
      below 256 with that number (ASCII and Latin-1).  Texts with other code
      points are outside the model; a pattern character above 255 matches
      nothing.
    - The library calls the source makes ([re.sub], [re.finditer],
      [str.strip], [str.lower], [str.replace], [in], datetime arithmetic
      and [strftime]) are given executable definitions following the
      documented behaviour of CPython.  Datetimes are naive; the results
      of the date parser that carry a time zone, on which the subtraction
      of line 115 raises, are the subject of module [Zoned].
    - [list(set(l))] is [elements (list_to_set l)]: the same elements,
      each once, in an order that is not Python's.
    - The pretrained models, the date parser and the wall clock are
      parameters of a section.  The clock is the sequence of the values
      that successive calls of [datetime.now()] return.

    Further parts embed [fetch_email_content] and [fetch_recent_emails]
    of [email_utils.py] and Step 2 of the page script of [app.py]; their
    conventions are stated where they begin. *)

From Stdlib Require Import ZArith Ascii String List Bool Lia.
From stdpp Require Import gmap strings list.

Set Default Goal Selector "!".

Abbreviation str := (list ascii).
Coercion list_ascii_of_string : string >-> list.

Open Scope bool_scope.

(** ** Characters *)

Module Char.

Definition ord (c : ascii) : nat := nat_of_ascii c.

Definition between (lo hi : nat) (c : ascii) : bool :=
  (lo <=? ord c)%nat && (ord c <=? hi)%nat.

Definition nl : ascii := "010"%char.
Definition tab : ascii := "009"%char.
Definition dquote : ascii := "034"%char.
Definition space : ascii := " "%char.
Definition star_c : ascii := "*"%char.

(** [str.isspace] / [\s]: Py_UNICODE_ISSPACE on code points below 256. *)
Definition isspace (c : ascii) : bool :=
  between 9 13 c || between 28 32 c || (ord c =? 133)%nat || (ord c =? 160)%nat.

(** [\d] on a str pattern: Py_UNICODE_ISDECIMAL. *)
Definition isdecimal (c : ascii) : bool := between 48 57 c.

(** Py_UNICODE_ISALNUM (alpha, decimal, digit or numeric) below 256. *)
Definition isalnum (c : ascii) : bool :=
  between 48 57 c || between 65 90 c || between 97 122 c
  || (ord c =? 170)%nat || (ord c =? 178)%nat || (ord c =? 179)%nat
  || (ord c =? 181)%nat || (ord c =? 185)%nat || (ord c =? 186)%nat
  || between 188 190 c || between 192 214 c || between 216 246 c
  || between 248 255 c.

(** [\w] on a str pattern: alphanumeric or underscore. *)
Definition isword (c : ascii) : bool := isalnum c || Ascii.eqb c "_".

(** [str.lower] on one code point below 256. *)
Definition lower (c : ascii) : ascii :=
  if between 65 90 c || (between 192 222 c && negb (ord c =? 215)%nat)
  then ascii_of_nat (ord c + 32) else c.

End Char.

(** ** str methods *)

Definition lower (s : str) : str := map Char.lower s.

Fixpoint lstrip (s : str) : str :=
  match s with
  | a :: t => if Char.isspace a then lstrip t else s
  | [] => []
  end.

Definition rstrip (s : str) : str := rev (lstrip (rev s)).

Definition strip (s : str) : str := rstrip (lstrip s).

Fixpoint startswith (s p : str) : bool :=
  match p, s with
  | [], _ => true
  | b :: p', a :: s' => Ascii.eqb a b && startswith s' p'
  | _ :: _, [] => false
  end.

Definition endswith (s p : str) : bool := startswith (rev s) (rev p).

(** [sub in s] *)
Fixpoint contains (s sub : str) : bool :=
  startswith s sub ||
  match s with
  | _ :: t => contains t sub
  | [] => false
  end.

(** [s.replace(old, new)]: left to right, occurrences do not overlap;
    an empty [old] matches before every character and at the end. *)
Fixpoint replace_go (old new : str) (skip : nat) (s : str) : str :=
  match s with
  | [] => []
  | a :: t =>
      match skip with
      | S n => replace_go old new n t
      | O => if startswith s old
             then new ++ replace_go old new (length old - 1) t
             else a :: replace_go old new 0 t
      end
  end.

Definition replace (s old new : str) : str :=
  match old with
  | [] => new ++ flat_map (fun a => a :: new) s
  | _ :: _ => replace_go old new 0 s
  end.

(** [s[lo:hi]] for indices that are not negative. *)
Definition slice (s : str) (lo hi : Z) : str :=
  take (Z.to_nat (hi - lo)) (drop (Z.to_nat lo) s).

Definition len (s : str) : Z := Z.of_nat (length s).

(** ** Regular expressions: a backtracking matcher

    The constructs are those the patterns of the source use.  The matcher
    explores alternatives in the order of Python's [re]: left alternative
    first, greedy repetition longest first, lazy repetition shortest first. *)

Module Re.

Inductive regex : Type :=
| Eps
| Chr (p : ascii -> bool)
| Seq (r1 r2 : regex)
| Alt (r1 r2 : regex)
| Rep (lo : nat) (hi : option nat) (greedy : bool) (r : regex)
| Grp (n : nat) (r : regex)
| Bol          (* ^ under re.MULTILINE *)
| Eol          (* $ under re.MULTILINE *)
| WordB.       (* \b *)

(** A position in the subject: the text before it (nearest character
    first) and the text after it. *)
Record cursor : Type := Cursor { before : str; after : str }.

Definition caps : Type := list (nat * str).
Definition mres : Type := option (cursor * caps).
Definition kont : Type := cursor -> caps -> mres.

Definition consumed (c c' : cursor) : str :=
  take (length (after c) - length (after c')) (after c).

Definition at_bol (c : cursor) : bool :=
  match before c with
  | [] => true
  | a :: _ => Ascii.eqb a Char.nl
  end.

Definition at_eol (c : cursor) : bool :=
  match after c with
  | [] => true
  | a :: _ => Ascii.eqb a Char.nl
  end.

Definition word_at (s : str) : bool :=
  match s with
  | a :: _ => Char.isword a
  | [] => false
  end.

Definition at_wordb (c : cursor) : bool :=
  xorb (word_at (before c)) (word_at (after c)).

Definition orelse (a : mres) (b : mres) : mres :=
  match a with
  | Some x => Some x
  | None => b
  end.

Definition dec_hi (hi : option nat) : option nat := option_map pred hi.

(** Repetition of [body] between [lo] and [hi] times.  An optional
    iteration has to consume a character; [fuel] bounds the number of
    iterations and is at least [lo] plus the length of the text left. *)
Fixpoint rep_loop (body : cursor -> caps -> kont -> mres) (greedy : bool)
    (k : kont) (fuel lo : nat) (hi : option nat) (c : cursor) (g : caps)
    : mres :=
  match fuel with
  | O => k c g
  | S f =>
      match lo with
      | S lo' =>
          body c g (fun c1 g1 => rep_loop body greedy k f lo' (dec_hi hi) c1 g1)
      | O =>
          match hi with
          | Some O => k c g
          | _ =>
              let more :=
                body c g (fun c1 g1 =>
                  if (length (after c1) <? length (after c))%nat
                  then rep_loop body greedy k f 0 (dec_hi hi) c1 g1
                  else None) in
              if greedy then orelse more (k c g) else orelse (k c g) more
          end
      end
  end.

Fixpoint m (r : regex) (c : cursor) (g : caps) (k : kont) : mres :=
  match r with
  | Eps => k c g
  | Chr p =>
      match after c with
      | a :: t => if p a then k (Cursor (a :: before c) t) g else None
      | [] => None
      end
  | Seq r1 r2 => m r1 c g (fun c1 g1 => m r2 c1 g1 k)
  | Alt r1 r2 => orelse (m r1 c g k) (m r2 c g k)
  | Rep lo hi greedy r1 =>
      rep_loop (m r1) greedy k (lo + length (after c)) lo hi c g
  | Grp n r1 => m r1 c g (fun c1 g1 => k c1 ((n, consumed c c1) :: g1))
  | Bol => if at_bol c then k c g else None
  | Eol => if at_eol c then k c g else None
  | WordB => if at_wordb c then k c g else None
  end.

(** One attempt at position [c].  With [must_advance] an empty match is
    refused and the matcher backtracks for another one. *)
Definition match_at (r : regex) (c : cursor) (must_advance : bool) : mres :=
  m r c [] (fun c' g =>
    if must_advance && (length (after c') =? length (after c))%nat
    then None else Some (c', g)).

(** A match object: the text of group 0 and the numbered groups. *)
Record rmatch : Type := Match { group0 : str; groups : caps }.

Fixpoint assoc (n : nat) (g : caps) : option str :=
  match g with
  | [] => None
  | (i, s) :: g' => if (i =? n)%nat then Some s else assoc n g'
  end.

(** [match.group(n)]; [None] when the group took no part. *)
Definition group (mt : rmatch) (n : nat) : option str :=
  match n with
  | O => Some (group0 mt)
  | _ => assoc n (groups mt)
  end.

Definition mk_match (c : cursor) (res : cursor * caps) : rmatch :=
  Match (consumed c (fst res)) (snd res).

(** The matches that start at [c] when the scan arrives there: none, one
    match, or an empty match followed by the match found when the empty
    one is refused. *)
Definition attempt (r : regex) (c : cursor) : list rmatch :=
  match match_at r c false with
  | None => []
  | Some res =>
      match consumed c (fst res) with
      | _ :: _ => [mk_match c res]
      | [] =>
          match match_at r c true with
          | Some res' => [mk_match c res; mk_match c res']
          | None => [mk_match c res]
          end
      end
  end.

Inductive token : Type :=
| TChar (a : ascii)
| TMatch (mt : rmatch).

Definition last_len (ms : list rmatch) : nat :=
  match last ms with
  | Some mt => length (group0 mt)
  | None => 0
  end.

(** Left-to-right scan for non-overlapping matches.  [skip] counts the
    characters still covered by the last match. *)
Fixpoint scan (r : regex) (bef aft : str) (skip : nat) : list token :=
  match skip with
  | S n =>
      match aft with
      | a :: t => scan r (a :: bef) t n
      | [] => []
      end
  | O =>
      let ms := attempt r (Cursor bef aft) in
      map TMatch ms ++
      match aft with
      | a :: t =>
          match last_len ms with
          | O => TChar a :: scan r (a :: bef) t 0
          | S d => scan r (a :: bef) t d
          end
      | [] => []
      end
  end.

Definition emit (repl : str) (tk : token) : str :=
  match tk with
  | TChar a => [a]
  | TMatch _ => repl
  end.

Definition is_match (tk : token) : option rmatch :=
  match tk with
  | TChar _ => None
  | TMatch mt => Some mt
  end.

(** [re.sub(pattern, repl, text)] for a replacement without escapes. *)
Definition sub (r : regex) (repl text : str) : str :=
  flat_map (emit repl) (scan r [] text 0).

(** [re.finditer(pattern, text)] *)
Definition finditer (r : regex) (text : str) : list rmatch :=
  omap is_match (scan r [] text 0).

(** [re.search(pattern, text)] *)
Definition search (r : regex) (text : str) : option rmatch :=
  head (finditer r text).

(** *** Pattern syntax *)

Definition ch (a : ascii) : regex := Chr (Ascii.eqb a).
Definition chi (a : ascii) : regex :=
  Chr (fun c => Ascii.eqb (Char.lower c) (Char.lower a)).
Definition any : regex := Chr (fun _ => true).            (* . with DOTALL *)
Definition dot : regex := Chr (fun c => negb (Ascii.eqb c Char.nl)).
Definition ws : regex := Chr Char.isspace.                 (* \s *)
Definition notws : regex := Chr (fun c => negb (Char.isspace c)).
Definition digit : regex := Chr Char.isdecimal.            (* \d *)
Definition word : regex := Chr Char.isword.                (* \w *)
Definition oneof (s : str) : regex := Chr (fun c => existsb (Ascii.eqb c) s).
Definition noneof (s : str) : regex :=
  Chr (fun c => negb (existsb (Ascii.eqb c) s)).
(** A pattern character that is no code point below 256. *)
Definition beyond : regex := Chr (fun _ => false).

Definition star (r : regex) : regex := Rep 0 None true r.
Definition plus (r : regex) : regex := Rep 1 None true r.
Definition opt (r : regex) : regex := Rep 0 (Some 1) true r.
Definition lazy_star (r : regex) : regex := Rep 0 None false r.
Definition times (n : nat) (r : regex) : regex := Rep n (Some n) true r.

Fixpoint seqs (rs : list regex) : regex :=
  match rs with
  | [] => Eps
  | [r] => r
  | r :: rs' => Seq r (seqs rs')
  end.

Fixpoint alts (rs : list regex) : regex :=
  match rs with
  | [] => beyond
  | [r] => r
  | r :: rs' => Alt r (alts rs')
  end.

Definition lit (s : str) : regex := seqs (map ch s).
Definition lit_i (s : str) : regex := seqs (map chi s).

(** *** The match relation *)

(** A relation that holds of every run of the matcher: [sem r c g c' g']
    reads the text between [c] and [c'] as an instance of [r] and extends
    the groups [g] to [g'].  The upper bound of a repetition is not
    enforced here. *)
Inductive sem : regex -> cursor -> caps -> cursor -> caps -> Prop :=
| sem_eps c g : sem Eps c g c g
| sem_chr p a bef t g :
    p a = true -> sem (Chr p) (Cursor bef (a :: t)) g (Cursor (a :: bef) t) g
| sem_seq r1 r2 c g c1 g1 c2 g2 :
    sem r1 c g c1 g1 -> sem r2 c1 g1 c2 g2 -> sem (Seq r1 r2) c g c2 g2
| sem_alt_l r1 r2 c g c' g' : sem r1 c g c' g' -> sem (Alt r1 r2) c g c' g'
| sem_alt_r r1 r2 c g c' g' : sem r2 c g c' g' -> sem (Alt r1 r2) c g c' g'
| sem_rep_stop hi gr r c g : sem (Rep 0 hi gr r) c g c g
| sem_rep_step lo hi gr r c g c1 g1 c2 g2 :
    sem r c g c1 g1 -> sem (Rep (pred lo) (dec_hi hi) gr r) c1 g1 c2 g2 ->
    sem (Rep lo hi gr r) c g c2 g2
| sem_grp n r c g c1 g1 :
    sem r c g c1 g1 -> sem (Grp n r) c g c1 ((n, consumed c c1) :: g1)
| sem_bol c g : at_bol c = true -> sem Bol c g c g
| sem_eol c g : at_eol c = true -> sem Eol c g c g
| sem_wordb c g : at_wordb c = true -> sem WordB c g c g.

Fixpoint nogroups (r : regex) : bool :=
  match r with
  | Seq r1 r2 | Alt r1 r2 => nogroups r1 && nogroups r2
  | Rep _ _ _ r1 => nogroups r1
  | Grp _ _ => false
  | _ => true
  end.

(** Every result of the matcher is one of the relation. *)
Definition sound_at (r : regex) : Prop :=
  ∀ c g k res, m r c g k = Some res →
    ∃ c1 g1, sem r c g c1 g1 ∧ k c1 g1 = Some res.

(** The matcher consults its continuation only at positions that are
    not behind the current one. *)
Definition local_at (r : regex) : Prop :=
  ∀ c g k k',
    (∀ c1 g1, length (after c1) ≤ length (after c) → k c1 g1 = k' c1 g1) →
    m r c g k = m r c g k'.

End Re.

(** ** Text Cleaner *)

Import Re.

Module Pat.

Definition q (s : str) : str := Char.dquote :: s ++ [Char.dquote].

(** r'<[^>]+>' *)
Definition tag : regex := seqs [ch "<"; plus (noneof ">"); ch ">"].

(** r'To unsubscribe from this group.*|You received this message because.*'
    DOTALL | IGNORECASE *)
Definition unsubscribe : regex :=
  Alt (Seq (lit_i "To unsubscribe from this group") (star any))
      (Seq (lit_i "You received this message because") (star any)).

(** r'^\s*[\-_=]{3,}.*?Original Message.*$'
    MULTILINE | DOTALL | IGNORECASE *)
Definition original_message : regex :=
  seqs [Bol; star ws; Rep 3 None true (oneof "-_="); lazy_star any;
        lit_i "Original Message"; star any; Eol].

(** r'On\s+.*?wrote:.*?\n>.*'  DOTALL | IGNORECASE *)
Definition reply_header : regex :=
  seqs [lit_i "On"; plus ws; lazy_star any; lit_i "wrote:"; lazy_star any;
        ch Char.nl; ch ">"; star any].

(** r'Start your own s k o o l.*'  DOTALL | IGNORECASE *)
Definition skool : regex :=
  Seq (lit_i "Start your own s k o o l") (star any).

(** r'Change notification settings.*'  DOTALL | IGNORECASE *)
Definition notification_settings : regex :=
  Seq (lit_i "Change notification settings") (star any).

(** r'AI Automation Agency Hub.*?\d+\s*new notification'
    DOTALL | IGNORECASE *)
Definition agency_hub : regex :=
  seqs [lit_i "AI Automation Agency Hub"; lazy_star any; plus digit;
        star ws; lit_i "new notification"].

(** r'Since \d{1,2}:\d{2} (am|pm) \(Jul \d{1,2}, \d{4}\)'  IGNORECASE *)
Definition since_header : regex :=
  seqs [lit_i "Since "; Rep 1 (Some 2) true digit; ch ":"; times 2 digit;
        ch " "; Grp 1 (Alt (lit_i "am") (lit_i "pm")); lit_i " (Jul ";
        Rep 1 (Some 2) true digit; lit ", "; times 4 digit; ch ")"].

(** r'Here’s what you missed:'  IGNORECASE; the apostrophe is U+2019 *)
Definition what_you_missed : regex :=
  seqs [lit_i "Here"; beyond; lit_i "s what you missed:"].

(** r'View Group'  IGNORECASE *)
Definition view_group : regex := lit_i "View Group".

(** r'Are we sending you too many emails\?'  IGNORECASE *)
Definition too_many_emails : regex :=
  lit_i "Are we sending you too many emails?".

(** r'We’re bundling up all your email notifications: Hourly'
    IGNORECASE; the apostrophe is U+2019 *)
Definition bundling : regex :=
  seqs [lit_i "We"; beyond;
        lit_i "re bundling up all your email notifications: Hourly"].

(** r'Change to:.*?(\d+\s*mins|\d+\s*hours|Daily|Weekly)'
    IGNORECASE | DOTALL *)
Definition change_to : regex :=
  seqs [lit_i "Change to:"; lazy_star any;
        Grp 1 (alts [seqs [plus digit; star ws; lit_i "mins"];
                     seqs [plus digit; star ws; lit_i "hours"];
                     lit_i "Daily"; lit_i "Weekly"])].

(** line 63, IGNORECASE: whitespace, an optional opening parenthesis,
    whitespace, one of  https?://[^\s]+  |  www\.[^\s]+  |
    \b\w+\.(com|org|net|io|co|ai)\/\S*\b , whitespace, an optional
    closing parenthesis, whitespace *)
Definition url : regex :=
  seqs [star ws; opt (ch "("); star ws;
        Grp 1 (alts
          [seqs [lit_i "http"; opt (chi "s"); lit "://"; plus notws];
           seqs [lit_i "www"; ch "."; plus notws];
           seqs [WordB; plus word; ch ".";
                 Grp 2 (alts [lit_i "com"; lit_i "org"; lit_i "net";
                              lit_i "io"; lit_i "co"; lit_i "ai"]);
                 ch "/"; star notws; WordB]]);
        star ws; opt (ch ")"); star ws].

(** r'\[LINK\]'  IGNORECASE *)
Definition link_placeholder : regex := lit_i "[LINK]".

(** line 67, IGNORECASE: the literal alt=QQ width=Q1Q height=Q1Q
    border=Q0Q style=Q (Q the double quote), then [^!]+!important;[^!]+! *)
Definition tracking_pixel : regex :=
  seqs [lit_i ("alt=" ++ q "" ++ " width=" ++ q "1" ++ " height=" ++ q "1"
               ++ " border=" ++ q "0" ++ " style=" ++ [Char.dquote]);
        plus (noneof "!"); lit_i "!important;"; plus (noneof "!"); ch "!"].

(** r'\b(?:CA|AA)\b\s*' *)
Definition ca_aa : regex :=
  seqs [WordB; Alt (lit "CA") (lit "AA"); WordB; star ws].

(** r'\*+' *)
Definition asterisks : regex := plus (ch Char.star_c).

(** line 70: optional whitespace, an opening parenthesis, an optional
    space, a closing parenthesis, optional whitespace; then any number of
    further such groups *)
Definition empty_parens : regex :=
  seqs [star ws; ch "("; opt (ch " "); ch ")"; star ws;
        star (Grp 1 (seqs [star ws; ch "("; opt (ch " "); ch ")"; star ws]))].

(** r'\s+' *)
Definition spaces : regex := plus ws.

(** r'\n\s*\n' *)
Definition blank_lines : regex := seqs [ch Char.nl; star ws; ch Char.nl].

End Pat.

Definition clean_email_text (text : str) : str :=
  (* 1. HTML tags *)
  let text := sub Pat.tag " " text in
  (* 2. boilerplate, headers and footers *)
  let text := sub Pat.unsubscribe "" text in
  let text := sub Pat.original_message "" text in
  let text := sub Pat.reply_header "" text in
  let text := sub Pat.skool "" text in
  let text := sub Pat.notification_settings "" text in
  let text := sub Pat.agency_hub "" text in
  let text := sub Pat.since_header "" text in
  let text := sub Pat.what_you_missed "" text in
  let text := sub Pat.view_group "" text in
  let text := sub Pat.too_many_emails "" text in
  let text := sub Pat.bundling "" text in
  let text := sub Pat.change_to "" text in
  (* 3. URLs *)
  let text := sub Pat.url " " text in
  let text := sub Pat.link_placeholder " " text in
  (* 4. leftovers of the markup *)
  let text := sub Pat.tracking_pixel "" text in
  let text := sub Pat.ca_aa "" text in
  let text := sub Pat.asterisks "" text in
  let text := sub Pat.empty_parens " " text in
  (* 5. whitespace *)
  let text := strip (sub Pat.spaces " " text) in
  let text := sub Pat.blank_lines [Char.nl; Char.nl] text in
  text.

(** ** datetime *)

Module Datetime.

Local Open Scope Z_scope.

Record datetime : Type := DT {
  year : Z; month : Z; day : Z;
  hour : Z; minute : Z; second : Z; microsecond : Z }.

Record timedelta : Type := TD { days : Z; seconds : Z; microseconds : Z }.

Definition is_leap (y : Z) : bool :=
  (y mod 4 =? 0) && (negb (y mod 100 =? 0) || (y mod 400 =? 0)).

Definition days_before_year (year : Z) : Z :=
  let y := year - 1 in y * 365 + y / 4 - y / 100 + y / 400.

Definition DAYS_BEFORE_MONTH : list Z :=
  [-1; 0; 31; 59; 90; 120; 151; 181; 212; 243; 273; 304; 334].

Definition days_before_month (year month : Z) : Z :=
  nth (Z.to_nat month) DAYS_BEFORE_MONTH 0
  + (if (2 <? month) && is_leap year then 1 else 0).

Definition ymd2ord (year month day : Z) : Z :=
  days_before_year year + days_before_month year month + day.

Definition toordinal (d : datetime) : Z := ymd2ord (year d) (month d) (day d).

(** [timedelta(days, seconds, microseconds)] normalises its fields. *)
Definition mk_timedelta (d s us : Z) : timedelta :=
  let s := s + us / 1000000 in
  let us := us mod 1000000 in
  let d := d + s / 86400 in
  let s := s mod 86400 in
  TD d s us.

(** [a - b] on naive datetimes *)
Definition minus (a b : datetime) : timedelta :=
  let secs1 := second a + minute a * 60 + hour a * 3600 in
  let secs2 := second b + minute b * 60 + hour b * 3600 in
  mk_timedelta (toordinal a - toordinal b) (secs1 - secs2)
               (microsecond a - microsecond b).

Definition digit (n : Z) : ascii := ascii_of_nat (48 + Z.to_nat (n mod 10)).
Definition pad2 (n : Z) : str := [digit (n / 10); digit n].
Definition pad4 (n : Z) : str :=
  [digit (n / 1000); digit (n / 100); digit (n / 10); digit n].

(** [%Y] for a year from 1 to 9999: the C library of Linux writes the
    year without padding. *)
Definition year_digits (y : Z) : str :=
  if y <? 10 then [digit y]
  else if y <? 100 then pad2 y
  else if y <? 1000 then [digit (y / 100); digit (y / 10); digit y]
  else pad4 y.

(** [d.strftime('%Y-%m-%d %H:%M')] *)
Definition strftime (d : datetime) : str :=
  year_digits (year d) ++ "-" ++ pad2 (month d) ++ "-" ++ pad2 (day d) ++ " "
  ++ pad2 (hour d) ++ ":" ++ pad2 (minute d).

(** Microseconds since the start of day 0 of the proleptic calendar. *)
Definition instant (d : datetime) : Z :=
  ((toordinal d * 86400 + (second d + minute d * 60 + hour d * 3600))
   * 1000000) + microsecond d.

Definition strictly_before (a b : datetime) : Prop := instant a < instant b.

End Datetime.

Import Datetime.

(** ** What the language models return *)

(** A span of [doc.ents]. *)
Record Ent : Type := {
  ent_text : str; label_ : str; start_char : Z; end_char : Z }.

(** A span of [doc.sents]. *)
Record Sent : Type := { sent_text : str; sent_ents : list Ent }.

Record Doc : Type := { ents : list Ent; sents : list Sent }.

Inductive exn : Type := Exception (name : string).

Inductive outcome (A : Type) : Type :=
| Returns (a : A)
| Raises (e : exn).
Arguments Returns {A} a.
Arguments Raises {A} e.

Definition bind {A B : Type} (x : outcome A) (f : A -> outcome B) : outcome B :=
  match x with
  | Returns a => f a
  | Raises e => Raises e
  end.

(** [try: body  except Exception: handler] *)
Definition try_except {A : Type} (body : outcome A) (handler : exn -> outcome A)
    : outcome A :=
  match body with
  | Returns a => Returns a
  | Raises e => handler e
  end.

(** [l[i]] and [d[key]] *)
Definition index {A : Type} (l : list A) (i : nat) : outcome A :=
  match l !! i with
  | Some a => Returns a
  | None => Raises (Exception "IndexError")
  end.

Definition getitem (d : gmap str str) (key : str) : outcome str :=
  match d !! key with
  | Some v => Returns v
  | None => Raises (Exception "KeyError")
  end.

(** [any(kw in s for kw in kws)] *)
Definition any_in (kws : list str) (s : str) : bool :=
  existsb (fun kw => contains s kw) kws.

(** [label in labels] *)
Definition label_in (l : str) (labels : list str) : bool :=
  bool_decide (l ∈ labels).

(** The process state the passes touch: how often the clock has been
    read, and the texts handed to the summarization model. *)
Record World : Type := { tick : nat; calls : list str }.

Definition ticked (w : World) : World :=
  {| tick := S (tick w); calls := calls w |}.

Definition called (text : str) (w : World) : World :=
  {| tick := tick w; calls := calls w ++ [text] |}.

Record Digest : Type := {
  summary : str;
  key_points : list str;
  deadlines : list str;
  attachments : list (str * str) }.

Section Pipeline.

(** The summarization pipeline, as called at line 85 with sampling off. *)
Variable summarizer : str -> outcome (list (gmap str str)).
(** The spaCy pipeline. *)
Variable nlp_spacy : str -> Doc.
(** [dateparser.parse(s, settings=...)] with RELATIVE_BASE as second
    argument and PREFER_DATES_FROM set to future.  Its results are naive
    datetimes in this section; those with a time zone come with module
    [Zoned]. *)
Variable dateparser_parse : str -> datetime -> option datetime.
(** The n-th reading of [datetime.now()]. *)
Variable clock : nat -> datetime.

Definition datetime_now (w : World) : datetime * World :=
  (clock (tick w), ticked w).

(** *** Summarizer *)

Definition get_summary (text : str) (w : World) : outcome str * World :=
  match strip text with
  | [] => (Returns ("No content to summarize." : str), w)
  | _ :: _ =>
      let w := called text w in
      (try_except
         (bind (summarizer text) (fun summary_output =>
          bind (index summary_output 0) (fun first =>
          getitem first "summary_text")))
         (fun _ => Returns ("Could not generate summary." : str)), w)
  end.

(** *** Deadline Extractor *)

Definition deadline_keywords : list str :=
  ["deadline" : str; "due" : str; "by" : str; "before" : str;
   "expires" : str; "register" : str; "submit" : str; "apply" : str;
   "on or before" : str; "last date" : str].

(** The body of the loop for one entity: the string appended, if any. *)
Definition deadline_of (text : str) (ent : Ent) (w : World)
    : option str * World :=
  if label_in (label_ ent) ["DATE" : str; "TIME" : str; "EVENT" : str] then
    let '(base, w) := datetime_now w in
    match dateparser_parse (ent_text ent) base with
    | Some parsed_date =>
        let context :=
          lower (slice text (Z.max 0 (start_char ent - 50))
                            (Z.min (len text) (end_char ent + 50))) in
        let '(current_time, w) := datetime_now w in
        let is_future_date := (0 <=? days (minus parsed_date current_time))%Z in
        let is_within_30_days :=
          (days (minus parsed_date current_time) <=? 30)%Z in
        if any_in deadline_keywords context && is_future_date then
          (Some (strftime parsed_date), w)
        else if bool_decide (label_ ent = ("DATE" : str)) && is_future_date
                && is_within_30_days then
          (Some (strftime parsed_date), w)
        else (None, w)
    | None => (None, w)
    end
  else (None, w).

Fixpoint deadline_loop (text : str) (es : list Ent) (deadlines : list str)
    (w : World) : list str * World :=
  match es with
  | [] => (deadlines, w)
  | ent :: es' =>
      let '(o, w) := deadline_of text ent w in
      deadline_loop text es' (deadlines ++ option_list o) w
  end.

Definition extract_deadlines (text : str) (w : World) : list str * World :=
  let doc := nlp_spacy text in
  let '(deadlines, w) := deadline_loop text (ents doc) [] w in
  (elements (list_to_set deadlines : gset str), w).

(** The world in which the entity after the prefix [pre] is examined. *)
Definition world_after (text : str) (pre : list Ent) (w : World) : World :=
  snd (deadline_loop text pre [] w).

(** *** Key-Point Extractor *)

Definition action_indicators : list str :=
  ["please" : str; "kindly" : str; "ensure" : str; "confirm" : str;
   "submit" : str; "reply by" : str; "action required" : str; "must" : str;
   "should" : str; "need to" : str; "important:" : str; "note:" : str;
   "deadline" : str; "review" : str; "attend" : str; "find attached" : str;
   "see attached" : str].

Definition significant_labels : list str :=
  ["PERSON" : str; "ORG" : str; "GPE" : str; "PRODUCT" : str; "EVENT" : str;
   "MONEY" : str].

(** The value of [is_key] after the three heuristics. *)
Definition is_key (sent_text : str) (sent : Sent) : bool :=
  let is_key := false in
  let is_key :=
    if any_in action_indicators (lower sent_text) then true else is_key in
  let is_key :=
    if negb is_key
    then existsb (fun ent => label_in (label_ ent) significant_labels)
                 (sent_ents sent)
    else is_key in
  let is_key :=
    if negb is_key && endswith sent_text "?" then true else is_key in
  is_key.

Fixpoint key_point_loop (ss : list Sent) (key_points : list str)
    (processed_sentences : gset str) : list str :=
  match ss with
  | [] => key_points
  | sent :: ss' =>
      let sent_text := strip (sent_text sent) in
      if bool_decide (sent_text = []) || bool_decide (sent_text ∈ processed_sentences)
      then key_point_loop ss' key_points processed_sentences
      else if is_key sent_text sent
      then key_point_loop ss' (key_points ++ [sent_text])
                          ({[ sent_text ]} ∪ processed_sentences)
      else key_point_loop ss' key_points processed_sentences
  end.

Definition extract_key_points_and_actions (text : str) : list str :=
  let doc := nlp_spacy text in
  key_point_loop (sents doc) [] ∅.

(** *** Attachment Mention Detector *)

Definition extensions : list str :=
  ["pdf" : str; "docx" : str; "xlsx" : str; "pptx" : str; "jpg" : str;
   "png" : str; "zip" : str; "rar" : str; "txt" : str; "csv" : str;
   "mp4" : str; "mov" : str; "mp3" : str].

(** The pattern of line 184, IGNORECASE, in its three parts.  Group 1 is
    a word boundary and at most 80 characters, lazily. *)
Definition pre_group : regex := Grp 1 (Seq WordB (Rep 0 (Some 80) false dot)).

(** Group 2 is group 3 and a word boundary; group 3 is word characters, a
    dot and an extension. *)
Definition name_group : regex :=
  Grp 2 (Seq (Grp 3 (seqs [plus word; ch "."; alts (map lit_i extensions)]))
             WordB).

(** Group 4 is at most 80 characters, lazily, and a word boundary. *)
Definition post_group : regex := Grp 4 (Seq (Rep 0 (Some 80) false dot) WordB).

Definition file_pattern : regex := seqs [pre_group; name_group; post_group].

(** A method call on the result of [match.group(n)]. *)
Definition attr (o : option str) : outcome str :=
  match o with
  | Some s => Returns s
  | None => Raises (Exception "AttributeError")
  end.

(** The first use of [filename]: its [lower()] in the inner loop, or the
    concatenation when there is no sentence. *)
Definition used (doc : Doc) (filename : option str) : outcome str :=
  match filename, sents doc with
  | Some s, _ => Returns s
  | None, _ :: _ => Raises (Exception "AttributeError")
  | None, [] => Raises (Exception "TypeError")
  end.

(** The inner loop over [doc.sents], up to its [break]. *)
Fixpoint full_sentence_of (filename : str) (ss : list Sent) : str :=
  match ss with
  | [] => []
  | sent :: ss' =>
      if contains (lower (sent_text sent)) (lower filename)
      then strip (sent_text sent)
      else full_sentence_of filename ss'
  end.

Definition bold (filename : str) : str := "**" ++ filename ++ "**".

(** The body of the loop for one match: the pair appended. *)
Definition attachment_of (doc : Doc) (mt : rmatch) : outcome (str * str) :=
  bind (attr (group mt 1)) (fun g1 =>
  let pre_context := strip g1 in
  let filename := group mt 2 in
  bind (attr (group mt 3)) (fun g3 =>
  let post_context := strip g3 in
  bind (used doc filename) (fun filename =>
  let full_sentence := full_sentence_of filename (sents doc) in
  let context_snippet :=
    match full_sentence with
    | _ :: _ => full_sentence
    | [] => strip (replace (pre_context ++ filename ++ post_context)
                           filename (bold filename))
    end in
  let context_snippet := strip (sub Pat.spaces " " context_snippet) in
  let context_snippet :=
    if (len context_snippet <? 10)%Z && bool_decide (full_sentence = [])
    then [] else context_snippet in
  Returns (filename, context_snippet)))).

Fixpoint attachment_loop (doc : Doc) (ms : list rmatch)
    (mentioned_files : list (str * str)) : outcome (list (str * str)) :=
  match ms with
  | [] => Returns mentioned_files
  | mt :: ms' =>
      bind (attachment_of doc mt) (fun p =>
      attachment_loop doc ms' (mentioned_files ++ [p]))
  end.

Definition detect_attachments_with_context (text : str)
    : outcome (list (str * str)) :=
  let doc := nlp_spacy text in
  bind (attachment_loop doc (finditer file_pattern text) []) (fun l =>
  Returns (elements (list_to_set l : gset (str * str)))).

End Pipeline.

(** ** The Deadline Extractor on dates with a time zone *)

(** What [dateparser.parse] returns for a text it understands: a naive
    datetime or, for a text that names a time zone, a datetime with
    [tzinfo] set ([utcoffset] in minutes). *)
Inductive parsed : Type :=
| Naive (d : datetime)
| Aware (d : datetime) (utcoffset : Z).

(** A parser that gives naive datetimes only, and the naive results of
    a parser. *)
Definition all_naive (p : str -> datetime -> option datetime)
    : str -> datetime -> option parsed :=
  fun s base => option_map Naive (p s base).

Definition naive_part (p : str -> datetime -> option parsed)
    : str -> datetime -> option datetime :=
  fun s base =>
    match p s base with
    | Some (Naive d) => Some d
    | Some (Aware _ _) | None => None
    end.

(** Lines 91 to 123 with such results.  [datetime.now()] is naive, and
    Python refuses to subtract a naive datetime from one with [tzinfo]:
    line 115 raises, and the call with it. *)
Module Zoned.

Section Deadlines.

Variable nlp_spacy : str -> Doc.
Variable dateparser_parse : str -> datetime -> option parsed.
Variable clock : nat -> datetime.

(** [parsed_date - current_time] for a naive [current_time] *)
Definition minus_naive (parsed_date : parsed) (current_time : datetime)
    : outcome timedelta :=
  match parsed_date with
  | Naive d => Returns (minus d current_time)
  | Aware _ _ => Raises (Exception "TypeError")
  end.

(** [parsed_date.strftime('%Y-%m-%d %H:%M')]: the fields as they stand. *)
Definition format (parsed_date : parsed) : str :=
  match parsed_date with
  | Naive d | Aware d _ => strftime d
  end.

(** The body of the loop for one entity: the string appended, if any. *)
Definition deadline_of (text : str) (ent : Ent) (w : World)
    : outcome (option str) * World :=
  if label_in (label_ ent) ["DATE" : str; "TIME" : str; "EVENT" : str] then
    let '(base, w) := datetime_now clock w in
    match dateparser_parse (ent_text ent) base with
    | Some parsed_date =>
        let context :=
          lower (slice text (Z.max 0 (start_char ent - 50))
                            (Z.min (len text) (end_char ent + 50))) in
        let '(current_time, w) := datetime_now clock w in
        (bind (minus_naive parsed_date current_time) (fun delta =>
         let is_future_date := (0 <=? days delta)%Z in
         bind (minus_naive parsed_date current_time) (fun delta =>
         let is_within_30_days := (days delta <=? 30)%Z in
         if any_in deadline_keywords context && is_future_date then
           Returns (Some (format parsed_date))
         else if bool_decide (label_ ent = ("DATE" : str)) && is_future_date
                 && is_within_30_days then
           Returns (Some (format parsed_date))
         else Returns None)), w)
    | None => (Returns None, w)
    end
  else (Returns None, w).

Fixpoint deadline_loop (text : str) (es : list Ent) (deadlines : list str)
    (w : World) : outcome (list str) * World :=
  match es with
  | [] => (Returns deadlines, w)
  | ent :: es' =>
      match deadline_of text ent w with
      | (Returns o, w) => deadline_loop text es' (deadlines ++ option_list o) w
      | (Raises e, w) => (Raises e, w)
      end
  end.

Definition extract_deadlines (text : str) (w : World)
    : outcome (list str) * World :=
  let doc := nlp_spacy text in
  match deadline_loop text (ents doc) [] w with
  | (Returns deadlines, w) =>
      (Returns (elements (list_to_set deadlines : gset str)), w)
  | (Raises e, w) => (Raises e, w)
  end.

End Deadlines.

End Zoned.

(** ** The digest (app.py, lines 158 to 161) *)

Section Digest.

Variable summarizer : str -> outcome (list (gmap str str)).
Variable nlp_spacy : str -> Doc.
Variable dateparser_parse : str -> datetime -> option parsed.
Variable clock : nat -> datetime.

Definition compute_digest (cleaned_content : str) (w : World)
    : outcome Digest * World :=
  match get_summary summarizer cleaned_content w with
  | (Returns s, w) =>
      let kp := extract_key_points_and_actions nlp_spacy cleaned_content in
      match Zoned.extract_deadlines nlp_spacy dateparser_parse clock
              cleaned_content w with
      | (Returns dl, w) =>
          (bind (detect_attachments_with_context nlp_spacy cleaned_content)
             (fun att =>
              Returns {| summary := s; key_points := kp; deadlines := dl;
                         attachments := att |}), w)
      | (Raises e, w) => (Raises e, w)
      end
  | (Raises e, w) => (Raises e, w)
  end.

End Digest.

(** * Vocabulary of the properties *)

(** Whitespace-normalised text: a whitespace character is a space and
    stands after a character that is none. *)
Fixpoint tidy (prev_ws : bool) (s : str) : Prop :=
  match s with
  | [] => True
  | a :: t =>
      (Char.isspace a = true → a = Char.space ∧ prev_ws = false)
      ∧ tidy (Char.isspace a) t
  end.

(** The longest prefix of class characters, and what follows it. *)
Fixpoint run (p : ascii -> bool) (s : str) : str :=
  match s with
  | a :: t => if p a then a :: run p t else []
  | [] => []
  end.

Fixpoint rest (p : ascii -> bool) (s : str) : str :=
  match s with
  | a :: t => if p a then rest p t else s
  | [] => []
  end.

(** What [re.sub] does with such a pattern: each maximal run of class
    characters is replaced once. *)
Fixpoint squeeze (p : ascii -> bool) (repl : str) (in_run : bool) (s : str)
    : str :=
  match s with
  | [] => []
  | a :: t =>
      if p a then (if in_run then [] else repl) ++ squeeze p repl true t
      else a :: squeeze p repl false t
  end.

(** The patterns of steps 1 to 4, in the order of the source. *)
Definition removal_patterns : list regex :=
  [Pat.tag; Pat.unsubscribe; Pat.original_message; Pat.reply_header;
   Pat.skool; Pat.notification_settings; Pat.agency_hub; Pat.since_header;
   Pat.what_you_missed; Pat.view_group; Pat.too_many_emails; Pat.bundling;
   Pat.change_to; Pat.url; Pat.link_placeholder; Pat.tracking_pixel;
   Pat.ca_aa; Pat.asterisks; Pat.empty_parens].

(** No pattern of steps 1 to 4 is found in [y]. *)
Definition settled (y : str) : bool :=
  forallb (fun r => bool_decide (search r y = None)) removal_patterns.

(** Text made of letters, digits and spaces only. *)
Definition plain_words (x : str) : Prop :=
  ∀ a, a ∈ x → Char.isalnum a = true ∨ a = Char.space.

(** The trimmed text of a sentence that the heuristics select. *)
Definition selected (sent : Sent) : option str :=
  let t := strip (sent_text sent) in
  if bool_decide (t = []) then None
  else if is_key t sent then Some t else None.

(** Keep the first occurrence of every element. *)
Fixpoint first_occurrences (l : list str) : list str :=
  match l with
  | [] => []
  | x :: l' => x :: filter (λ y, y ≠ x) (first_occurrences l')
  end.

(** The lower-cased window of 50 characters around the span of [ent]. *)
Definition window (text : str) (ent : Ent) : str :=
  lower (slice text (Z.max 0 (start_char ent - 50))
                    (Z.min (len text) (end_char ent + 50))).

Definition date_labels : list str := ["DATE" : str; "TIME" : str; "EVENT" : str].

(** The rule of the specification for one entity resolved to [d], read at
    time [now]: a keyword in the window and [d] not in the past, or a DATE
    not in the past and at most 30 whole days ahead. *)
Definition deadline_rule (text : str) (ent : Ent) (d now : datetime) : Prop :=
  (any_in deadline_keywords (window text ent) = true ∧ ¬ strictly_before d now)
  ∨ (label_ ent = ("DATE" : str) ∧ ¬ strictly_before d now
     ∧ (days (minus d now) ≤ 30)%Z).

(** [sent] mentions [filename]: the test of the inner loop. *)
Definition mentions (filename : str) (sent : Sent) : bool :=
  contains (lower (sent_text sent)) (lower filename).

(** [sent] is the first sentence of [ss] that mentions [filename]. *)
Definition first_mentioning (filename : str) (ss : list Sent) (sent : Sent)
    : Prop :=
  ∃ pre post, ss = pre ++ sent :: post
              ∧ mentions filename sent = true
              ∧ ∀ s', s' ∈ pre → mentions filename s' = false.

(** The context the loop body computes from the texts of groups 1 and 3
    and the filename. *)
Definition context_of (doc : Doc) (g1 g3 filename : str) : str :=
  let full_sentence := full_sentence_of filename (sents doc) in
  let context_snippet :=
    match full_sentence with
    | _ :: _ => full_sentence
    | [] => strip (replace (strip g1 ++ filename ++ strip g3)
                           filename (bold filename))
    end in
  let context_snippet := strip (sub Pat.spaces " " context_snippet) in
  if (len context_snippet <? 10)%Z && bool_decide (full_sentence = [])
  then [] else context_snippet.

(** C1, as stated: the digest of a text does not depend on when the run
    is made. *)
Definition digest_regardless_of_time
    (summarizer : str -> outcome (list (gmap str str))) (nlp_spacy : str -> Doc)
    (dateparser_parse : str -> datetime -> option parsed)
    (clock : nat -> datetime) : Prop :=
  ∀ text w1 w2,
    fst (compute_digest summarizer nlp_spacy dateparser_parse clock text w1)
    = fst (compute_digest summarizer nlp_spacy dateparser_parse clock text w2).

(** Two runs of the deadline pass on [text], one from [w1] and one from
    [w2], see the dates alike: each entity labelled DATE, TIME or EVENT
    resolves in both runs to the same timestamp, or in neither, and the
    rule decides on it alike at the time the one run and the other read
    for it. *)
Definition same_verdicts (nlp_spacy : str -> Doc)
    (dateparser_parse : str -> datetime -> option datetime)
    (clock : nat -> datetime) (text : str) (w1 w2 : World) : Prop :=
  ∀ pre ent post,
    ents (nlp_spacy text) = pre ++ ent :: post →
    label_in (label_ ent) date_labels = true →
    let now1 := world_after dateparser_parse clock text pre w1 in
    let now2 := world_after dateparser_parse clock text pre w2 in
    dateparser_parse (ent_text ent) (clock (tick now1))
    = dateparser_parse (ent_text ent) (clock (tick now2))
    ∧ ∀ d, dateparser_parse (ent_text ent) (clock (tick now1)) = Some d →
           (deadline_rule text ent d (clock (S (tick now1)))
            ↔ deadline_rule text ent d (clock (S (tick now2)))).

(** The number that a string of decimal digits writes. *)
Definition number (s : str) : Z :=
  fold_left (fun n a => (10 * n + (Z.of_nat (nat_of_ascii a) - 48))%Z) s 0%Z.

(** The timestamp that a string of the result shows: the year, month,
    day, hour and minute it writes, and no seconds. *)
Definition timestamp_of (s : str) : option datetime :=
  match rest Char.isdecimal s with
  | "-"%char :: m1 :: m2 :: "-"%char :: d1 :: d2 :: " "%char
    :: h1 :: h2 :: ":"%char :: n1 :: n2 :: [] =>
      Some (DT (number (run Char.isdecimal s)) (number [m1; m2])
               (number [d1; d2]) (number [h1; h2]) (number [n1; n2]) 0 0)
  | _ => None
  end.

(** A datetime as Python builds them, from year 1 to year 9999. *)
Definition in_range (d : datetime) : Prop :=
  (1 ≤ year d ≤ 9999 ∧ 1 ≤ month d ≤ 12 ∧ 1 ≤ day d ≤ 31
   ∧ 0 ≤ hour d ≤ 23 ∧ 0 ≤ minute d ≤ 59 ∧ 0 ≤ second d ≤ 59
   ∧ 0 ≤ microsecond d ≤ 999999)%Z.

(** [d] with its seconds dropped. *)
Definition to_the_minute (d : datetime) : datetime :=
  DT (year d) (month d) (day d) (hour d) (minute d) 0 0.

(** C2, as stated: no timestamp of the result is strictly before the
    time read at the start of the call. *)
Definition result_not_before_call (nlp_spacy : str -> Doc)
    (dateparser_parse : str -> datetime -> option datetime)
    (clock : nat -> datetime) : Prop :=
  ∀ text w s d,
    s ∈ fst (extract_deadlines nlp_spacy dateparser_parse clock text w) →
    timestamp_of s = Some d →
    ¬ strictly_before d (clock (tick w)).

(** A parser that gives no datetime with a time zone. *)
Definition no_zone (p : str -> datetime -> option parsed) : Prop :=
  ∀ s base d z, p s base ≠ Some (Aware d z).

(** C3, as stated: for every entity that resolves to a timestamp, the
    result holds that timestamp exactly when this entity satisfies the
    rule. *)
Definition deadline_iff_entity_rule (nlp_spacy : str -> Doc)
    (dateparser_parse : str -> datetime -> option datetime)
    (clock : nat -> datetime) : Prop :=
  ∀ text w pre ent post d,
    ents (nlp_spacy text) = pre ++ ent :: post →
    label_in (label_ ent) date_labels = true →
    let now := world_after dateparser_parse clock text pre w in
    dateparser_parse (ent_text ent) (clock (tick now)) = Some d →
    (strftime d ∈ fst (extract_deadlines nlp_spacy dateparser_parse clock text w)
     ↔ deadline_rule text ent d (clock (S (tick now)))).

(** ** Concrete runs *)

Module Scenario.

Definition ex_html : str :=
  "<p>Hello</p> <a href=" ++ Pat.q "http://x.com" ++ ">link</a>".

Definition mk_sent (s : str) : Sent := {| sent_text := s; sent_ents := [] |}.

(** A recogniser that returns the given sentences and no entity. *)
Definition segmenter (ss : list string) : str -> Doc :=
  fun _ => {| ents := []; sents := map (fun s => mk_sent (list_ascii_of_string s)) ss |}.

End Scenario.

(** Two short emails, with what the recogniser and the date parser
    return on them. *)
Module Runs.

Definition dec5 : datetime := DT 2025 12 5 0 0 0 0.
Definition dec1 : datetime := DT 2025 12 1 9 0 0 0.
Definition dec10 : datetime := DT 2025 12 10 9 0 0 0.
Definition jan1 : datetime := DT 2025 1 1 9 0 0 0.

Definition report_text : str :=
  "Please submit the report by December 5, 2025.".

Definition party_text : str :=
  "The office party is on December 5, 2025. It will be a lot of fun for all of us who come along. Please submit the forms by December 5, 2025.".

Definition date_ent (start : Z) : Ent :=
  {| ent_text := "December 5, 2025"; label_ := "DATE";
     start_char := start; end_char := start + 16 |}.

Definition report_doc : Doc :=
  {| ents := [date_ent 28];
     sents := [ {| sent_text := report_text; sent_ents := [date_ent 28] |} ] |}.

Definition party_doc : Doc :=
  {| ents := [date_ent 23; date_ent 122];
     sents :=
       [ {| sent_text := "The office party is on December 5, 2025.";
            sent_ents := [date_ent 23] |};
         {| sent_text := "It will be a lot of fun for all of us who come along.";
            sent_ents := [] |};
         {| sent_text := "Please submit the forms by December 5, 2025.";
            sent_ents := [date_ent 122] |} ] |}.

(** The recogniser on the two texts: the date mentions as DATE entities. *)
Definition nlp (text : str) : Doc :=
  if decide (text = report_text) then report_doc
  else if decide (text = party_text) then party_doc
  else {| ents := []; sents := [] |}.

(** The date parser on the one date the texts mention. *)
Definition parse (s : str) (base : datetime) : option datetime :=
  if decide (s = ("December 5, 2025" : str)) then Some dec5 else None.

Definition summarize (text : str) : outcome (list (gmap str str)) :=
  Returns [ {[ ("summary_text" : str) := text ]} ].

(** None of the dates of the two texts names a time zone. *)
Definition parse_naive : str -> datetime -> option parsed := all_naive parse.

(** A first run on the first of December and a second run on the tenth. *)
Definition moving_clock (n : nat) : datetime :=
  if (n <? 2)%nat then dec1 else dec10.

(** A clock that advances by a minute from reading to reading, from nine
    in the morning of the first of December. *)
Definition minute_clock (n : nat) : datetime :=
  DT 2025 12 1 9 (Z.of_nat n) 0 0.

Definition w0 : World := {| tick := 0; calls := [] |}.

(** The process ten readings of the clock later. *)
Definition w10 : World := {| tick := 10; calls := [] |}.

Definition digest_at (clock : nat -> datetime) (text : str) (w : World) :=
  compute_digest summarize nlp parse_naive clock text w.

(** A time of day that is 15 seconds ahead of the clock, which stands at
    30 seconds past noon. *)
Definition noon_text : str := "Please reply by 12:00:45.".

Definition time_ent : Ent :=
  {| ent_text := "12:00:45"; label_ := "TIME";
     start_char := 16; end_char := 24 |}.

Definition noon_nlp (text : str) : Doc :=
  if decide (text = noon_text)
  then {| ents := [time_ent];
          sents := [ {| sent_text := noon_text; sent_ents := [time_ent] |} ] |}
  else {| ents := []; sents := [] |}.

Definition noon_parse (s : str) (base : datetime) : option datetime :=
  if decide (s = ("12:00:45" : str)) then Some (DT 2025 12 1 12 0 45 0)
  else None.

Definition past_noon : datetime := DT 2025 12 1 12 0 30 0.

(** A time of day with a time zone. *)
Definition call_text : str := "Please join the call by 5pm EST.".

Definition zone_ent : Ent :=
  {| ent_text := "5pm EST"; label_ := "TIME";
     start_char := 24; end_char := 31 |}.

Definition call_nlp (text : str) : Doc :=
  if decide (text = call_text)
  then {| ents := [zone_ent];
          sents := [ {| sent_text := call_text; sent_ents := [zone_ent] |} ] |}
  else {| ents := []; sents := [] |}.

Definition call_parse (s : str) (base : datetime) : option parsed :=
  if decide (s = ("5pm EST" : str))
  then Some (Aware (DT 2025 12 1 17 0 0 0) (-300))
  else None.

End Runs.

(** ** Vocabulary of the further properties *)

(** The 256 characters. *)
Definition all_ascii : list ascii := map ascii_of_nat (seq 0 256).

(** Whether the pattern may match inside a text all of whose characters
    satisfy [Q]: false only when some character the pattern needs is
    excluded by [Q]. *)
Fixpoint eats (Q : ascii -> bool) (r : regex) : bool :=
  match r with
  | Chr p => existsb (fun a => p a && Q a) all_ascii
  | Seq r1 r2 => if eats Q r1 then eats Q r2 else false
  | Alt r1 r2 => if eats Q r1 then true else eats Q r2
  | Rep lo _ _ r1 => (lo =? 0)%nat || eats Q r1
  | Grp _ r1 => eats Q r1
  | Eps | Bol | Eol | WordB => true
  end.

(** A lower bound of the length of a match. *)
Fixpoint minlen (r : regex) : nat :=
  match r with
  | Chr _ => 1
  | Seq r1 r2 => minlen r1 + minlen r2
  | Alt r1 r2 => Nat.min (minlen r1) (minlen r2)
  | Rep lo _ _ r1 => lo * minlen r1
  | Grp _ r1 => minlen r1
  | Eps | Bol | Eol | WordB => 0
  end.

Definition not_dot (a : ascii) : bool := negb (Ascii.eqb a ".").

(** What step 5 does to a text: runs of whitespace become one space and
    the ends are trimmed. *)
Definition normalize_space (x : str) : str :=
  strip (squeeze Char.isspace [Char.space] false x).

(** The three heuristics of the key-point extractor for a sentence with
    trimmed text [t]: an action indicator in the lower-cased text, an
    entity with a significant label, or a question mark at the end. *)
Definition heuristics (t : str) (sent : Sent) : Prop :=
  (∃ ind, ind ∈ action_indicators ∧ contains (lower t) ind = true)
  ∨ (∃ ent, ent ∈ sent_ents sent ∧ label_ ent ∈ significant_labels)
  ∨ endswith t "?" = true.

(** An entity the deadline extractor looks at. *)
Definition date_like (ent : Ent) : Prop := label_ ent ∈ date_labels.

(** The world [w] with the log of model calls replaced. *)
Definition with_calls (c : list str) (w : World) : World :=
  {| tick := tick w; calls := c |}.

(** * Mailbox access (email_utils.py) *)

(** Conventions of this part.
    - The connection object of [imaplib] is a handle; what the server
      answers to the n-th command sent over it is a parameter, as are the
      parser of the [email] package and [bytes.decode].
    - A parsed message is a tree: a part with a payload, or a multipart
      container with its parts; the accessors the source calls
      ([get_content_type], [get], [get_content_charset], [get_payload],
      [is_multipart], [walk]) are read off the tree as the package
      documents them. *)

Definition bytes : Type := list Byte.byte.

(** An [imaplib.IMAP4_SSL] object. *)
Definition IMAP4 : Type := nat.

(** An element of the data of a response: a pair of a header line and a
    literal, a bare line, or [None]. *)
Inductive item : Type :=
| ITuple (envelope literal : bytes)
| ILine (line : bytes)
| INone.

(** The message set of a FETCH command, given as a string or as bytes. *)
Inductive message_set : Type :=
| AsStr (uid : str)
| AsBytes (uid : bytes).

Record Headers : Type := {
  content_type : str;                  (* get_content_type() *)
  content_disposition : option str;    (* get('Content-Disposition') *)
  content_charset : option str;        (* get_content_charset() *)
  header_from : option str;            (* msg['From'] *)
  header_subject : option str }.       (* msg['Subject'] *)

Local Unset Elimination Schemes.
Inductive Message : Type :=
| Part (headers : Headers) (payload : bytes)
| Multipart (headers : Headers) (parts : list Message).
Local Set Elimination Schemes.

Definition headers_of (msg : Message) : Headers :=
  match msg with
  | Part h _ | Multipart h _ => h
  end.

Definition is_multipart (msg : Message) : bool :=
  match msg with
  | Part _ _ => false
  | Multipart _ _ => true
  end.

(** [msg.walk()]: the message itself, then its parts, depth first. *)
Fixpoint walk (msg : Message) : list Message :=
  msg :: match msg with
         | Part _ _ => []
         | Multipart _ parts => flat_map walk parts
         end.

(** [part.get_payload(decode=True)]: [None] for a container. *)
Definition get_payload_decoded (msg : Message) : option bytes :=
  match msg with
  | Part _ payload => Some payload
  | Multipart _ _ => None
  end.

(** [str(x)] for a header value that may be [None]. *)
Definition py_str (o : option str) : str :=
  match o with
  | Some s => s
  | None => "None"
  end.

(** [charset or 'utf-8'] *)
Definition charset_or_utf8 (charset : option str) : str :=
  match charset with
  | Some ((_ :: _) as s) => s
  | _ => "utf-8"
  end.

(** [msg_data[0][1]] handed to [email.message_from_bytes]: the literal
    of a pair.  A bare line gives an integer, on which the parser raises,
    or is too short; [None] cannot be indexed. *)
Definition literal_of (it : item) : outcome bytes :=
  match it with
  | ITuple _ raw => Returns raw
  | ILine (_ :: _ :: _) => Raises (Exception "AttributeError")
  | ILine _ => Raises (Exception "IndexError")
  | INone => Raises (Exception "TypeError")
  end.

Section Mailbox.

(** [mail.fetch(message_set, message_parts)] as the n-th command. *)
Variable imap_fetch :
  IMAP4 -> message_set -> string -> nat -> outcome (str * list item).
(** [email.message_from_bytes] *)
Variable message_from_bytes : bytes -> Message.
(** [b.decode(encoding, errors='ignore')] *)
Variable decode : bytes -> str -> outcome str.

(** Lines 111 and 112, and 119 and 120: the payload decoded with the
    charset of the part. *)
Definition decoded_text (part : Message) : outcome str :=
  let charset := content_charset (headers_of part) in
  match get_payload_decoded part with
  | Some payload => decode payload (charset_or_utf8 charset)
  | None => Raises (Exception "AttributeError")
  end.

(** The loop of lines 104 to 115, up to its [break]. *)
Fixpoint plain_text_loop (parts : list Message) (text_content : str) : str :=
  match parts with
  | [] => text_content
  | part :: rest =>
      let ctype := content_type (headers_of part) in
      let cdispo := py_str (content_disposition (headers_of part)) in
      if bool_decide (ctype = ("text/plain" : str))
         && negb (contains cdispo "attachment")
      then match decoded_text part with
           | Returns s => s
           | Raises _ => plain_text_loop rest text_content
           end
      else plain_text_loop rest text_content
  end.

Definition fetch_email_content (mail : IMAP4) (uid : str) (n : nat)
    : option str :=
  match
    bind (imap_fetch mail (AsStr uid) "(RFC822)" n) (fun '(status, msg_data) =>
    if bool_decide (status ≠ ("OK" : str)) then Returns None
    else
      bind (index msg_data 0) (fun first =>
      bind (literal_of first) (fun raw_email =>
      let msg := message_from_bytes raw_email in
      let text_content : str := [] in
      let text_content :=
        if is_multipart msg then plain_text_loop (walk msg) text_content
        else match decoded_text msg with
             | Returns s => s
             | Raises _ => text_content
             end in
      Returns (Some text_content))))
  with
  | Returns r => r
  | Raises _ => None
  end.

End Mailbox.

(** * The page script (app.py, Step 2) *)

(** Conventions of this part.
    - [st.session_state] after its initialisation (lines 35 to 44) is a
      record: the five keys set there are always present; for the five
      keys set later, [None] says that the key is not in the session
      state.  [current_email_content] holds a string or Python's [None],
      [selected_email_uid] a string or [None].
    - One run of lines 106 to 199 is a function of the session state, of
      the state of the models and the mailbox, and of the value the radio
      widget returns in this run.  It gives the widgets written to the
      page in order; spinners, columns and the expander are not
      recorded, and labels are given without their pictographs. *)

Module App.

(** An element of [recent_emails] (email_utils.py, lines 76 to 80). *)
Record EmailInfo : Type := { uid : str; from : str; subject : str }.

Record Session : Type := {
  imap_connection : option IMAP4;
  recent_emails : list EmailInfo;
  selected_email_uid : option str;
  current_email_content : option str;
  summary : option str;
  key_points : option (list str);
  deadlines : option (list str);
  attachments : option (list (str * str));
  last_analyzed_content : option str }.

(** The session state after lines 35 to 44 of the first run. *)
Definition fresh : Session :=
  {| imap_connection := None; recent_emails := [];
     selected_email_uid := None; current_email_content := Some [];
     summary := None; key_points := None; deadlines := None;
     attachments := None; last_analyzed_content := None |}.

Definition set_selected_email_uid (v : option str) (ss : Session) : Session :=
  {| imap_connection := imap_connection ss;
     recent_emails := recent_emails ss;
     selected_email_uid := v;
     current_email_content := current_email_content ss;
     summary := summary ss; key_points := key_points ss;
     deadlines := deadlines ss; attachments := attachments ss;
     last_analyzed_content := last_analyzed_content ss |}.

Definition set_current_email_content (v : option str) (ss : Session)
    : Session :=
  {| imap_connection := imap_connection ss;
     recent_emails := recent_emails ss;
     selected_email_uid := selected_email_uid ss;
     current_email_content := v;
     summary := summary ss; key_points := key_points ss;
     deadlines := deadlines ss; attachments := attachments ss;
     last_analyzed_content := last_analyzed_content ss |}.

Definition set_summary (v : str) (ss : Session) : Session :=
  {| imap_connection := imap_connection ss;
     recent_emails := recent_emails ss;
     selected_email_uid := selected_email_uid ss;
     current_email_content := current_email_content ss;
     summary := Some v; key_points := key_points ss;
     deadlines := deadlines ss; attachments := attachments ss;
     last_analyzed_content := last_analyzed_content ss |}.

Definition set_key_points (v : list str) (ss : Session) : Session :=
  {| imap_connection := imap_connection ss;
     recent_emails := recent_emails ss;
     selected_email_uid := selected_email_uid ss;
     current_email_content := current_email_content ss;
     summary := summary ss; key_points := Some v;
     deadlines := deadlines ss; attachments := attachments ss;
     last_analyzed_content := last_analyzed_content ss |}.

Definition set_deadlines (v : list str) (ss : Session) : Session :=
  {| imap_connection := imap_connection ss;
     recent_emails := recent_emails ss;
     selected_email_uid := selected_email_uid ss;
     current_email_content := current_email_content ss;
     summary := summary ss; key_points := key_points ss;
     deadlines := Some v; attachments := attachments ss;
     last_analyzed_content := last_analyzed_content ss |}.

Definition set_attachments (v : list (str * str)) (ss : Session) : Session :=
  {| imap_connection := imap_connection ss;
     recent_emails := recent_emails ss;
     selected_email_uid := selected_email_uid ss;
     current_email_content := current_email_content ss;
     summary := summary ss; key_points := key_points ss;
     deadlines := deadlines ss; attachments := Some v;
     last_analyzed_content := last_analyzed_content ss |}.

Definition set_last_analyzed_content (v : str) (ss : Session) : Session :=
  {| imap_connection := imap_connection ss;
     recent_emails := recent_emails ss;
     selected_email_uid := selected_email_uid ss;
     current_email_content := current_email_content ss;
     summary := summary ss; key_points := key_points ss;
     deadlines := deadlines ss; attachments := attachments ss;
     last_analyzed_content := Some v |}.

(** What a run writes to the page. *)
Inductive Widget : Type :=
| Header (label : string)
| Subheader (label : string)
| Radio (label : string) (options : list str)
| TextArea (label : string) (value : str)
| Write (body : str)
| Markdown (body : str)
| Info (body : string)
| Warning (body : str).

(** What a run reads and changes: the session state, the state of the
    models, the message sets fetched over the connection so far, and the
    page so far. *)
Record State : Type := {
  session : Session;
  world : World;
  imap_log : list str;
  page : list Widget }.

(** A piece of the script: it returns or raises, and leaves a state. *)
Definition Script (A : Type) : Type := State -> outcome A * State.

Definition ret {A : Type} (a : A) : Script A := fun st => (Returns a, st).

Definition seq {A B : Type} (x : Script A) (f : A -> Script B) : Script B :=
  fun st =>
    match x st with
    | (Returns a, st') => f a st'
    | (Raises e, st') => (Raises e, st')
    end.

Notation "'let*' x ':=' e 'in' k" := (seq e (fun x => k))
  (at level 10, x name, e at level 100, k at level 200).

Definition lift {A : Type} (o : outcome A) : Script A := fun st => (o, st).

(** [st.session_state] read as a whole. *)
Definition get : Script Session := fun st => (Returns (session st), st).

(** [st.session_state[key] = v] *)
Definition assign (set : Session -> Session) : Script unit :=
  fun st =>
    (Returns tt,
     {| session := set (session st); world := world st;
        imap_log := imap_log st; page := page st |}).

(** [st.session_state[key]] for a key that may be missing. *)
Definition key {A : Type} (field : Session -> option A) : Script A :=
  fun st =>
    match field (session st) with
    | Some v => (Returns v, st)
    | None => (Raises (Exception "KeyError"), st)
    end.

Definition emit (wg : Widget) : Script unit :=
  fun st =>
    (Returns tt,
     {| session := session st; world := world st;
        imap_log := imap_log st; page := page st ++ [wg] |}).

Fixpoint emit_all (wgs : list Widget) : Script unit :=
  match wgs with
  | [] => ret tt
  | wg :: wgs' => let* _ := emit wg in emit_all wgs'
  end.

(** A dict with string keys, in insertion order. *)
Fixpoint dict_set {V : Type} (k : str) (v : V) (d : list (str * V))
    : list (str * V) :=
  match d with
  | [] => [(k, v)]
  | (k', v') :: d' =>
      if decide (k' = k) then (k', v) :: d' else (k', v') :: dict_set k v d'
  end.

Fixpoint dict_get {V : Type} (k : str) (d : list (str * V)) : outcome V :=
  match d with
  | [] => Raises (Exception "KeyError")
  | (k', v') :: d' => if decide (k' = k) then Returns v' else dict_get k d'
  end.

(** The text of the radio option of an email (line 115). *)
Definition display_text (email_info : EmailInfo) : str :=
  "From: " ++ from email_info ++ " | Subject: " ++ subject email_info.

(** The dict comprehension of lines 114 to 117. *)
Definition email_options (emails : list EmailInfo) : list (str * str) :=
  fold_left (fun d email_info =>
               dict_set (display_text email_info) (uid email_info) d)
            emails [].

(** Line 123: the uid of the selected option, if one is selected. *)
Definition selected_uid (email_options : list (str * str))
    (selected_display_text : option str) : outcome (option str) :=
  match selected_display_text with
  | Some ((_ :: _) as t) =>
      bind (dict_get t email_options) (fun u => Returns (Some u))
  | _ => Returns None
  end.

Section Script.

Variable summarizer : str -> outcome (list (gmap str str)).
Variable nlp_spacy : str -> Doc.
Variable dateparser_parse : str -> datetime -> option parsed.
Variable clock : nat -> datetime.
Variable imap_fetch :
  IMAP4 -> message_set -> string -> nat -> outcome (str * list item).
Variable message_from_bytes : bytes -> Message.
Variable decode : bytes -> str -> outcome str.

(** Calls of the functions of nlp_utils.py and email_utils.py. *)
Definition call_get_summary (text : str) : Script str :=
  fun st =>
    let '(o, w) := get_summary summarizer text (world st) in
    (o, {| session := session st; world := w;
           imap_log := imap_log st; page := page st |}).

Definition call_extract_deadlines (text : str) : Script (list str) :=
  fun st =>
    let '(o, w) :=
      Zoned.extract_deadlines nlp_spacy dateparser_parse clock text
                              (world st) in
    (o, {| session := session st; world := w;
           imap_log := imap_log st; page := page st |}).

(** With no connection object the call of [mail.fetch] raises inside
    [fetch_email_content], which returns [None]. *)
Definition call_fetch_email_content (mail : option IMAP4) (uid : str)
    : Script (option str) :=
  fun st =>
    match mail with
    | Some mail =>
        (Returns (fetch_email_content imap_fetch message_from_bytes decode
                    mail uid (length (imap_log st))),
         {| session := session st; world := world st;
            imap_log := imap_log st ++ [uid]; page := page st |})
    | None => (Returns None, st)
    end.

(** Lines 123 to 138: the selection. *)
Definition select_email (email_options : list (str * str))
    (selected_display_text : option str) : Script unit :=
  let* selected_uid_from_radio :=
    lift (selected_uid email_options selected_display_text) in
  let* ss := get in
  match selected_uid_from_radio with
  | Some ((_ :: _) as selected_uid_from_radio) =>
      if bool_decide (selected_email_uid ss ≠ Some selected_uid_from_radio)
      then
        let* _ := assign (set_selected_email_uid (Some selected_uid_from_radio)) in
        let* content :=
          call_fetch_email_content (imap_connection ss)
                                   selected_uid_from_radio in
        let* _ := assign (set_current_email_content content) in
        let* _ :=
          match content with
          | None =>
              emit (Warning ("Could not fetch content for UID: "
                             ++ selected_uid_from_radio
                             ++ ". It might be malformed or an issue with decoding."))
          | Some _ => ret tt
          end in
        let* _ := assign (set_summary []) in
        let* _ := assign (set_key_points []) in
        let* _ := assign (set_deadlines []) in
        assign (set_attachments [])
      else ret tt
  | _ => ret tt
  end.

(** Lines 111 to 141: the left column. *)
Definition email_column (choice : option str) : Script unit :=
  let* _ := emit (Subheader "Recent Emails") in
  let* ss := get in
  match recent_emails ss with
  | _ :: _ =>
      let email_options := email_options (recent_emails ss) in
      let* _ := emit (Radio "Select an email to view its digest:"
                            (map fst email_options)) in
      select_email email_options choice
  | [] => emit (Info "No emails loaded. Connect your email or refresh the list.")
  end.

(** Lines 158 to 162: the four passes and the note of what was
    analysed. *)
Definition analyse (cleaned_content : str) : Script unit :=
  let* s := call_get_summary cleaned_content in
  let* _ := assign (set_summary s) in
  let* _ := assign (set_key_points
                      (extract_key_points_and_actions nlp_spacy cleaned_content)) in
  let* dl := call_extract_deadlines cleaned_content in
  let* _ := assign (set_deadlines dl) in
  let* att := lift (detect_attachments_with_context nlp_spacy cleaned_content) in
  let* _ := assign (set_attachments att) in
  assign (set_last_analyzed_content cleaned_content).

(** Lines 165 to 190: the digest on the page. *)
Definition attachment_line (p : str * str) : Widget :=
  let '(filename, context) := p in
  match context with
  | _ :: _ => Markdown ("- **" ++ filename ++ "**: " ++ context)
  | [] => Write ("- " ++ filename)
  end.

Definition show_digest : Script unit :=
  let* _ := emit (Subheader "Summary") in
  let* s := key summary in
  let* _ := emit (Write s) in
  let* kp := key key_points in
  let* _ :=
    match kp with
    | _ :: _ =>
        let* _ := emit (Subheader "Crucial Points / Action Items") in
        emit_all (map (fun point => Markdown ("- " ++ point)) kp)
    | [] => emit (Info "No distinct crucial points or action items identified.")
    end in
  let* dl := key deadlines in
  let* _ :=
    match dl with
    | _ :: _ =>
        let* _ := emit (Subheader "Deadlines Detected") in
        emit_all (map (fun deadline => Write ("- " ++ deadline)) dl)
    | [] => emit (Info "No specific deadlines found.")
    end in
  let* att := key attachments in
  match att with
  | _ :: _ =>
      let* _ := emit (Subheader "Mentioned Attachments") in
      emit_all (map attachment_line att)
  | [] => emit (Info "No file attachments mentioned in the text.")
  end.

(** Lines 143 to 197: the right column. *)
Definition digest_column : Script unit :=
  let* _ := emit (Subheader "Email Digest") in
  let* ss := get in
  match current_email_content ss with
  | Some ((_ :: _) as content) =>
      let cleaned_content := clean_email_text content in
      let* _ := emit (TextArea "DEBUG: Cleaned Email Content:" cleaned_content) in
      let* _ :=
        match last_analyzed_content ss with
        | None => analyse cleaned_content
        | Some last =>
            if bool_decide (last ≠ cleaned_content)
            then analyse cleaned_content
            else ret tt
        end in
      let* _ := show_digest in
      emit (TextArea "Raw Content:" content)
  | _ => emit (Info "Select an email from the left to generate its digest.")
  end.

(** Lines 106 to 199. *)
Definition step2 (choice : option str) : Script unit :=
  let* _ := emit (Header "Step 2: Browse & Get Digest") in
  let* ss := get in
  match imap_connection ss, recent_emails ss with
  | Some _, _ :: _ =>
      let* _ := email_column choice in
      digest_column
  | _, _ =>
      emit (Info "Please connect your email account in Step 1 to browse emails.")
  end.

(** One run of Step 2 on an empty page. *)
Definition run (choice : option str) (ss : Session) (w : World)
    (log : list str) : outcome unit * State :=
  step2 choice {| session := ss; world := w; imap_log := log; page := [] |}.

(** Successive runs in which the user touches the radio widget only,
    each on the state the run before has left. *)
Fixpoint runs (choices : list (option str)) (ss : Session) (w : World)
    (log : list str) : outcome unit * State :=
  match choices with
  | [] => (Returns tt, {| session := ss; world := w; imap_log := log;
                          page := [] |})
  | choice :: choices' =>
      match run choice ss w log with
      | (Returns _, st) =>
          match choices' with
          | [] => (Returns tt, st)
          | _ :: _ => runs choices' (session st) (world st) (imap_log st)
          end
      | (Raises e, st) => (Raises e, st)
      end
  end.

End Script.

End App.

(** * The list of recent emails (email_utils.py, fetch_recent_emails) *)

(** [b.split()]: the runs between ASCII whitespace. *)
Definition is_bytes_space (c : Byte.byte) : bool :=
  match c with
  | Byte.x09 | Byte.x0a | Byte.x0b | Byte.x0c | Byte.x0d | Byte.x20 => true
  | _ => false
  end.

Fixpoint split_go (s : bytes) (cur : bytes) : list bytes :=
  match s with
  | [] => match cur with
          | [] => []
          | _ :: _ => [rev cur]
          end
  | c :: t =>
      if is_bytes_space c
      then match cur with
           | [] => split_go t []
           | _ :: _ => rev cur :: split_go t []
           end
      else split_go t (c :: cur)
  end.

Definition bytes_split (s : bytes) : list bytes := split_go s [].

(** [l[i:]] *)
Definition slice_from {A : Type} (l : list A) (i : Z) : list A :=
  let n := Z.of_nat (length l) in
  drop (Z.to_nat (if (i <? 0)%Z then Z.max (n + i) 0 else Z.min i n)) l.

(** An element of the result of [decode_header]: the text of a chunk,
    as bytes or as a string, and its charset. *)
Inductive chunk : Type :=
| CBytes (b : bytes)
| CStr (s : str).

Definition exn_name (e : exn) : string :=
  match e with
  | Exception name => name
  end.

(** [except (UnicodeDecodeError, LookupError)]: these classes and the
    subclasses of [LookupError]. *)
Definition decoding_error (e : exn) : bool :=
  bool_decide (exn_name e ∈ ["UnicodeDecodeError"; "LookupError"; "IndexError";
                             "KeyError"; "CodecRegistryError"]%string).

(** [email_ids[0].split()] *)
Definition split_first (first : option bytes) : outcome (list bytes) :=
  match first with
  | Some line => Returns (bytes_split line)
  | None => Raises (Exception "AttributeError")
  end.

Section RecentEmails.

(** [mail.select(mailbox)], [mail.search(None, criterion)] and
    [mail.fetch(message_set, message_parts)] as the n-th command. *)
Variable imap_select : IMAP4 -> string -> nat -> outcome (str * list item).
Variable imap_search :
  IMAP4 -> string -> nat -> outcome (str * list (option bytes)).
Variable imap_fetch :
  IMAP4 -> message_set -> string -> nat -> outcome (str * list item).
Variable message_from_bytes : bytes -> Message.
(** [email.header.decode_header] *)
Variable decode_header : option str -> outcome (list (chunk * option str)).
(** [str(b)] for bytes, [s.encode('latin-1')], [b.decode(encoding)] *)
Variable bytes_repr : bytes -> str.
Variable encode_latin1 : str -> outcome bytes.
Variable decode_strict : bytes -> str -> outcome str.

(** Lines 60 to 66, and 68 to 74: the text shown for a header. *)
Definition header_text (value : option str) : outcome str :=
  bind (decode_header value) (fun header =>
  bind (index header 0) (fun first =>
  let text :=
    match fst first with
    | CBytes b => bytes_repr b
    | CStr s => s
    end in
  match snd first with
  | Some ((_ :: _) as encoding) =>
      match bind (encode_latin1 text) (fun b => decode_strict b encoding) with
      | Returns decoded => Returns decoded
      | Raises e => if decoding_error e then Returns text else Raises e
      end
  | _ => Returns text
  end)).

(** The body of the loop of lines 49 to 80 for one id, as the n-th
    command: the entry appended, or nothing after [continue]. *)
Definition header_entry (mail : IMAP4) (uid_bytes : bytes) (n : nat)
    : outcome (option App.EmailInfo) :=
  bind (decode_strict uid_bytes "utf-8") (fun uid =>
  bind (imap_fetch mail (AsBytes uid_bytes)
                   "(BODY.PEEK[HEADER.FIELDS (FROM SUBJECT)])" n)
       (fun '(status, msg_data) =>
  if bool_decide (status ≠ ("OK" : str)) then Returns None
  else
    bind (index msg_data 0) (fun first =>
    bind (literal_of first) (fun raw_email =>
    let msg := message_from_bytes raw_email in
    bind (header_text (header_from (headers_of msg))) (fun sender =>
    bind (header_text (header_subject (headers_of msg))) (fun subject =>
    Returns (Some {| App.uid := uid; App.from := sender;
                     App.subject := subject |}))))))).

Fixpoint header_loop (mail : IMAP4) (recent_ids : list bytes) (n : nat)
    (email_list : list App.EmailInfo) : outcome (list App.EmailInfo) :=
  match recent_ids with
  | [] => Returns email_list
  | uid_bytes :: rest =>
      bind (header_entry mail uid_bytes n) (fun o =>
      header_loop mail rest (S n) (email_list ++ option_list o))
  end.

Definition fetch_recent_emails (mail : IMAP4) (num_emails : Z) (n : nat)
    : list App.EmailInfo :=
  match
    bind (imap_select mail "INBOX" n) (fun '(status, messages) =>
    if bool_decide (status ≠ ("OK" : str)) then Returns []
    else
      bind (imap_search mail "ALL" (S n)) (fun '(status, email_ids) =>
      if bool_decide (status ≠ ("OK" : str)) then Returns []
      else
        bind (index email_ids 0) (fun first =>
        bind (split_first first) (fun email_id_list =>
        let recent_ids := slice_from email_id_list (- num_emails) in
        header_loop mail recent_ids (S (S n)) []))))
  with
  | Returns email_list => email_list
  | Raises _ => []
  end.

End RecentEmails.

(** ** Vocabulary of the properties of the mailbox and the page *)

(** A part that the loop of [fetch_email_content] takes as the body:
    plain text, not marked as an attachment, and decodable. *)
Definition body_part (decode : bytes -> str -> outcome str) (part : Message)
    : Prop :=
  content_type (headers_of part) = ("text/plain" : str)
  ∧ contains (py_str (content_disposition (headers_of part))) "attachment"
    = false
  ∧ ∃ s, decoded_text decode part = Returns s.

(** The four result keys are in the session state. *)
Definition all_set (ss : App.Session) : Prop :=
  is_Some (App.summary ss) ∧ is_Some (App.key_points ss)
  ∧ is_Some (App.deadlines ss) ∧ is_Some (App.attachments ss).

(** If something has been analysed, the four result keys are there. *)
Definition complete (ss : App.Session) : Prop :=
  is_Some (App.last_analyzed_content ss) → all_set ss.

(** [choice] is a value the radio widget can return: nothing, or one of
    its options. *)
Definition offered (ss : App.Session) (choice : option str) : Prop :=
  match choice with
  | Some ((_ :: _) as t) =>
      t ∈ map fst (App.email_options (App.recent_emails ss))
  | _ => True
  end.

(** Step 2 shows the list of emails. *)
Definition connected (ss : App.Session) : Prop :=
  is_Some (App.imap_connection ss) ∧ App.recent_emails ss ≠ [].

(** The four result keys as lines 135 to 138 leave them. *)
Definition cleared (ss : App.Session) : App.Session :=
  App.set_attachments []
    (App.set_deadlines [] (App.set_key_points [] (App.set_summary [] ss))).

(** The four result keys as lines 158 to 162 leave them. *)
Definition analysed (cleaned_content s : str) (kp dl : list str)
    (att : list (str * str)) (ss : App.Session) : App.Session :=
  App.set_last_analyzed_content cleaned_content
    (App.set_attachments att
       (App.set_deadlines dl (App.set_key_points kp (App.set_summary s ss)))).

(** The session when line 160 has raised: the summary and the key
    points are stored, the rest is as it was. *)
Definition half_analysed (s : str) (kp : list str) (ss : App.Session)
    : App.Session :=
  App.set_key_points kp (App.set_summary s ss).

(** The widgets of lines 165 to 190 for given results. *)
Definition digest_page (s : str) (kp dl : list str) (att : list (str * str))
    : list App.Widget :=
  [App.Subheader "Summary"; App.Write s]
  ++ match kp with
     | _ :: _ => App.Subheader "Crucial Points / Action Items"
                 :: map (fun point => App.Markdown ("- " ++ point)) kp
     | [] => [App.Info "No distinct crucial points or action items identified."]
     end
  ++ match dl with
     | _ :: _ => App.Subheader "Deadlines Detected"
                 :: map (fun deadline => App.Write ("- " ++ deadline)) dl
     | [] => [App.Info "No specific deadlines found."]
     end
  ++ match att with
     | _ :: _ => App.Subheader "Mentioned Attachments"
                 :: map App.attachment_line att
     | [] => [App.Info "No file attachments mentioned in the text."]
     end.

Definition with_session (ss : App.Session) (st : App.State) : App.State :=
  {| App.session := ss; App.world := App.world st;
     App.imap_log := App.imap_log st; App.page := App.page st |}.

Definition with_world (w : World) (st : App.State) : App.State :=
  {| App.session := App.session st; App.world := w;
     App.imap_log := App.imap_log st; App.page := App.page st |}.

Definition add_page (wgs : list App.Widget) (st : App.State) : App.State :=
  {| App.session := App.session st; App.world := App.world st;
     App.imap_log := App.imap_log st; App.page := App.page st ++ wgs |}.

(** The entry [e] was made from the id [id]: its uid is the id
    decoded. *)
Definition made_of (decode_strict : bytes -> str -> outcome str)
    (e : App.EmailInfo) (id : bytes) : Prop :=
  decode_strict id "utf-8" = Returns (App.uid e).

(** The last email of the list with the given option text. *)
Definition last_with_text (t : str) (emails : list App.EmailInfo)
    : option App.EmailInfo :=
  last (filter (λ e, App.display_text e = t) emails).

(** A mailbox with two messages, and one run of the page on it. *)
Module Inbox.

Definition b (s : string) : bytes := list_byte_of_string s.

Definition hdr (ctype : string) (cdispo charset : option string) : Headers :=
  {| content_type := ctype;
     content_disposition := option_map list_ascii_of_string cdispo;
     content_charset := option_map list_ascii_of_string charset;
     header_from := None; header_subject := None |}.

Definition html_part : Message :=
  Part (hdr "text/html" None None) (b "<p>Hello</p>").
Definition unknown_charset_part : Message :=
  Part (hdr "text/plain" None (Some "nope"%string)) (b "bad").
Definition attached_part : Message :=
  Part (hdr "text/plain" (Some "attachment; filename=a.txt"%string) None)
       (b "ATT").
Definition text_part : Message :=
  Part (hdr "text/plain" None (Some "utf-8"%string)) (b "Hello  there").
Definition alternative : Message :=
  Multipart (hdr "multipart/alternative" None None)
            [html_part; unknown_charset_part].

(** Headers of a message with the given sender and subject. *)
Definition top (ctype : string) (sender title : option string) : Headers :=
  {| content_type := ctype;
     content_disposition := None; content_charset := None;
     header_from := option_map list_ascii_of_string sender;
     header_subject := option_map list_ascii_of_string title |}.

Definition mixed : Message :=
  Multipart (top "multipart/mixed" (Some "ann@x.org"%string)
                 (Some "Hello"%string))
            [alternative; attached_part; text_part].

(** The parser: the literal RAW1 is the multipart message, the literal
    RAW5 a message without a subject; any other a single part that holds
    the literal. *)
Definition parse (raw : bytes) : Message :=
  if decide (map ascii_of_byte raw = ("RAW1" : str)) then mixed
  else if decide (map ascii_of_byte raw = ("RAW5" : str))
  then Part (top "text/plain" (Some "eve@x.org"%string) None) (b "Hi")
  else Part (top "text/plain" (Some "bob@x.org"%string) (Some "Hello"%string))
            raw.

(** Two codecs are known, and undecodable bytes do not occur. *)
Definition decode (payload : bytes) (encoding : str) : outcome str :=
  if decide (encoding = ("utf-8" : str)) then Returns (map ascii_of_byte payload)
  else if decide (encoding = ("latin-1" : str))
  then Returns (map ascii_of_byte payload)
  else Raises (Exception "LookupError").

(** The server: message 1 is the multipart message, message 2 is
    [<p>Hello there</p>] in a single part, message 5 has no subject, and
    the others cannot be fetched. *)
Definition fetch (mail : IMAP4) (ids : message_set) (message_parts : string)
    (n : nat) : outcome (str * list item) :=
  let uid : str :=
    match ids with
    | AsStr uid => uid
    | AsBytes uid => map ascii_of_byte uid
    end in
  if decide (uid = ("1" : str))
  then Returns ("OK" : str, [ITuple (b "1 (RFC822 {4}") (b "RAW1"); ILine (b ")")])
  else if decide (uid = ("2" : str))
  then Returns ("OK" : str,
                [ITuple (b "2 (RFC822 {18}") (b "<p>Hello there</p>");
                 ILine (b ")")])
  else if decide (uid = ("5" : str))
  then Returns ("OK" : str, [ITuple (b "5 (RFC822 {4}") (b "RAW5"); ILine (b ")")])
  else Returns ("NO" : str, [INone]).

Definition select (mail : IMAP4) (mailbox : string) (n : nat)
    : outcome (str * list item) :=
  Returns ("OK" : str, [ILine (b "4")]).

(** The mailbox holds the messages 5, 1, 7 and 2, in this order. *)
Definition search (mail : IMAP4) (criterion : string) (n : nat)
    : outcome (str * list (option bytes)) :=
  Returns ("OK" : str, [Some (b "5 1 7 2")]).

(** Headers that are plain ASCII: one chunk without a charset; a missing
    header cannot be decoded. *)
Definition decode_header (value : option str)
    : outcome (list (chunk * option str)) :=
  match value with
  | Some s => Returns [(CStr s, None)]
  | None => Raises (Exception "TypeError")
  end.

(** [str(x)] for printable bytes without quotes and backslashes. *)
Definition bytes_repr (x : bytes) : str :=
  "b'" ++ map ascii_of_byte x ++ "'".

Definition encode_latin1 (s : str) : outcome bytes :=
  Returns (map byte_of_ascii s).

Definition recent (num_emails : Z) : list App.EmailInfo :=
  fetch_recent_emails select search fetch parse decode_header bytes_repr
                      encode_latin1 decode 0 num_emails 0.

Definition emails : list App.EmailInfo :=
  [ {| App.uid := "1"; App.from := "ann@x.org"; App.subject := "Hello" |};
    {| App.uid := "3"; App.from := "bob@x.org"; App.subject := "Hello" |};
    {| App.uid := "2"; App.from := "bob@x.org"; App.subject := "Hello" |};
    {| App.uid := "4"; App.from := "dan@x.org"; App.subject := "Gone" |} ].

Definition option_ann : str := "From: ann@x.org | Subject: Hello".
Definition option_bob : str := "From: bob@x.org | Subject: Hello".
Definition option_dan : str := "From: dan@x.org | Subject: Gone".

(** The session after Step 1 has connected and listed the emails. *)
Definition listed : App.Session :=
  {| App.imap_connection := Some 0; App.recent_emails := emails;
     App.selected_email_uid := None; App.current_email_content := Some [];
     App.summary := None; App.key_points := None; App.deadlines := None;
     App.attachments := None; App.last_analyzed_content := None |}.

Definition run (choice : option str) (ss : App.Session) (w : World)
    (log : list str) : outcome unit * App.State :=
  App.run Runs.summarize Runs.nlp Runs.parse_naive (fun _ => Runs.dec1)
          fetch parse decode choice ss w log.

Definition runs (choices : list (option str)) (ss : App.Session) (w : World)
    (log : list str) : outcome unit * App.State :=
  App.runs Runs.summarize Runs.nlp Runs.parse_naive (fun _ => Runs.dec1)
           fetch parse decode choices ss w log.

(** The state after a first run in which the first option is selected. *)
Definition first_run : App.State :=
  snd (run (Some option_ann) listed Runs.w0 []).

(** A server whose message 1 names a time of day with its time zone, and
    a run of the page on it. *)
Definition fetch_call (mail : IMAP4) (ids : message_set)
    (message_parts : string) (n : nat) : outcome (str * list item) :=
  Returns ("OK" : str,
           [ITuple (b "1 (RFC822 {32}") (b "Please join the call by 5pm EST.");
            ILine (b ")")]).

Definition run_call (choice : option str) (ss : App.Session) (w : World)
    (log : list str) : outcome unit * App.State :=
  App.run Runs.summarize Runs.call_nlp Runs.call_parse (fun _ => Runs.dec1)
          fetch_call parse decode choice ss w log.

End Inbox.

(** The uid that lines 114 to 123 read off the radio widget. *)
Definition chosen (ss : App.Session) (choice : option str)
    : outcome (option str) :=
  App.selected_uid (App.email_options (App.recent_emails ss)) choice.

(** A string that Python takes as true. *)
Definition truthy (o : option str) : Prop := ∃ a t, o = Some (a :: t).

(** A session on which a run with the given choice has nothing left to
    do: the chosen email is the selected one, and the content, if there
    is one, is the one analysed last, with its results in place. *)
Definition at_rest (choice : option str) (ss : App.Session) : Prop :=
  ∃ o, chosen ss choice = Returns o
       ∧ (truthy o → App.selected_email_uid ss = o)
       ∧ (truthy (App.current_email_content ss) →
          all_set ss
          ∧ App.last_analyzed_content ss
            = option_map clean_email_text (App.current_email_content ss)).

(** The warning of line 133. *)
Definition fetch_warning (uid : str) : App.Widget :=
  App.Warning ("Could not fetch content for UID: " ++ uid
               ++ ". It might be malformed or an issue with decoding.").

(** The state in which lines 126 to 138 leave [st] when the uid [u] is
    newly selected and the fetch gives [content]. *)
Definition newly_selected (u : str) (content : option str) (st : App.State)
    : App.State :=
  {| App.session :=
       cleared (App.set_current_email_content content
                  (App.set_selected_email_uid (Some u) (App.session st)));
     App.world := App.world st;
     App.imap_log := App.imap_log st ++ [u];
     App.page := App.page st
                 ++ match content with
                    | None => [fetch_warning u]
                    | Some _ => []
                    end |}.

(** What a run writes before it reads the radio widget. *)
Definition front_page (ss : App.Session) : list App.Widget :=
  [App.Header "Step 2: Browse & Get Digest";
   App.Subheader "Recent Emails";
   App.Radio "Select an email to view its digest:"
             (map fst (App.email_options (App.recent_emails ss)))].

(** The end of a page without a digest. *)
Definition idle_page : list App.Widget :=
  [App.Subheader "Email Digest";
   App.Info "Select an email from the left to generate its digest."].

(** The page of a run up to the analysis of [raw]. *)
Definition debug_page (ss : App.Session) (raw : str) : list App.Widget :=
  front_page ss
  ++ [App.Subheader "Email Digest";
      App.TextArea "DEBUG: Cleaned Email Content:" (clean_email_text raw)].

(** The page of a run that shows the digest of [raw]. *)
Definition digest_widgets (ss : App.Session) (raw s : str) (kp dl : list str)
    (att : list (str * str)) : list App.Widget :=
  front_page ss
  ++ [App.Subheader "Email Digest";
      App.TextArea "DEBUG: Cleaned Email Content:" (clean_email_text raw)]
  ++ digest_page s kp dl att
  ++ [App.TextArea "Raw Content:" raw].

(** ** Vocabulary of the property on tags *)

(** Whether the pattern can match without a character, and whether a
    match that takes characters can begin with [a]. *)
Fixpoint nullable (r : regex) : bool :=
  match r with
  | Chr _ => false
  | Seq r1 r2 => nullable r1 && nullable r2
  | Alt r1 r2 => nullable r1 || nullable r2
  | Rep lo _ _ r1 => (lo =? 0)%nat || nullable r1
  | Grp _ r1 => nullable r1
  | Eps | Bol | Eol | WordB => true
  end.

Fixpoint first_may (r : regex) (a : ascii) : bool :=
  match r with
  | Chr p => p a
  | Seq r1 r2 => first_may r1 a || (nullable r1 && first_may r2 a)
  | Alt r1 r2 => first_may r1 a || first_may r2 a
  | Rep _ _ _ r1 | Grp _ r1 => first_may r1 a
  | Eps | Bol | Eol | WordB => false
  end.

(** The class of the pattern of step 1: any character but the closing
    bracket. *)
Definition not_gt (c : ascii) : bool := negb (existsb (Ascii.eqb c) (">" : str)).

(** What may follow an opening bracket in a text without a tag: nothing,
    the closing bracket at once, or no closing bracket at all. *)
Definition ok_after (t : str) : Prop :=
  t = [] ∨ (∃ v, t = ">"%char :: v) ∨ ">"%char ∉ t.

Fixpoint tagfree (s : str) : Prop :=
  match s with
  | [] => True
  | a :: t => (a = "<"%char → ok_after t) ∧ tagfree t
  end.

(** Where the subject keeps an opening bracket at which the pattern
    finds no match, what follows the bracket is as in a text without a
    tag. *)
Definition kept_ok (r : regex) (aft : str) : Prop :=
  ∀ u t bef, aft = u ++ "<"%char :: t →
             attempt r (Cursor bef ("<"%char :: t)) = [] → ok_after t.

(** * Properties *)

(** ** The str methods *)

Section StrFacts.

Lemma lstrip_suffix (s : str) :
  ∃ u, s = u ++ lstrip s ∧ Forall (fun a => Char.isspace a = true) u.
Proof.
  induction s as [|a t IH]; simpl.
  - exists []. split; [reflexivity | constructor].
  - destruct (Char.isspace a) eqn:Ha.
    + destruct IH as (u & Hu & Hall). exists (a :: u). split.
      * simpl. congruence.
      * constructor; assumption.
    + exists []. split; [reflexivity | constructor].
Qed.

Lemma lstrip_head (s : str) a t : lstrip s = a :: t → Char.isspace a = false.
Proof.
  induction s as [|b s IH]; simpl; [discriminate|].
  destruct (Char.isspace b) eqn:Hb; [exact IH|].
  intros [= -> _]. exact Hb.
Qed.

Lemma lstrip_id (s : str) :
  (∀ a t, s = a :: t → Char.isspace a = false) → lstrip s = s.
Proof.
  destruct s as [|a t]; simpl; [reflexivity|].
  intros H. rewrite (H a t eq_refl). reflexivity.
Qed.

Lemma rstrip_prefix (s : str) : ∃ v, s = rstrip s ++ v.
Proof.
  unfold rstrip. destruct (lstrip_suffix (rev s)) as (u & Hu & _).
  exists (rev u). rewrite <- rev_app_distr, <- Hu, rev_involutive. reflexivity.
Qed.

Lemma rstrip_last (s : str) l a : rstrip s = l ++ [a] → Char.isspace a = false.
Proof.
  unfold rstrip. intros H.
  apply (f_equal (@rev ascii)) in H.
  rewrite rev_involutive, rev_app_distr in H. simpl in H.
  exact (lstrip_head _ _ _ H).
Qed.

Lemma rstrip_id (s : str) :
  (∀ l a, s = l ++ [a] → Char.isspace a = false) → rstrip s = s.
Proof.
  intros H. unfold rstrip. rewrite lstrip_id; [apply rev_involutive|].
  intros a t Ht. apply (H (rev t) a).
  rewrite <- (rev_involutive s), Ht. reflexivity.
Qed.

Lemma strip_infix (s : str) : ∃ u v, s = u ++ strip s ++ v.
Proof.
  unfold strip. destruct (lstrip_suffix s) as (u & Hu & _).
  destruct (rstrip_prefix (lstrip s)) as (v & Hv).
  exists u, v. rewrite <- Hv. exact Hu.
Qed.

Lemma strip_head (s : str) a t : strip s = a :: t → Char.isspace a = false.
Proof.
  unfold strip. intros H.
  destruct (rstrip_prefix (lstrip s)) as (v & Hv). rewrite H in Hv.
  exact (lstrip_head s a (t ++ v) Hv).
Qed.

Lemma strip_last (s : str) l a : strip s = l ++ [a] → Char.isspace a = false.
Proof. unfold strip. apply rstrip_last. Qed.

Lemma strip_id (s : str) :
  (∀ a t, s = a :: t → Char.isspace a = false) →
  (∀ l a, s = l ++ [a] → Char.isspace a = false) → strip s = s.
Proof.
  intros Hh Hl. unfold strip. rewrite (lstrip_id s Hh). apply rstrip_id, Hl.
Qed.

Lemma strip_elem (s : str) a : a ∈ strip s → a ∈ s.
Proof.
  destruct (strip_infix s) as (u & v & H). intros Ha.
  rewrite H. rewrite !elem_of_app. auto.
Qed.

Lemma tidy_weaken b (s : str) : tidy b s → tidy false s.
Proof. destruct s; simpl; [auto|]. intros [H1 H2]. split; [|exact H2]. intros H. split; [apply H1, H | reflexivity]. Qed.

Lemma tidy_app_l b (s1 s2 : str) : tidy b (s1 ++ s2) → tidy b s1.
Proof.
  revert b. induction s1 as [|a t IH]; simpl; intros b; [auto|].
  intros [H1 H2]. split; [exact H1 | exact (IH _ H2)].
Qed.

Lemma tidy_app_r b (s1 s2 : str) : tidy b (s1 ++ s2) → tidy false s2.
Proof.
  revert b. induction s1 as [|a t IH]; simpl; intros b.
  - apply tidy_weaken.
  - intros [_ H2]. exact (IH _ H2).
Qed.

Lemma tidy_strip b (s : str) : tidy b s → tidy false (strip s).
Proof.
  destruct (strip_infix s) as (u & v & H). intros Ht. rewrite H in Ht.
  apply tidy_app_r in Ht. exact (tidy_app_l _ _ _ Ht).
Qed.

Lemma tidy_space b (s : str) a :
  tidy b s → a ∈ s → Char.isspace a = true → a = Char.space.
Proof.
  revert b. induction s as [|c t IH]; simpl; intros b Ht Ha Hs.
  - inversion Ha.
  - destruct Ht as [H1 H2]. apply elem_of_cons in Ha as [->|Ha].
    + apply H1, Hs.
    + exact (IH _ H2 Ha Hs).
Qed.

Lemma tidy_no_pair b (s l1 l2 : str) a c :
  tidy b s → s = l1 ++ a :: c :: l2 →
  ¬ (Char.isspace a = true ∧ Char.isspace c = true).
Proof.
  intros Ht -> [Ha Hc]. apply tidy_app_r in Ht. simpl in Ht.
  destruct Ht as (_ & H & _). destruct (H Hc) as [_ E].
  rewrite Ha in E. discriminate.
Qed.

End StrFacts.

(** ** The scan behind [re.sub] and [re.finditer] *)

Section ScanFacts.

Variable r : regex.
Variable repl : str.

Lemma emit_matches (ms : list rmatch) x :
  x ∈ flat_map (emit repl) (map TMatch ms) → x ∈ repl.
Proof.
  induction ms as [|mt ms IH]; simpl.
  - intros H. inversion H.
  - rewrite elem_of_app. intros [H|H]; [exact H | exact (IH H)].
Qed.

(** Every character [re.sub] writes comes from the subject or from the
    replacement. *)
Lemma scan_chars (aft : str) : ∀ bef skip x,
  x ∈ flat_map (emit repl) (scan r bef aft skip) → x ∈ aft ∨ x ∈ repl.
Proof.
  induction aft as [|a t IH]; intros bef skip x; destruct skip as [|n]; simpl.
  - rewrite app_nil_r. intros H. right. exact (emit_matches _ _ H).
  - intros H. inversion H.
  - rewrite flat_map_app, elem_of_app. intros [H|H].
    + right. exact (emit_matches _ _ H).
    + destruct (last_len _).
      * simpl in H. apply elem_of_cons in H as [->|H].
        -- left. apply elem_of_cons. auto.
        -- destruct (IH _ _ _ H) as [H'|H']; [left | right; exact H'].
           apply elem_of_cons. auto.
      * destruct (IH _ _ _ H) as [H'|H']; [left | right; exact H'].
        apply elem_of_cons. auto.
  - intros H. destruct (IH _ _ _ H) as [H'|H']; [left | right; exact H'].
    apply elem_of_cons. auto.
Qed.

Lemma sub_chars (text : str) x : x ∈ sub r repl text → x ∈ text ∨ x ∈ repl.
Proof. apply scan_chars. Qed.

Lemma omap_matches (ms : list rmatch) : omap is_match (map TMatch ms) = ms.
Proof. induction ms as [|mt ms IH]; simpl; [reflexivity|]. f_equal. exact IH. Qed.

(** Where the scan finds no match the subject is copied. *)
Lemma scan_no_match (aft : str) : ∀ bef,
  omap is_match (scan r bef aft 0) = [] →
  flat_map (emit repl) (scan r bef aft 0) = aft.
Proof.
  induction aft as [|a t IH]; intros bef; simpl.
  - rewrite app_nil_r, omap_matches. intros ->. reflexivity.
  - rewrite omap_app, omap_matches. intros H.
    apply app_eq_nil in H as [Hms H]. rewrite Hms in *. simpl in *.
    f_equal. apply IH. exact H.
Qed.

Lemma sub_no_match (text : str) : search r text = None → sub r repl text = text.
Proof.
  unfold search, sub, finditer. intros H. apply scan_no_match.
  destruct (omap is_match (scan r [] text 0)); [reflexivity | discriminate].
Qed.

Lemma scan_skip (s1 : str) : ∀ s2 bef,
  scan r bef (s1 ++ s2) (length s1) = scan r (rev s1 ++ bef) s2 0.
Proof.
  induction s1 as [|a t IH]; intros s2 bef; simpl.
  - destruct s2; reflexivity.
  - rewrite IH, <- app_assoc. reflexivity.
Qed.

End ScanFacts.

(** A pattern that begins with a character no position of the subject
    offers never matches. *)
Lemma scan_first_char p r' (aft : str) : ∀ bef,
  (∀ a, a ∈ aft → p a = false) →
  scan (Seq (Chr p) r') bef aft 0 = map TChar aft.
Proof.
  induction aft as [|a t IH]; intros bef H.
  - reflexivity.
  - assert (Ha : p a = false) by (apply H, elem_of_cons; auto).
    simpl. unfold attempt, match_at. simpl. rewrite Ha. simpl.
    f_equal. apply IH. intros b Hb. apply H, elem_of_cons. auto.
Qed.

Lemma emit_chars repl (s : str) : flat_map (emit repl) (map TChar s) = s.
Proof. induction s as [|a t IH]; simpl; [reflexivity|]. f_equal. exact IH. Qed.

(** *** One or more characters of a class *)

Section ClassRuns.

Variable p : ascii -> bool.

Lemma run_rest (s : str) : run p s ++ rest p s = s.
Proof.
  induction s as [|a t IH]; simpl; [reflexivity|].
  destruct (p a); simpl; [f_equal; exact IH | reflexivity].
Qed.

Lemma rest_length (s : str) : length (rest p s) ≤ length s.
Proof.
  rewrite <- (run_rest s) at 2. rewrite length_app. lia.
Qed.

Lemma rep_star_chr (k : kont) :
  (∀ c g, k c g = Some (c, g)) →
  ∀ fuel bef aft g, length aft ≤ fuel →
  rep_loop (m (Chr p)) true k fuel 0 None (Cursor bef aft) g
  = Some (Cursor (rev (run p aft) ++ bef) (rest p aft), g).
Proof.
  intros Hk. induction fuel as [|f IH]; intros bef aft g Hlen.
  - destruct aft; [|simpl in Hlen; lia]. simpl. apply Hk.
  - destruct aft as [|a t]; simpl.
    + apply Hk.
    + destruct (p a) eqn:Ha; simpl.
      * assert (Hlt : (length t <? S (length t))%nat = true)
          by (apply Nat.ltb_lt; lia).
        rewrite Hlt, IH by (simpl in Hlen; lia). simpl.
        rewrite <- app_assoc. reflexivity.
      * apply Hk.
Qed.

Lemma match_plus_chr bef (aft : str) :
  match_at (plus (Chr p)) (Cursor bef aft) false
  = match aft with
    | a :: t =>
        if p a then Some (Cursor (rev (run p t) ++ a :: bef) (rest p t), [])
        else None
    | [] => None
    end.
Proof.
  unfold match_at, plus. cbn [m after Nat.add rep_loop].
  destruct aft as [|a t]; [reflexivity|].
  destruct (p a) eqn:Ha; [|reflexivity].
  cbn [dec_hi option_map]. apply rep_star_chr; [reflexivity | simpl; lia].
Qed.

Lemma attempt_plus_chr bef (aft : str) :
  attempt (plus (Chr p)) (Cursor bef aft)
  = match aft with
    | a :: t => if p a then [Match (a :: run p t) []] else []
    | [] => []
    end.
Proof.
  unfold attempt. rewrite match_plus_chr.
  destruct aft as [|a t]; [reflexivity|].
  destruct (p a) eqn:Ha; [|reflexivity].
  unfold mk_match, consumed. cbn [fst snd after].
  pose proof (rest_length t) as Hle.
  assert (E : (length t - length (rest p t) = length (run p t))%nat).
  { rewrite <- (run_rest t) at 1. rewrite length_app. lia. }
  replace (length (a :: t) - length (rest p t))%nat with (S (length (run p t)))
    by (simpl; lia).
  cbn [take]. rewrite <- (run_rest t) at 2. rewrite take_app_length.
  reflexivity.
Qed.

Variable repl : str.

Lemma squeeze_run (s : str) : squeeze p repl true s = squeeze p repl false (rest p s).
Proof.
  induction s as [|a t IH]; simpl; [reflexivity|].
  destruct (p a) eqn:Ha; simpl.
  - exact IH.
  - rewrite Ha. reflexivity.
Qed.

Lemma scan_plus_chr (n : nat) : ∀ aft bef, length aft ≤ n →
  flat_map (emit repl) (scan (plus (Chr p)) bef aft 0) = squeeze p repl false aft.
Proof.
  induction n as [|n IH]; intros aft bef Hlen.
  - destruct aft; [|simpl in Hlen; lia]. cbn [scan].
    rewrite attempt_plus_chr. reflexivity.
  - destruct aft as [|a t].
    + cbn [scan]. rewrite attempt_plus_chr. reflexivity.
    + cbn [scan]. rewrite attempt_plus_chr. destruct (p a) eqn:Ha.
      * cbn [map app last_len last group0 length].
        assert (Hs : scan (plus (Chr p)) (a :: bef) t (length (run p t))
                     = scan (plus (Chr p)) (rev (run p t) ++ a :: bef) (rest p t) 0).
        { rewrite <- (run_rest t) at 1. apply scan_skip. }
        rewrite Hs. cbn [flat_map emit squeeze]. rewrite Ha. f_equal.
        rewrite IH by (pose proof (rest_length t); simpl in Hlen; lia).
        symmetry. apply squeeze_run.
      * cbn [map app last_len last flat_map emit squeeze]. rewrite Ha.
        f_equal. apply IH. simpl in Hlen. lia.
Qed.

Lemma sub_plus_chr (text : str) :
  sub (plus (Chr p)) repl text = squeeze p repl false text.
Proof. apply (scan_plus_chr (length text)). lia. Qed.

End ClassRuns.

Lemma squeeze_tidy (s : str) : ∀ b,
  tidy b (squeeze Char.isspace [Char.space] b s).
Proof.
  induction s as [|a t IH]; intros b; simpl; [exact I|].
  destruct (Char.isspace a) eqn:Ha.
  - destruct b; simpl; [apply IH|].
    split; [intros _; split; reflexivity | apply (IH true)].
  - simpl. rewrite Ha. split; [discriminate | apply IH].
Qed.

Lemma squeeze_id (s : str) : ∀ b,
  tidy b s → squeeze Char.isspace [Char.space] b s = s.
Proof.
  induction s as [|a t IH]; intros b; simpl; [reflexivity|].
  intros [H1 H2]. destruct (Char.isspace a) eqn:Ha.
  - destruct (H1 eq_refl) as [-> ->]. simpl. f_equal. apply IH, H2.
  - f_equal. apply IH, H2.
Qed.

Lemma squeeze_removes p (s : str) : ∀ b x, x ∈ squeeze p [] b s → p x = false.
Proof.
  induction s as [|a t IH]; intros b x; simpl.
  - intros H. inversion H.
  - destruct (p a) eqn:Ha.
    + destruct b; simpl; apply IH.
    + intros H. apply elem_of_cons in H as [->|H]; [exact Ha | exact (IH _ _ H)].
Qed.

(** ** Text Cleaner *)

Section Cleaner.

Lemma spaces_squeeze (text : str) :
  sub Pat.spaces " " text = squeeze Char.isspace [Char.space] false text.
Proof. apply sub_plus_chr. Qed.

Lemma asterisks_squeeze (text : str) :
  sub Pat.asterisks "" text = squeeze (Ascii.eqb Char.star_c) [] false text.
Proof. apply sub_plus_chr. Qed.

Lemma tidy_no_nl (s : str) a : tidy false s → a ∈ s → Ascii.eqb Char.nl a = false.
Proof.
  intros Ht Ha. destruct (Ascii.eqb Char.nl a) eqn:E; [|reflexivity].
  apply Ascii.eqb_eq in E. subst a.
  pose proof (tidy_space _ _ _ Ht Ha eq_refl) as H. discriminate H.
Qed.

Lemma blank_lines_tidy (s : str) :
  tidy false s → sub Pat.blank_lines [Char.nl; Char.nl] s = s.
Proof.
  intros Ht. unfold sub.
  change Pat.blank_lines
    with (Seq (Chr (Ascii.eqb Char.nl)) (Seq (star ws) (ch Char.nl))).
  rewrite scan_first_char; [apply emit_chars|].
  intros a Ha. exact (tidy_no_nl _ _ Ht Ha).
Qed.

(** Step 5 of the cleaner on any text. *)
Lemma whitespace_step (t : str) :
  sub Pat.blank_lines [Char.nl; Char.nl] (strip (sub Pat.spaces " " t))
  = strip (sub Pat.spaces " " t)
  ∧ tidy false (strip (sub Pat.spaces " " t)).
Proof.
  assert (Ht : tidy false (strip (sub Pat.spaces " " t))).
  { rewrite spaces_squeeze. eapply tidy_strip, squeeze_tidy. }
  rewrite (blank_lines_tidy _ Ht). split; [reflexivity | exact Ht].
Qed.

(** The cleaner ends with step 5 applied to some text. *)
Lemma clean_email_text_step5 (text : str) :
  ∃ t, clean_email_text text = strip (sub Pat.spaces " " t)
       ∧ tidy false (clean_email_text text)
       ∧ Char.star_c ∉ t.
Proof.
  unfold clean_email_text. cbv zeta.
  match goal with
  | |- context [sub Pat.spaces _ ?u] => set (t := u)
  end.
  exists t. destruct (whitespace_step t) as [E Ht].
  rewrite E. split; [reflexivity|]. split; [exact Ht|].
  subst t. intros H. apply sub_chars in H as [H|H].
  - rewrite asterisks_squeeze in H. apply squeeze_removes in H. discriminate H.
  - apply elem_of_cons in H as [H|H]; [discriminate H | inversion H].
Qed.

End Cleaner.

(** ** Claims about the Text Cleaner *)

(** C9.  For every input, the output of [clean_email_text] has no leading
    or trailing whitespace, holds no newline and no tab, has no two
    consecutive spaces, and holds no asterisk. *)
Theorem clean_email_text_normalized (text : str) :
  let o := clean_email_text text in
  (∀ a t, o = a :: t → Char.isspace a = false)
  ∧ (∀ l a, o = l ++ [a] → Char.isspace a = false)
  ∧ (Char.nl ∉ o) ∧ (Char.tab ∉ o)
  ∧ (∀ l1 l2, o ≠ l1 ++ Char.space :: Char.space :: l2)
  ∧ (Char.star_c ∉ o).
Proof.
  intros o. subst o.
  destruct (clean_email_text_step5 text) as (t & E & Ht & Hstar).
  repeat split.
  - intros a u H. rewrite E in H. exact (strip_head _ _ _ H).
  - intros l a H. rewrite E in H. exact (strip_last _ _ _ H).
  - intros H. pose proof (tidy_space _ _ _ Ht H eq_refl) as H'. discriminate H'.
  - intros H. pose proof (tidy_space _ _ _ Ht H eq_refl) as H'. discriminate H'.
  - intros l1 l2 H. apply (tidy_no_pair _ _ _ _ _ _ Ht H). split; reflexivity.
  - rewrite E. intros H. apply strip_elem, sub_chars in H as [H|H].
    + exact (Hstar H).
    + apply elem_of_cons in H as [H|H]; [discriminate H | inversion H].
Qed.

(** C6, as stated: the scenario input is cleaned to Hello.  The anchor
    text survives, so this fails. *)
Lemma clean_html_scenario_not_hello :
  clean_email_text Scenario.ex_html ≠ ("Hello" : str).
Proof. vm_compute. discriminate. Qed.

(** C6, amended.  On the scenario input the tags, and with them the URL
    inside the anchor tag, are stripped; the text of both elements stays
    and the result is Hello link. *)
Theorem clean_html_scenario :
  clean_email_text Scenario.ex_html = ("Hello link" : str).
Proof. vm_compute. reflexivity. Qed.

(** C7, as stated: cleaning twice equals cleaning once on every text
    without markup.  It fails already on words separated by two spaces. *)
Lemma clean_not_idempotent :
  ¬ (∀ x : str, plain_words x →
       clean_email_text (clean_email_text x) = clean_email_text x).
Proof.
  intros H. specialize (H ("View  Group" : str)).
  assert (Hp : plain_words ("View  Group" : str)).
  { intros a Ha.
    repeat (apply elem_of_cons in Ha as [->|Ha]; [vm_compute; auto|]).
    inversion Ha. }
  specialize (H Hp). vm_compute in H. discriminate H.
Qed.

Lemma settled_search (y : str) r :
  settled y = true → In r removal_patterns → search r y = None.
Proof.
  unfold settled. rewrite forallb_forall. intros H Hr.
  specialize (H r Hr). apply bool_decide_eq_true in H. exact H.
Qed.

(** C7, amended.  Cleaning twice equals cleaning once for every text whose
    cleaned form is matched by no pattern of steps 1 to 4. *)
Theorem clean_idempotent_settled (x : str) :
  settled (clean_email_text x) = true →
  clean_email_text (clean_email_text x) = clean_email_text x.
Proof.
  intros Hs.
  destruct (clean_email_text_step5 x) as (t & E & Ht & _).
  remember (clean_email_text x) as y eqn:Hy.
  unfold clean_email_text. cbv zeta.
  repeat (rewrite (sub_no_match _ _ y)
            by (apply settled_search; [exact Hs | simpl; tauto])).
  rewrite spaces_squeeze, (squeeze_id _ _ Ht).
  rewrite (strip_id y).
  - apply blank_lines_tidy, Ht.
  - intros a u H. rewrite E in H. exact (strip_head _ _ _ H).
  - intros l a H. rewrite E in H. exact (strip_last _ _ _ H).
Qed.

(** The condition holds of a text whose only irregularity is a run of
    spaces. *)
Lemma clean_idempotent_settled_witness :
  settled (clean_email_text ("Hello   world" : str)) = true
  ∧ clean_email_text (clean_email_text ("Hello   world" : str))
    = clean_email_text ("Hello   world" : str).
Proof.
  split; [vm_compute; reflexivity|].
  apply (clean_idempotent_settled ("Hello   world" : str)).
  vm_compute. reflexivity.
Defined.

(** ** Summarizer *)

Section SummarizerFacts.

Variable summarizer : str -> outcome (list (gmap str str)).

(** C4.  [get_summary] returns a string on every input and never raises.
    On empty or whitespace-only text it returns the fixed sentence for no
    content and the summarization model is not called.  When the model is
    called and raises, the fixed sentence for a failed summary is
    returned. *)
Theorem get_summary_total (text : str) (w : World) :
  (∃ s, fst (get_summary summarizer text w) = Returns s)
  ∧ (strip text = [] →
       get_summary summarizer text w
       = (Returns ("No content to summarize." : str), w))
  ∧ (strip text ≠ [] →
       calls (snd (get_summary summarizer text w)) = calls w ++ [text]
       ∧ ∀ e, summarizer text = Raises e →
           fst (get_summary summarizer text w)
           = Returns ("Could not generate summary." : str)).
Proof.
  unfold get_summary. destruct (strip text) as [|a t] eqn:Hs.
  - split; [eexists; reflexivity|]. split; [reflexivity|].
    intros H. contradiction.
  - split; [|split; [discriminate|]].
    + cbn [fst]. destruct (summarizer text) as [out|e]; cbn [bind try_except].
      * unfold index. destruct (out !! 0) as [d|]; cbn [bind try_except].
        -- unfold getitem. destruct (d !! _); eexists; reflexivity.
        -- eexists; reflexivity.
      * eexists; reflexivity.
    + intros _. split; [reflexivity|]. intros e He. cbn [fst].
      rewrite He. reflexivity.
Qed.

End SummarizerFacts.

(** A model that always raises: blank text gets the first sentence
    without a call, other text the second. *)
Lemma get_summary_total_witness :
  let failing : str -> outcome (list (gmap str str)) :=
    fun _ => Raises (Exception "RuntimeError") in
  let w := {| tick := 0; calls := [] |} in
  get_summary failing ("   " : str) w
    = (Returns ("No content to summarize." : str), w)
  ∧ fst (get_summary failing ("Hello" : str) w)
    = Returns ("Could not generate summary." : str).
Proof.
  intros failing w. split.
  - apply (get_summary_total failing ("   " : str) w). reflexivity.
  - destruct (get_summary_total failing ("Hello" : str) w) as (_ & _ & H).
    destruct (H ltac:(discriminate)) as [_ H'].
    apply (H' (Exception "RuntimeError")). reflexivity.
Defined.

(** ** Key-Point Extractor *)

Section KeyPointFacts.

Variable nlp_spacy : str -> Doc.

Lemma first_occurrences_elem (l : list str) x :
  x ∈ first_occurrences l ↔ x ∈ l.
Proof.
  induction l as [|y l IH]; simpl; [reflexivity|].
  rewrite !elem_of_cons, list_elem_of_filter, IH.
  destruct (decide (x = y)); tauto.
Qed.

Lemma first_occurrences_NoDup (l : list str) : NoDup (first_occurrences l).
Proof.
  induction l as [|y l IH]; simpl; [constructor|].
  constructor.
  - rewrite list_elem_of_filter. intros [H _]. congruence.
  - apply NoDup_filter, IH.
Qed.

Lemma filter_not_in_nil (l : list str) : filter (λ y, y ∉ ([] : list str)) l = l.
Proof.
  induction l as [|x l IH]; [reflexivity|].
  rewrite filter_cons_True by (intros H; inversion H). f_equal. exact IH.
Qed.

Lemma key_point_loop_spec (ss : list Sent) :
  ∀ (kp : list str) (processed : gset str),
    (∀ x, x ∈ processed ↔ x ∈ kp) →
    key_point_loop ss kp processed
    = kp ++ filter (λ y, y ∉ kp) (first_occurrences (omap selected ss)).
Proof.
  induction ss as [|sent ss IH]; intros kp processed Hp; simpl.
  - rewrite app_nil_r. reflexivity.
  - unfold selected at 1. cbv zeta.
    destruct (bool_decide (strip (sent_text sent) = [])) eqn:He; simpl.
    { apply IH, Hp. }
    destruct (bool_decide (strip (sent_text sent) ∈ processed)) eqn:Hin; simpl.
    { apply bool_decide_eq_true in Hin. apply Hp in Hin.
      rewrite (IH _ _ Hp). f_equal.
      destruct (is_key _ sent); simpl; [|reflexivity].
      rewrite filter_cons_False by (intros H; exact (H Hin)).
      rewrite list_filter_filter. apply list_filter_iff.
      intros y. split; [|tauto]. intros Hy. split; [exact Hy|].
      intros ->. exact (Hy Hin). }
    apply bool_decide_eq_false in Hin.
    assert (Hnot : strip (sent_text sent) ∉ kp) by (rewrite <- Hp; exact Hin).
    destruct (is_key _ sent); simpl; [|apply IH, Hp].
    rewrite filter_cons_True by exact Hnot.
    rewrite (IH (kp ++ [strip (sent_text sent)])
                ({[strip (sent_text sent)]} ∪ processed)).
    + rewrite <- app_assoc. simpl. do 2 f_equal.
      rewrite list_filter_filter. apply list_filter_iff.
      intros y. rewrite elem_of_app, elem_of_cons. split.
      * intros H. split; [tauto|]. intros ->. apply H. right. left. reflexivity.
      * intros [H1 H2] [H|[H|H]]; [tauto | tauto | inversion H].
    + intros x. rewrite elem_of_union, elem_of_singleton, elem_of_app,
        elem_of_cons, Hp. split.
      * intros [->|H]; [right; left; reflexivity | left; exact H].
      * intros [H|[->|H]]; [right; exact H | left; reflexivity | inversion H].
Qed.

(** C5.  The key points hold no string twice; they are the selected
    sentences in the order of the text, each kept at its first
    occurrence; every one is the text of a selected sentence with the
    surrounding whitespace trimmed. *)
Theorem key_points_no_dup_in_order (text : str) :
  let kps := extract_key_points_and_actions nlp_spacy text in
  NoDup kps
  ∧ kps = first_occurrences (omap selected (sents (nlp_spacy text)))
  ∧ ∀ x, x ∈ kps →
      ∃ sent, sent ∈ sents (nlp_spacy text)
              ∧ x = strip (sent_text sent) ∧ x ≠ []
              ∧ is_key x sent = true.
Proof.
  intros kps.
  assert (E : kps = first_occurrences (omap selected (sents (nlp_spacy text)))).
  { subst kps. unfold extract_key_points_and_actions.
    rewrite (key_point_loop_spec _ [] ∅) by set_solver.
    simpl. apply filter_not_in_nil. }
  split; [rewrite E; apply first_occurrences_NoDup|].
  split; [exact E|].
  intros x Hx. rewrite E, first_occurrences_elem in Hx.
  apply list_elem_of_omap in Hx as (sent & Hsent & Hsel).
  exists sent. unfold selected in Hsel. cbv zeta in Hsel.
  destruct (bool_decide (strip (sent_text sent) = [])) eqn:He; [discriminate|].
  apply bool_decide_eq_false in He.
  destruct (is_key _ sent) eqn:Hk; [|discriminate].
  injection Hsel as <-. auto.
Qed.

End KeyPointFacts.

(** ** Deadline Extractor *)

Section DatetimeFacts.

Local Open Scope Z_scope.

Lemma days_minus (a b : datetime) :
  days (minus a b) = (instant a - instant b) / 86400000000.
Proof.
  unfold minus, mk_timedelta, instant. cbn [days].
  set (D := toordinal a - toordinal b).
  set (sa := second a + minute a * 60 + hour a * 3600).
  set (sb := second b + minute b * 60 + hour b * 3600).
  replace ((toordinal a * 86400 + sa) * 1000000 + microsecond a
           - ((toordinal b * 86400 + sb) * 1000000 + microsecond b))
    with ((D * 86400 + (sa - sb)) * 1000000 + (microsecond a - microsecond b))
    by (subst D; ring).
  generalize (sa - sb) (microsecond a - microsecond b). intros S U.
  Z.div_mod_to_equations. lia.
Qed.

(** [(a - b).days >= 0] says that [a] is not strictly before [b]. *)
Lemma days_nonneg (a b : datetime) :
  (0 <=? days (minus a b)) = true ↔ ¬ strictly_before a b.
Proof.
  rewrite days_minus, Z.leb_le. unfold strictly_before.
  generalize (instant a) (instant b). intros x y.
  Z.div_mod_to_equations. lia.
Qed.

(** *** The timestamp that a formatted date shows *)

Lemma digit_value (n : Z) :
  (Z.of_nat (nat_of_ascii (digit n)) - 48 = n mod 10)%Z.
Proof.
  unfold digit. pose proof (Z.mod_pos_bound n 10 ltac:(lia)).
  rewrite nat_ascii_embedding by lia. lia.
Qed.

Lemma digit_decimal (n : Z) : Char.isdecimal (digit n) = true.
Proof.
  unfold Char.isdecimal, Char.between, Char.ord, digit.
  pose proof (Z.mod_pos_bound n 10 ltac:(lia)).
  rewrite nat_ascii_embedding by lia.
  apply andb_true_iff. split; apply Nat.leb_le; lia.
Qed.

Lemma number_pad2 (n : Z) : (0 ≤ n ≤ 99)%Z → number (pad2 n) = n.
Proof.
  intros H. unfold number, pad2. cbn [fold_left]. rewrite !digit_value.
  Z.div_mod_to_equations. lia.
Qed.

Lemma number_year (y : Z) : (1 ≤ y ≤ 9999)%Z → number (year_digits y) = y.
Proof.
  intros H. unfold year_digits.
  destruct (Z.ltb_spec y 10); [|destruct (Z.ltb_spec y 100);
    [|destruct (Z.ltb_spec y 1000)]];
    unfold number, pad2, pad4; cbn [fold_left]; rewrite !digit_value;
    Z.div_mod_to_equations; lia.
Qed.

Lemma year_decimal (y : Z) : Forall (λ a, Char.isdecimal a = true) (year_digits y).
Proof.
  unfold year_digits, pad2, pad4.
  repeat match goal with
         | |- context [if ?b then _ else _] => destruct b
         end; repeat constructor; apply digit_decimal.
Qed.

Lemma run_rest_digits (ds t : str) :
  Forall (λ a, Char.isdecimal a = true) ds →
  run Char.isdecimal (ds ++ "-"%char :: t) = ds
  ∧ rest Char.isdecimal (ds ++ "-"%char :: t) = "-"%char :: t.
Proof.
  induction 1 as [|a ds Ha _ [IH1 IH2]]; cbn [app run rest].
  - split; reflexivity.
  - rewrite Ha, IH1, IH2. split; reflexivity.
Qed.

(** Reading a formatted date back gives the date with its seconds
    dropped. *)
Lemma timestamp_of_strftime (d : datetime) :
  in_range d → timestamp_of (strftime d) = Some (to_the_minute d).
Proof.
  intros (Hy & Hm & Hd & Hh & Hn & _). unfold timestamp_of, strftime.
  change (list_ascii_of_string "-") with ["-"%char].
  change (list_ascii_of_string " ") with [" "%char].
  change (list_ascii_of_string ":") with [":"%char].
  cbn [app].
  destruct (run_rest_digits (year_digits (year d))
              (pad2 (month d) ++ "-"%char :: pad2 (day d) ++ " "%char
               :: pad2 (hour d) ++ ":"%char :: pad2 (minute d))
              (year_decimal (year d))) as [E1 E2].
  rewrite E1, E2. unfold pad2 at 1 2 3 4. cbn [app].
  fold (pad2 (month d)). fold (pad2 (day d)). fold (pad2 (hour d)).
  fold (pad2 (minute d)).
  rewrite number_year by exact Hy.
  rewrite !number_pad2 by lia. reflexivity.
Qed.

Lemma instant_to_the_minute (d : datetime) :
  in_range d → (instant d - 60000000 < instant (to_the_minute d))%Z.
Proof.
  intros (_ & _ & _ & _ & _ & Hs & Hu).
  unfold instant, to_the_minute, toordinal. cbn [year month day hour minute second microsecond].
  lia.
Qed.

End DatetimeFacts.

Section DeadlineFacts.

Variable nlp_spacy : str -> Doc.
Variable dateparser_parse : str -> datetime -> option datetime.
Variable clock : nat -> datetime.

Local Abbreviation of_ent := (deadline_of dateparser_parse clock).
Local Abbreviation loop := (deadline_loop dateparser_parse clock).
Local Abbreviation extract :=
  (extract_deadlines nlp_spacy dateparser_parse clock).
Local Abbreviation after_pre := (world_after dateparser_parse clock).

Lemma deadline_of_spec (text : str) (ent : Ent) (w : World) (s : str) :
  fst (of_ent text ent w) = Some s ↔
  label_in (label_ ent) date_labels = true
  ∧ ∃ d, dateparser_parse (ent_text ent) (clock (tick w)) = Some d
         ∧ s = strftime d
         ∧ deadline_rule text ent d (clock (S (tick w))).
Proof.
  unfold deadline_of, datetime_now, deadline_rule.
  fold date_labels. fold (window text ent).
  destruct (label_in (label_ ent) date_labels); cbn [tick ticked];
    [|split; [discriminate | intros [H _]; discriminate H]].
  destruct (dateparser_parse (ent_text ent) (clock (tick w))) as [d|];
    [|split; [discriminate | intros (_ & d & H & _); discriminate H]].
  pose proof (days_nonneg d (clock (S (tick w)))) as Hfut.
  destruct (any_in deadline_keywords (window text ent)) eqn:Hkw;
  destruct (0 <=? days (minus d (clock (S (tick w)))))%Z eqn:Hf;
  cbn [andb fst].
  - split.
    + intros [= <-]. split; [reflexivity|]. exists d.
      repeat split; auto. left. split; [reflexivity | apply Hfut; reflexivity].
    + intros (_ & d' & [= <-] & -> & _). reflexivity.
  - rewrite andb_false_r. cbn [andb fst]. split; [discriminate|].
    intros (_ & d' & [= <-] & _ & [[_ H]|(_ & H & _)]);
      apply Hfut in H; discriminate H.
  - destruct (bool_decide (label_ ent = ("DATE" : str))) eqn:Hl;
    destruct (days (minus d (clock (S (tick w)))) <=? 30)%Z eqn:H30;
    cbn [andb fst].
    + apply bool_decide_eq_true in Hl. apply Z.leb_le in H30. split.
      * intros [= <-]. split; [reflexivity|]. exists d.
        repeat split; auto. right. repeat split; auto. apply Hfut. reflexivity.
      * intros (_ & d' & [= <-] & -> & _). reflexivity.
    + apply Z.leb_gt in H30. split; [discriminate|].
      intros (_ & d' & [= <-] & _ & [[H _]|(_ & _ & H)]);
        [discriminate H | lia].
    + apply bool_decide_eq_false in Hl. split; [discriminate|].
      intros (_ & d' & [= <-] & _ & [[H _]|(H & _)]);
        [discriminate H | contradiction].
    + apply bool_decide_eq_false in Hl. split; [discriminate|].
      intros (_ & d' & [= <-] & _ & [[H _]|(H & _)]);
        [discriminate H | contradiction].
  - rewrite andb_false_r. cbn [andb fst]. split; [discriminate|].
    intros (_ & d' & [= <-] & _ & [[H _]|(_ & H & _)]);
      [discriminate H | apply Hfut in H; discriminate H].
Qed.

Lemma deadline_of_tick (text : str) (ent : Ent) (w : World) :
  tick w ≤ tick (snd (of_ent text ent w)).
Proof.
  unfold deadline_of, datetime_now.
  destruct (label_in _ _); cbn [snd]; [|lia].
  destruct (dateparser_parse _ _); cbn [snd tick ticked]; [|lia].
  repeat match goal with
         | |- context [if ?b then _ else _] => destruct b
         end; cbn [snd tick ticked]; lia.
Qed.

Lemma deadline_loop_acc (text : str) (es : list Ent) :
  ∀ acc w,
    loop text es acc w
    = (acc ++ fst (loop text es [] w),
       snd (loop text es [] w)).
Proof.
  induction es as [|ent es IH]; intros acc w; simpl.
  - rewrite app_nil_r. reflexivity.
  - destruct (of_ent text ent w) as [o w1].
    rewrite (IH (acc ++ option_list o)), (IH (option_list o)).
    cbn [fst snd]. rewrite app_assoc. reflexivity.
Qed.

Lemma world_after_snoc (text : str) (pre : list Ent) ent w :
  after_pre text (ent :: pre) w
  = after_pre text pre (snd (of_ent text ent w)).
Proof.
  unfold world_after. simpl. destruct (of_ent text ent w) as [o w1].
  rewrite deadline_loop_acc. reflexivity.
Qed.

Lemma world_after_tick (text : str) (pre : list Ent) :
  ∀ w, tick w ≤ tick (after_pre text pre w).
Proof.
  induction pre as [|ent pre IH]; intros w.
  - unfold world_after. simpl. lia.
  - rewrite world_after_snoc.
    pose proof (deadline_of_tick text ent w). pose proof (IH (snd (of_ent text ent w))).
    lia.
Qed.

Lemma deadline_loop_elem (text : str) (es : list Ent) :
  ∀ w s,
    s ∈ fst (loop text es [] w) ↔
    ∃ pre ent post,
      es = pre ++ ent :: post
      ∧ fst (of_ent text ent (after_pre text pre w)) = Some s.
Proof.
  induction es as [|e es IH]; intros w s.
  - simpl. split.
    + intros H. inversion H.
    + intros (pre & ent & post & H & _). destruct pre; discriminate H.
  - cbn [deadline_loop].
    destruct (of_ent text e w) as [o w1] eqn:Ho.
    rewrite deadline_loop_acc. cbn [fst]. rewrite app_nil_l, elem_of_app, IH.
    split.
    + intros [H|(pre & ent & post & -> & H)].
      * exists [], e, es. split; [reflexivity|].
        unfold world_after. simpl. rewrite Ho. simpl.
        destruct o; [|inversion H].
        apply list_elem_of_singleton in H. congruence.
      * exists (e :: pre), ent, post. split; [reflexivity|].
        rewrite world_after_snoc, Ho. exact H.
    + intros (pre & ent & post & E & H). destruct pre as [|e' pre].
      * injection E as <- <-. left. unfold world_after in H. simpl in H.
        rewrite Ho in H. simpl in H. rewrite H. apply list_elem_of_singleton.
        reflexivity.
      * injection E as <- ->. right. exists pre, ent, post.
        split; [reflexivity|]. rewrite world_after_snoc, Ho in H. exact H.
Qed.

Lemma extract_deadlines_fst (text : str) (w : World) :
  fst (extract text w)
  = elements (list_to_set
      (fst (loop text (ents (nlp_spacy text)) [] w)) : gset str).
Proof.
  unfold extract_deadlines.
  destruct (loop text (ents (nlp_spacy text)) [] w). reflexivity.
Qed.

Lemma extract_deadlines_elem (text : str) (w : World) (s : str) :
  s ∈ fst (extract text w) ↔
  ∃ pre ent post d,
    ents (nlp_spacy text) = pre ++ ent :: post
    ∧ label_in (label_ ent) date_labels = true
    ∧ dateparser_parse (ent_text ent) (clock (tick (after_pre text pre w)))
      = Some d
    ∧ s = strftime d
    ∧ deadline_rule text ent d (clock (S (tick (after_pre text pre w)))).
Proof.
  rewrite extract_deadlines_fst, elem_of_elements, elem_of_list_to_set,
    deadline_loop_elem.
  split.
  - intros (pre & ent & post & E & H). apply deadline_of_spec in H.
    destruct H as (Hl & d & Hd & Hs & Hr). exists pre, ent, post, d. auto.
  - intros (pre & ent & post & d & E & Hl & Hd & Hs & Hr).
    exists pre, ent, post. split; [exact E|]. apply deadline_of_spec.
    split; [exact Hl|]. exists d. auto.
Qed.


Lemma extract_deadlines_same_verdicts (text : str) (w1 w2 : World) :
  same_verdicts nlp_spacy dateparser_parse clock text w1 w2 →
  fst (extract text w1) = fst (extract text w2).
Proof.
  intros H. rewrite !extract_deadlines_fst. f_equal.
  apply set_eq. intros s. rewrite !elem_of_list_to_set, !deadline_loop_elem.
  split; intros (pre & ent & post & E & Hs); exists pre, ent, post;
    (split; [exact E|]); apply deadline_of_spec in Hs;
    destruct Hs as (Hl & d & Hd & -> & Hr); apply deadline_of_spec;
    (split; [exact Hl|]); exists d;
    destruct (H pre ent post E Hl) as [Ep Hv].
  - rewrite <- Ep. repeat split; [exact Hd | apply (Hv d Hd), Hr].
  - rewrite Ep. repeat split; [exact Hd|].
    rewrite <- Ep in Hd. apply (Hv d Hd), Hr.
Qed.


End DeadlineFacts.

(** ** The digest *)

Section DigestFacts.

Variable summarizer : str -> outcome (list (gmap str str)).

Lemma get_summary_fst (text : str) (w1 w2 : World) :
  fst (get_summary summarizer text w1) = fst (get_summary summarizer text w2).
Proof. unfold get_summary. destruct (strip text); reflexivity. Qed.

Lemma get_summary_tick (text : str) (w : World) :
  tick (snd (get_summary summarizer text w)) = tick w.
Proof. unfold get_summary. destruct (strip text); reflexivity. Qed.

End DigestFacts.

(** ** What a successful match looks like *)

Section Soundness.

Lemma orelse_Some (a b : mres) res :
  orelse a b = Some res → a = Some res ∨ b = Some res.
Proof. destruct a; simpl; auto. Qed.

Lemma rep_loop_sound r gr k (Hr : sound_at r) :
  ∀ fuel lo hi c g res, lo ≤ fuel →
    rep_loop (m r) gr k fuel lo hi c g = Some res →
    ∃ c1 g1, sem (Rep lo hi gr r) c g c1 g1 ∧ k c1 g1 = Some res.
Proof.
  induction fuel as [|f IH]; intros lo hi c g res Hlo H.
  - assert (lo = 0) as -> by lia. simpl in H.
    exists c, g. split; [constructor | exact H].
  - destruct lo as [|lo']; cbn [rep_loop] in H.
    + assert (Hstop : k c g = Some res →
                ∃ c1 g1, sem (Rep 0 hi gr r) c g c1 g1 ∧ k c1 g1 = Some res).
      { intros Hk. exists c, g. split; [constructor | exact Hk]. }
      assert (Hmore : m r c g (λ c1 g1,
                  if (length (after c1) <? length (after c))%nat
                  then rep_loop (m r) gr k f 0 (dec_hi hi) c1 g1 else None)
                = Some res →
                ∃ c1 g1, sem (Rep 0 hi gr r) c g c1 g1 ∧ k c1 g1 = Some res).
      { intros Hm. apply Hr in Hm as (c1 & g1 & Hs & Hk).
        destruct (length (after c1) <? length (after c))%nat; [|discriminate].
        apply IH in Hk as (c2 & g2 & Hs2 & Hk2); [|lia].
        exists c2, g2. split; [|exact Hk2].
        eapply sem_rep_step; [exact Hs | exact Hs2]. }
      destruct hi as [[|h]|]; [apply Hstop, H | |];
        destruct gr; apply orelse_Some in H as [H|H]; auto.
    + apply Hr in H as (c1 & g1 & Hs & Hk).
      apply IH in Hk as (c2 & g2 & Hs2 & Hk2); [|lia].
      exists c2, g2. split; [|exact Hk2].
      eapply sem_rep_step; [exact Hs | exact Hs2].
Qed.

Lemma m_sound (r : regex) : sound_at r.
Proof.
  induction r as [|p|r1 IH1 r2 IH2|r1 IH1 r2 IH2|lo hi gr r IH|n r IH| | |];
    intros c g k res H; cbn [m] in H.
  - exists c, g. split; [constructor | exact H].
  - destruct c as [bef [|a t]]; cbn [after before] in H; [discriminate|].
    destruct (p a) eqn:Ha; [|discriminate].
    eexists _, g. split; [constructor; exact Ha | exact H].
  - apply IH1 in H as (c1 & g1 & Hs1 & H). apply IH2 in H as (c2 & g2 & Hs2 & H).
    exists c2, g2. split; [econstructor; eassumption | exact H].
  - apply orelse_Some in H as [H|H].
    + apply IH1 in H as (c1 & g1 & Hs & H). exists c1, g1.
      split; [apply sem_alt_l, Hs | exact H].
    + apply IH2 in H as (c1 & g1 & Hs & H). exists c1, g1.
      split; [apply sem_alt_r, Hs | exact H].
  - apply (rep_loop_sound r gr k IH) in H; [exact H | lia].
  - apply IH in H as (c1 & g1 & Hs & H). eexists _, _.
    split; [apply sem_grp, Hs | exact H].
  - destruct (at_bol c) eqn:E; [|discriminate].
    exists c, g. split; [constructor; exact E | exact H].
  - destruct (at_eol c) eqn:E; [|discriminate].
    exists c, g. split; [constructor; exact E | exact H].
  - destruct (at_wordb c) eqn:E; [|discriminate].
    exists c, g. split; [constructor; exact E | exact H].
Qed.

Lemma match_at_sound r c ma res :
  match_at r c ma = Some res → sem r c [] (fst res) (snd res).
Proof.
  unfold match_at. intros H. apply m_sound in H as (c1 & g1 & Hs & H).
  destruct (ma && _); [discriminate|]. injection H as <-. exact Hs.
Qed.

(** The matcher only moves forward. *)
Lemma sem_forward r c g c' g' :
  sem r c g c' g' →
  ∃ s, after c = s ++ after c' ∧ before c' = rev s ++ before c.
Proof.
  induction 1 as [c g|p a bef t g Ha|r1 r2 c g c1 g1 c2 g2 _ IH1 _ IH2
                  |r1 r2 c g c' g' _ IH|r1 r2 c g c' g' _ IH
                  |hi gr r c g|lo hi gr r c g c1 g1 c2 g2 _ IH1 _ IH2
                  |n r c g c1 g1 _ IH|c g _|c g _|c g _];
    try (exists []; split; reflexivity); try exact IH.
  - exists [a]. split; reflexivity.
  - destruct IH1 as (s1 & E1 & F1), IH2 as (s2 & E2 & F2).
    exists (s1 ++ s2). rewrite E1, E2, F2, F1, rev_app_distr, !app_assoc.
    split; reflexivity.
  - destruct IH1 as (s1 & E1 & F1), IH2 as (s2 & E2 & F2).
    exists (s1 ++ s2). rewrite E1, E2, F2, F1, rev_app_distr, !app_assoc.
    split; reflexivity.
Qed.

Lemma sem_shorter r c g c' g' :
  sem r c g c' g' → length (after c') ≤ length (after c).
Proof.
  intros H. apply sem_forward in H as (s & E & _).
  rewrite E, length_app. lia.
Qed.

Lemma m_none r c g k : (∀ c1 g1, k c1 g1 = None) → m r c g k = None.
Proof.
  intros Hk. destruct (m r c g k) as [res|] eqn:E; [|reflexivity].
  apply m_sound in E as (c1 & g1 & _ & H). rewrite Hk in H. discriminate H.
Qed.

Lemma rep_loop_local r gr (Hr : local_at r) :
  ∀ fuel lo hi c g k k',
    (∀ c1 g1, length (after c1) ≤ length (after c) → k c1 g1 = k' c1 g1) →
    rep_loop (m r) gr k fuel lo hi c g = rep_loop (m r) gr k' fuel lo hi c g.
Proof.
  induction fuel as [|f IH]; intros lo hi c g k k' Hk; cbn [rep_loop].
  - apply Hk. lia.
  - destruct lo as [|lo'].
    + rewrite (Hk c g) by lia.
      destruct hi as [[|h]|]; [reflexivity | |]; cbv zeta;
        match goal with
        | |- context [orelse (m r c g ?K1) _] =>
            match goal with
            | |- _ = ?rhs =>
                match rhs with
                | context [orelse (m r c g ?K2) _] =>
                    assert (E : m r c g K1 = m r c g K2);
                    [|rewrite E; reflexivity]
                end
            end
        end;
        apply Hr; intros c1 g1 H1;
        (destruct (length (after c1) <? length (after c))%nat; [|reflexivity]);
        apply IH; intros c2 g2 H2; apply Hk; lia.
    + apply Hr. intros c1 g1 H1. apply IH. intros c2 g2 H2. apply Hk. lia.
Qed.

Lemma m_local (r : regex) : local_at r.
Proof.
  induction r as [|p|r1 IH1 r2 IH2|r1 IH1 r2 IH2|lo hi gr r IH|n r IH| | |];
    intros c g k k' Hk; cbn [m].
  - apply Hk. lia.
  - destruct c as [bef [|a t]]; cbn [after before] in *; [reflexivity|].
    destruct (p a); [|reflexivity]. apply Hk. cbn [after length]. lia.
  - apply IH1. intros c1 g1 H1. apply IH2. intros c2 g2 H2. apply Hk. lia.
  - rewrite (IH1 c g k k' Hk), (IH2 c g k k' Hk). reflexivity.
  - apply (rep_loop_local r gr IH). exact Hk.
  - apply IH. intros c1 g1 H1. apply Hk. exact H1.
  - destruct (at_bol c); [apply Hk; lia | reflexivity].
  - destruct (at_eol c); [apply Hk; lia | reflexivity].
  - destruct (at_wordb c); [apply Hk; lia | reflexivity].
Qed.

Lemma orelse_None_r (a : mres) : orelse a None = a.
Proof. destruct a; reflexivity. Qed.

Lemma rep_loop_end r gr k fuel hi c g :
  length (after c) = 0 → rep_loop (m r) gr k fuel 0 hi c g = k c g.
Proof.
  intros Hc. destruct fuel as [|f]; cbn [rep_loop]; [reflexivity|].
  destruct hi as [[|h]|]; [reflexivity | |];
    (rewrite m_none;
      [destruct gr; cbn [orelse]; [reflexivity | apply orelse_None_r]|]);
    intros c1 g1; rewrite Hc; reflexivity.
Qed.

(** The fuel of a repetition never runs out: any amount from [lo] plus
    the length of the text left gives the same result. *)
Lemma rep_loop_fuel r gr k :
  ∀ f1 f2 lo hi c g,
    lo + length (after c) ≤ f1 → lo + length (after c) ≤ f2 →
    rep_loop (m r) gr k f1 lo hi c g = rep_loop (m r) gr k f2 lo hi c g.
Proof.
  induction f1 as [|f1 IH]; intros f2 lo hi c g H1 H2.
  - assert (lo = 0) as -> by lia.
    rewrite (rep_loop_end r gr k f2) by lia. reflexivity.
  - destruct f2 as [|f2].
    { assert (lo = 0) as -> by lia.
      rewrite (rep_loop_end r gr k (S f1)) by lia. reflexivity. }
    cbn [rep_loop]. destruct lo as [|lo'].
    + destruct hi as [[|h]|]; [reflexivity | |]; cbv zeta;
        match goal with
        | |- context [orelse (m r c g ?K1) _] =>
            match goal with
            | |- _ = ?rhs =>
                match rhs with
                | context [orelse (m r c g ?K2) _] =>
                    assert (E : m r c g K1 = m r c g K2);
                    [|rewrite E; reflexivity]
                end
            end
        end;
        apply (m_local r); intros c1 g1 Hc1;
        (destruct (length (after c1) <? length (after c))%nat eqn:Hlt;
           [|reflexivity]);
        apply Nat.ltb_lt in Hlt; apply IH; lia.
    + apply (m_local r). intros c1 g1 Hc1. apply IH; lia.
Qed.

Lemma rep_fuel_enough r lo hi gr c g k n :
  m (Rep lo hi gr r) c g k
  = rep_loop (m r) gr k (lo + length (after c) + n) lo hi c g.
Proof. cbn [m]. apply rep_loop_fuel; lia. Qed.

Lemma consumed_app c c' (s : str) :
  after c = s ++ after c' → consumed c c' = s.
Proof.
  intros E. unfold consumed. rewrite E, length_app.
  replace (length s + length (after c') - length (after c'))%nat
    with (length s) by lia.
  apply take_app_length.
Qed.

Lemma sem_nogroups r c g c' g' :
  sem r c g c' g' → nogroups r = true → g' = g.
Proof.
  induction 1; cbn [nogroups]; intros Hn;
    try reflexivity; try discriminate;
    try (apply andb_true_iff in Hn as [Hn1 Hn2]); auto.
  - rewrite IHsem2, IHsem1; auto.
  - rewrite IHsem2, IHsem1; auto.
Qed.

(** Every match the scan reports is the result of an attempt. *)
Lemma scan_match r (aft : str) : ∀ bef skip mt,
  TMatch mt ∈ scan r bef aft skip →
  ∃ c, mt ∈ attempt r c.
Proof.
  induction aft as [|a t IH]; intros bef skip mt; destruct skip as [|n];
    cbn [scan].
  - rewrite app_nil_r, list_elem_of_fmap. intros (x & [= ->] & Hx). eauto.
  - intros H. inversion H.
  - rewrite elem_of_app, list_elem_of_fmap.
    intros [(x & [= ->] & Hx)|H]; [eauto|].
    destruct (last_len _).
    + apply elem_of_cons in H as [H|H]; [discriminate | exact (IH _ _ _ H)].
    + exact (IH _ _ _ H).
  - apply IH.
Qed.

Lemma attempt_match r c mt :
  mt ∈ attempt r c → ∃ ma res, match_at r c ma = Some res ∧ mt = mk_match c res.
Proof.
  unfold attempt. destruct (match_at r c false) as [res|] eqn:E1.
  - destruct (consumed c res.1).
    + destruct (match_at r c true) as [res'|] eqn:E2.
      * intros H. apply elem_of_cons in H as [->|H]; [eauto|].
        apply list_elem_of_singleton in H as ->. eauto.
      * intros H. apply list_elem_of_singleton in H as ->. eauto.
    + intros H. apply list_elem_of_singleton in H as ->. eauto.
  - intros H. inversion H.
Qed.

Lemma finditer_sem r (text : str) mt :
  mt ∈ finditer r text →
  ∃ c c' g, sem r c [] c' g ∧ mt = Match (consumed c c') g.
Proof.
  unfold finditer. rewrite list_elem_of_omap. intros (tk & Htk & Hm).
  destruct tk as [a|mt']; [discriminate|]. injection Hm as ->.
  apply scan_match in Htk as (c & Hc).
  apply attempt_match in Hc as (ma & [c' g] & Hm & ->).
  apply match_at_sound in Hm. exists c, c', g. split; [exact Hm | reflexivity].
Qed.

End Soundness.

(** ** Attachment Mention Detector *)

Section FilePattern.

Lemma pre_group_sem c g c1 g1 :
  sem pre_group c g c1 g1 → g1 = (1, consumed c c1) :: g.
Proof.
  unfold pre_group. intros H.
  inversion H as [| | | | | | |? ? ? ? ? g' HA| | |]; subst.
  apply sem_nogroups in HA as ->; reflexivity.
Qed.

Lemma post_group_sem c g c1 g1 :
  sem post_group c g c1 g1 → g1 = (4, consumed c c1) :: g.
Proof.
  unfold post_group. intros H.
  inversion H as [| | | | | | |? ? ? ? ? g' HA| | |]; subst.
  apply sem_nogroups in HA as ->; reflexivity.
Qed.

(** The filename: groups 2 and 3 hold the same text, it starts with a
    word character and ends at a word boundary. *)
Lemma name_group_sem c g c1 g1 :
  sem name_group c g c1 g1 →
  ∃ a t, g1 = [(2, a :: t); (3, a :: t)] ++ g
         ∧ Char.isword a = true
         ∧ after c = (a :: t) ++ after c1
         ∧ at_wordb c1 = true.
Proof.
  unfold name_group. cbn [seqs].
  set (ext := alts (map lit_i extensions)).
  assert (Hext : nogroups ext = true) by reflexivity.
  clearbody ext. intros H.
  inversion H as [| | | | | | |? ? ? ? ? g2 HB| | |]; subst; clear H.
  inversion HB as [| |? ? ? ? c3 g3 ? ? H5 H6| | | | | | | |]; subst; clear HB.
  inversion H6 as [| | | | | | | | | |? ? Hb]; subst; clear H6.
  inversion H5 as [| | | | | | |? ? ? ? ? g3' HW| | |]; subst; clear H5.
  pose proof (sem_nogroups _ _ _ _ _ HW ltac:(cbn; rewrite Hext; reflexivity)) as ->.
  inversion HW as [| |? ? ? ? cm gm ? ? H7 H8| | | | | | | |]; subst; clear HW.
  inversion H7 as [| | | | | |? ? ? ? ? ? cx gx ? ? H9 H10| | | |]; subst; clear H7.
  inversion H9 as [|? a bef t ? Ha| | | | | | | | |]; subst; clear H9.
  apply sem_forward in H10 as (s1 & E1 & _).
  apply sem_forward in H8 as (s2 & E2 & _).
  cbn [after] in E1.
  assert (E : after {| before := bef; after := a :: t |}
              = (a :: s1 ++ s2) ++ after c1).
  { cbn [after]. rewrite E1, E2. simpl. rewrite app_assoc. reflexivity. }
  exists a, (s1 ++ s2). rewrite (consumed_app _ _ _ E).
  repeat split; auto.
Qed.

(** In every match of [file_pattern] the four groups are set, groups 2
    and 3 hold the same text, and that text starts with a word
    character. *)
Lemma file_pattern_groups (text : str) mt :
  mt ∈ finditer file_pattern text →
  ∃ pre fn post a t,
    groups mt = [(4, post); (2, fn); (3, fn); (1, pre)]
    ∧ fn = a :: t ∧ Char.isword a = true.
Proof.
  intros H. apply finditer_sem in H as (c & c' & g & Hs & ->).
  unfold file_pattern in Hs. cbn [seqs] in Hs.
  inversion Hs as [| |? ? ? ? c1 g1 ? ? H1 H2| | | | | | | |]; subst; clear Hs.
  inversion H2 as [| |? ? ? ? c2 g2 ? ? H3 H4| | | | | | | |]; subst; clear H2.
  apply pre_group_sem in H1 as ->.
  apply name_group_sem in H3 as (a & t & -> & Ha & _ & _).
  apply post_group_sem in H4 as ->.
  exists (consumed c c1), (a :: t), (consumed c2 c'), a, t.
  repeat split; auto.
Qed.

Lemma rep_lazy_stop body k fuel hi c g res :
  k c g = Some res → rep_loop body false k fuel 0 hi c g = Some res.
Proof.
  intros H. destruct fuel as [|f]; cbn [rep_loop]; [exact H|].
  destruct hi as [[|h]|]; rewrite H; reflexivity.
Qed.

(** Group 4 starts at the word boundary that ends group 2 and takes as
    few characters as it can: it is empty in every match. *)
Lemma file_pattern_post_empty (text : str) mt :
  mt ∈ finditer file_pattern text → group mt 4 = Some [].
Proof.
  unfold finditer. rewrite list_elem_of_omap. intros (tk & Htk & Hm).
  destruct tk as [x|mt']; [discriminate|]. injection Hm as ->.
  apply scan_match in Htk as (c & Hc).
  apply attempt_match in Hc as (ma & res & Hm & ->).
  unfold match_at, file_pattern in Hm. cbn [seqs] in Hm.
  remember pre_group as G1. remember name_group as G2.
  remember post_group as G4. cbn [m] in Hm. subst G1 G2.
  apply m_sound in Hm as (c1 & g1 & Hs1 & Hm).
  apply m_sound in Hm as (c2 & g2 & Hs2 & Hm).
  apply sem_shorter in Hs1.
  apply name_group_sem in Hs2 as (a & t & _ & _ & E & Hb).
  assert (Hlt : length (after c2) < length (after c)).
  { rewrite E, length_app in Hs1. cbn [length] in Hs1. lia. }
  subst G4. unfold post_group in Hm. cbn [m] in Hm.
  rewrite (rep_lazy_stop _ _ _ _ _ _
             (c2, (4, consumed c2 c2) :: g2)) in Hm.
  - injection Hm as <-. unfold group, mk_match. cbn [groups snd assoc].
    unfold consumed. rewrite Nat.sub_diag. reflexivity.
  - cbn [m]. rewrite Hb.
    replace (length (after c2) =? length (after c))%nat with false
      by (symmetry; apply Nat.eqb_neq; lia).
    rewrite andb_false_r. reflexivity.
Qed.

End FilePattern.

Section AttachmentFacts.

Variable nlp_spacy : str -> Doc.

Lemma startswith_app (p s : str) : startswith s p = true → ∃ v, s = p ++ v.
Proof.
  revert s. induction p as [|b p IH]; intros s; simpl.
  - intros _. exists s. reflexivity.
  - destruct s as [|a s]; [discriminate|].
    intros H. apply andb_true_iff in H as [Hab Hs].
    apply Ascii.eqb_eq in Hab as ->. destruct (IH _ Hs) as (v & ->).
    exists v. reflexivity.
Qed.

Lemma contains_app (s sub : str) :
  contains s sub = true → ∃ u v, s = u ++ sub ++ v.
Proof.
  induction s as [|a s IH]; cbn [contains]; rewrite orb_true_iff.
  - intros [H|H]; [|discriminate]. apply startswith_app in H as (v & ->).
    exists [], v. reflexivity.
  - intros [H|H].
    + apply startswith_app in H as (v & ->). exists [], v. reflexivity.
    + destruct (IH H) as (u & v & ->). exists (a :: u), v. reflexivity.
Qed.

Lemma space_lower_not_word (x : ascii) :
  Char.isspace x = true → Char.isword (Char.lower x) = false.
Proof.
  destruct x as [[] [] [] [] [] [] [] []]; vm_compute; congruence.
Qed.

Lemma word_lower_word (a : ascii) :
  Char.isword a = true → Char.isword (Char.lower a) = true.
Proof.
  destruct a as [[] [] [] [] [] [] [] []]; vm_compute; congruence.
Qed.

Lemma lstrip_nil (s : str) :
  lstrip s = [] → Forall (λ a, Char.isspace a = true) s.
Proof.
  induction s as [|a s IH]; simpl; [constructor|].
  destruct (Char.isspace a) eqn:Ha; [|discriminate].
  intros H. constructor; auto.
Qed.

Lemma strip_nil (s : str) :
  strip s = [] → Forall (λ a, Char.isspace a = true) s.
Proof.
  unfold strip, rstrip. intros H.
  apply (f_equal (@rev ascii)) in H. rewrite rev_involutive in H. simpl in H.
  apply lstrip_nil in H. destruct (lstrip_suffix s) as (u & E & Hu).
  rewrite E. apply Forall_app. split; [exact Hu|].
  rewrite Forall_forall in *. intros x Hx. apply H.
  apply list_elem_of_In, in_rev. rewrite rev_involutive.
  apply list_elem_of_In, Hx.
Qed.

Lemma mentions_nonblank (a : ascii) (t : str) (sent : Sent) :
  Char.isword a = true → mentions (a :: t) sent = true →
  strip (sent_text sent) ≠ [].
Proof.
  intros Ha Hm Hs. apply strip_nil in Hs. unfold mentions in Hm.
  apply contains_app in Hm as (u & v & E).
  assert (Hin : In (Char.lower a) (lower (sent_text sent))).
  { rewrite E. apply in_or_app. right. left. reflexivity. }
  unfold lower in Hin. apply in_map_iff in Hin as (x & Hx & Hxin).
  rewrite Forall_forall in Hs. apply list_elem_of_In, Hs in Hxin.
  apply space_lower_not_word in Hxin. apply word_lower_word in Ha.
  congruence.
Qed.

Lemma full_sentence_first (filename : str) (ss : list Sent) (sent : Sent) :
  first_mentioning filename ss sent →
  full_sentence_of filename ss = strip (sent_text sent).
Proof.
  intros (pre & post & -> & Hm & Hpre). fold (mentions filename sent) in *.
  induction pre as [|s' pre IH]; simpl.
  - unfold mentions in Hm. rewrite Hm. reflexivity.
  - fold (mentions filename s'). rewrite (Hpre s') by (apply elem_of_cons; auto).
    apply IH. intros s'' H. apply Hpre, elem_of_cons. auto.
Qed.

Lemma attachment_of_groups (doc : Doc) mt (pre fn post : str) :
  groups mt = [(4, post); (2, fn); (3, fn); (1, pre)] →
  attachment_of doc mt = Returns (fn, context_of doc pre fn fn).
Proof.
  intros Hg. unfold attachment_of, group. rewrite Hg. reflexivity.
Qed.

(** What the loop body does on every match: the text taken for
    [post_context] is the filename again, and the text after the
    filename (group 4, always empty) is not read. *)
Lemma post_context_is_filename (doc : Doc) (text : str) mt :
  mt ∈ finditer file_pattern text →
  ∃ pre fn,
    group mt 2 = Some fn ∧ group mt 3 = Some fn ∧ group mt 4 = Some []
    ∧ attachment_of doc mt = Returns (fn, context_of doc pre fn fn).
Proof.
  intros H. pose proof (file_pattern_post_empty text mt H) as H4.
  apply file_pattern_groups in H as (pre & fn & post & a & t & Hg & _ & _).
  exists pre, fn. rewrite (attachment_of_groups doc mt pre fn post Hg).
  unfold group in *. rewrite Hg in *. cbn [assoc Nat.eqb] in *.
  repeat split; auto.
Qed.

Lemma context_of_first (doc : Doc) (g1 g3 : str) (a : ascii) (t : str) sent :
  Char.isword a = true →
  first_mentioning (a :: t) (sents doc) sent →
  context_of doc g1 g3 (a :: t)
  = strip (sub Pat.spaces " " (strip (sent_text sent))).
Proof.
  intros Ha Hf. unfold context_of.
  rewrite (full_sentence_first _ _ _ Hf).
  destruct Hf as (_ & _ & _ & Hm & _).
  pose proof (mentions_nonblank a t sent Ha Hm) as Hne.
  destruct (strip (sent_text sent)) as [|b u] eqn:E; [contradiction|].
  rewrite bool_decide_eq_false_2 by discriminate.
  rewrite andb_false_r. reflexivity.
Qed.

Lemma attachment_loop_spec (doc : Doc) (ms : list rmatch) :
  (∀ mt, mt ∈ ms → ∃ p, attachment_of doc mt = Returns p) →
  ∀ acc, ∃ l,
    attachment_loop doc ms acc = Returns (acc ++ l)
    ∧ ∀ p, p ∈ l ↔ ∃ mt, mt ∈ ms ∧ attachment_of doc mt = Returns p.
Proof.
  induction ms as [|mt ms IH]; intros Hall acc; simpl.
  - exists []. rewrite app_nil_r. split; [reflexivity|].
    intros p. split; [intros H; inversion H|].
    intros (mt & H & _). inversion H.
  - destruct (Hall mt ltac:(apply elem_of_cons; auto)) as (p0 & Hp0).
    rewrite Hp0. cbn [bind].
    destruct (IH ltac:(intros x Hx; apply Hall, elem_of_cons; auto)
                 (acc ++ [p0])) as (l & El & Hl).
    exists (p0 :: l). rewrite El, <- app_assoc. split; [reflexivity|].
    intros p. rewrite elem_of_cons, Hl. split.
    + intros [->|(x & Hx & Hp)].
      * exists mt. split; [apply elem_of_cons; auto | exact Hp0].
      * exists x. split; [apply elem_of_cons; auto | exact Hp].
    + intros (x & Hx & Hp). apply elem_of_cons in Hx as [->|Hx].
      * left. congruence.
      * right. eauto.
Qed.

(** The detector returns on every text; its result holds no pair twice
    and holds exactly the pairs computed for the matches. *)
Lemma detect_attachments_spec (text : str) :
  ∃ l, detect_attachments_with_context nlp_spacy text = Returns l
       ∧ NoDup l
       ∧ ∀ p, p ∈ l ↔
           ∃ mt, mt ∈ finditer file_pattern text
                 ∧ attachment_of (nlp_spacy text) mt = Returns p.
Proof.
  unfold detect_attachments_with_context.
  destruct (attachment_loop_spec (nlp_spacy text) (finditer file_pattern text))
    with (acc := @nil (str * str)) as (l & El & Hl).
  { intros mt Hmt.
    apply file_pattern_groups in Hmt as (pre & fn & post & a & t & Hg & _).
    eexists. apply (attachment_of_groups _ _ _ _ _ Hg). }
  rewrite El. cbn [bind app]. eexists. split; [reflexivity|].
  split; [apply NoDup_elements|].
  intros p. rewrite elem_of_elements, elem_of_list_to_set. apply Hl.
Qed.

(** C10.  Every match of a filename that some sentence mentions gets as
    context the first sentence of the text that mentions the filename
    without regard to case, trimmed and with runs of whitespace
    collapsed, whichever occurrence was matched; so the result holds
    exactly one pair for that filename. *)
Theorem attachment_context_first_sentence (text : str) :
  ∃ l, detect_attachments_with_context nlp_spacy text = Returns l
  ∧ NoDup l
  ∧ ∀ mt fn sent,
      mt ∈ finditer file_pattern text →
      group mt 2 = Some fn →
      first_mentioning fn (sents (nlp_spacy text)) sent →
      let ctx := strip (sub Pat.spaces " " (strip (sent_text sent))) in
      attachment_of (nlp_spacy text) mt = Returns (fn, ctx)
      ∧ ∀ p, (p ∈ l ∧ fst p = fn) ↔ p = (fn, ctx).
Proof.
  destruct (detect_attachments_spec text) as (l & El & Hnd & Hl).
  exists l. split; [exact El|]. split; [exact Hnd|].
  intros mt fn sent Hmt Hfn Hfirst ctx.
  assert (Hone : ∀ mt' fn', mt' ∈ finditer file_pattern text →
            group mt' 2 = Some fn' → fn' = fn →
            attachment_of (nlp_spacy text) mt' = Returns (fn, ctx)).
  { intros mt' fn' Hmt' Hfn' ->.
    pose proof Hmt' as Hg.
    apply file_pattern_groups in Hg as (pre & f & post & a & t & Hg & -> & Ha).
    assert (fn = a :: t) as ->.
    { unfold group in Hfn'. rewrite Hg in Hfn'. simpl in Hfn'. congruence. }
    rewrite (attachment_of_groups _ _ _ _ _ Hg).
    rewrite (context_of_first _ _ _ _ _ sent Ha Hfirst). reflexivity. }
  split; [exact (Hone mt fn Hmt Hfn eq_refl)|].
  intros p. split.
  - intros [Hp Hfst]. apply Hl in Hp as (mt' & Hmt' & Hp).
    pose proof Hmt' as Hg.
    apply file_pattern_groups in Hg as (pre & f & post & a & t & Hg & -> & Ha).
    rewrite (attachment_of_groups _ _ _ _ _ Hg) in Hp. injection Hp as <-.
    cbn [fst] in Hfst. subst fn.
    specialize (Hone mt' (a :: t) Hmt').
    rewrite (attachment_of_groups _ _ _ _ _ Hg) in Hone.
    assert (E : group mt' 2 = Some (a :: t))
      by (unfold group; rewrite Hg; reflexivity).
    specialize (Hone E eq_refl). injection Hone as ->. reflexivity.
  - intros ->. split; [|reflexivity]. apply Hl. exists mt.
    split; [exact Hmt | exact (Hone mt fn Hmt Hfn eq_refl)].
Qed.

End AttachmentFacts.

(** ** Concrete runs: refutations, witnesses and the failing input *)





(** C8, the failing input.  No sentence holds the filename; the context
    is the text before the filename and the filename twice, the text
    after the filename is dropped, and a filename with nothing around it
    gets a context of 18 characters where the rule for fewer than 10
    characters should give the empty one. *)
Theorem fallback_context_repeats_filename :
  detect_attachments_with_context
    (Scenario.segmenter ["Read report."; "PDF now"]%string)
    ("Read report.PDF now" : str)
  = Returns [("report.PDF" : str, "Read**report.PDF****report.PDF**" : str)]
  ∧ detect_attachments_with_context
      (Scenario.segmenter ["x."; "PDF"]%string) ("x.PDF" : str)
    = Returns [("x.PDF" : str, "**x.PDF****x.PDF**" : str)].
Proof. split; vm_compute; reflexivity. Qed.

(** A filename in two sentences: one pair, with the first sentence. *)
Lemma attachment_context_first_sentence_witness :
  let text : str := "First a.pdf is here. Then a.pdf again." in
  let nlp := Scenario.segmenter ["First a.pdf is here."; "Then a.pdf again."]%string in
  ∃ l, detect_attachments_with_context nlp text = Returns l
       ∧ ∀ p, (p ∈ l ∧ fst p = ("a.pdf" : str))
              ↔ p = ("a.pdf" : str, "First a.pdf is here." : str).
Proof.
  intros text nlp.
  destruct (attachment_context_first_sentence nlp text) as (l & El & _ & H).
  exists l. split; [exact El|].
  set (mt := Match ("First a.pdf" : str)
               [(4, [] : str); (2, "a.pdf" : str); (3, "a.pdf" : str);
                (1, "First " : str)]).
  destruct (H mt ("a.pdf" : str) (Scenario.mk_sent "First a.pdf is here.")) as [_ Hp].
  - apply list_elem_of_In. vm_compute. left. reflexivity.
  - reflexivity.
  - exists [], [Scenario.mk_sent "Then a.pdf again."].
    split; [reflexivity|]. split; [vm_compute; reflexivity|].
    intros s' Hs'. inversion Hs'.
  - exact Hp.
Defined.

(** ** The scenarios of the specification on the model *)

Example scenario_report_deadline :
  fst (extract_deadlines Runs.nlp Runs.parse (fun _ => Runs.dec1)
         Runs.report_text Runs.w0)
  = [("2025-12-05 00:00" : str)].
Proof. vm_compute. reflexivity. Qed.

Example scenario_report_key_point :
  extract_key_points_and_actions Runs.nlp Runs.report_text
  = [Runs.report_text].
Proof. vm_compute. reflexivity. Qed.

Example scenario_invoice :
  detect_attachments_with_context
    (Scenario.segmenter ["See attached invoice.pdf for details."]%string)
    ("See attached invoice.pdf for details." : str)
  = Returns [("invoice.pdf" : str,
              "See attached invoice.pdf for details." : str)].
Proof. vm_compute. reflexivity. Qed.

Example scenario_empty :
  compute_digest Runs.summarize Runs.nlp Runs.parse_naive (fun _ => Runs.dec1)
    [] Runs.w0
  = (Returns {| summary := "No content to summarize.";
                key_points := []; deadlines := []; attachments := [] |},
     Runs.w0).
Proof. vm_compute. reflexivity. Qed.

(** A text that names a time of day with its time zone: no Digest. *)
Example scenario_time_zone :
  fst (compute_digest Runs.summarize Runs.call_nlp Runs.call_parse
         (fun _ => Runs.dec1) Runs.call_text Runs.w0)
  = Raises (Exception "TypeError").
Proof. vm_compute. reflexivity. Qed.

(** The second cleaning of the text behind C7, step by step. *)
Example view_group_twice :
  clean_email_text ("View  Group" : str) = ("View Group" : str)
  ∧ clean_email_text ("View Group" : str) = [].
Proof. split; vm_compute; reflexivity. Qed.

(** * Further properties of the code *)

(** ** Patterns and the characters of the subject *)

Section Alphabet.

Variable Q : ascii -> bool.

Lemma in_all_ascii (a : ascii) : In a all_ascii.
Proof.
  unfold all_ascii. rewrite <- (ascii_nat_embedding a).
  apply in_map, in_seq. pose proof (nat_ascii_bounded a). lia.
Qed.

Lemma sem_eats r c g c' g' :
  sem r c g c' g' → Forall (λ a, Q a = true) (after c) → eats Q r = true.
Proof.
  induction 1 as [c g|p a bef t g Ha|r1 r2 c g c1 g1 c2 g2 H1 IH1 H2 IH2
                  |r1 r2 c g c' g' _ IH|r1 r2 c g c' g' _ IH
                  |hi gr r c g|lo hi gr r c g c1 g1 c2 g2 _ IH1 _ IH2
                  |n r c g c1 g1 _ IH|c g _|c g _|c g _];
    intros HQ; cbn [eats]; try reflexivity; auto.
  - apply existsb_exists. exists a. split; [apply in_all_ascii|].
    cbn [after] in HQ. inversion HQ; subst. rewrite Ha. assumption.
  - rewrite (IH1 HQ). apply IH2.
    apply sem_forward in H1 as (s & E & _). rewrite E in HQ.
    apply Forall_app in HQ as [_ HQ]. exact HQ.
  - rewrite (IH HQ). reflexivity.
  - rewrite (IH HQ). apply orb_true_r.
  - rewrite (IH1 HQ). apply orb_true_r.
Qed.

Variable r : regex.
Hypothesis r_starved : eats Q r = false.

Lemma attempt_eats bef (aft : str) :
  Forall (λ a, Q a = true) aft → attempt r (Cursor bef aft) = [].
Proof.
  intros HQ. unfold attempt.
  destruct (match_at r (Cursor bef aft) false) as [res|] eqn:E; [|reflexivity].
  apply match_at_sound, sem_eats in E; [|exact HQ]. congruence.
Qed.

Lemma scan_eats (aft : str) : ∀ bef,
  Forall (λ a, Q a = true) aft → scan r bef aft 0 = map TChar aft.
Proof.
  induction aft as [|a t IH]; intros bef HQ; cbn [scan];
    rewrite (attempt_eats _ _ HQ); [reflexivity|].
  cbn [map app last_len last]. f_equal. apply IH.
  inversion HQ; assumption.
Qed.

(** In a text without a character the pattern needs, [re.sub] changes
    nothing and [re.finditer] finds nothing. *)
Lemma sub_eats repl (text : str) :
  Forall (λ a, Q a = true) text → sub r repl text = text.
Proof. intros HQ. unfold sub. rewrite (scan_eats _ _ HQ). apply emit_chars. Qed.

Lemma finditer_eats (text : str) :
  Forall (λ a, Q a = true) text → finditer r text = [].
Proof.
  intros HQ. unfold finditer. rewrite (scan_eats _ _ HQ).
  induction text as [|a t IH]; [reflexivity|]. cbn. apply IH.
  inversion HQ; assumption.
Qed.

End Alphabet.

(** ** More on the Text Cleaner *)

Section CleanerMore.

Ltac in_patterns :=
  unfold removal_patterns; repeat first [left; reflexivity | right].

Lemma lstrip_blank (s : str) :
  Forall (λ a, Char.isspace a = true) s → lstrip s = [].
Proof.
  induction 1 as [|a t Ha _ IH]; simpl; [reflexivity|]. rewrite Ha. exact IH.
Qed.

Lemma strip_blank (s : str) :
  Forall (λ a, Char.isspace a = true) s → strip s = [].
Proof. intros H. unfold strip. rewrite (lstrip_blank s H). reflexivity. Qed.

Lemma squeeze_blank (s : str) b :
  Forall (λ a, Char.isspace a = true) s →
  Forall (λ a, Char.isspace a = true) (squeeze Char.isspace [Char.space] b s).
Proof.
  intros H. revert b. induction H as [|a t Ha _ IH]; intros b; simpl.
  - constructor.
  - rewrite Ha. destruct b; simpl; [apply IH|].
    constructor; [reflexivity | apply IH].
Qed.

Lemma removal_patterns_need_ink :
  forallb (fun r => negb (eats Char.isspace r)) removal_patterns = true.
Proof. vm_compute. reflexivity. Qed.

Lemma removal_pattern_blank r repl (x : str) :
  In r removal_patterns → Forall (λ a, Char.isspace a = true) x →
  sub r repl x = x.
Proof.
  intros Hr Hx. apply (sub_eats Char.isspace r); [|exact Hx].
  pose proof removal_patterns_need_ink as H. rewrite forallb_forall in H.
  apply negb_true_iff, H, Hr.
Qed.

(** X1.  A text of whitespace only, the empty text among them, is
    cleaned to the empty text, and [get_summary] of the result is the
    sentence for no content, with no call of the model. *)
Theorem clean_blank_is_empty (x : str) :
  Forall (λ a, Char.isspace a = true) x →
  clean_email_text x = []
  ∧ ∀ summarizer w,
      get_summary summarizer (clean_email_text x) w
      = (Returns ("No content to summarize." : str), w).
Proof.
  intros Hx.
  assert (E : clean_email_text x = []).
  { unfold clean_email_text. cbv zeta.
    repeat (rewrite (removal_pattern_blank _ _ x)
              by (first [exact Hx | in_patterns])).
    rewrite spaces_squeeze, strip_blank by (apply squeeze_blank, Hx).
    reflexivity. }
  split; [exact E|]. intros summarizer w. rewrite E. reflexivity.
Qed.

(** Three kinds of blank text. *)
Lemma clean_blank_is_empty_witness :
  clean_email_text [] = []
  ∧ clean_email_text [Char.space; Char.nl; Char.tab; Char.nl] = [].
Proof.
  split.
  - apply (clean_blank_is_empty []). constructor.
  - apply (clean_blank_is_empty [Char.space; Char.nl; Char.tab; Char.nl]).
    repeat constructor.
Defined.

(** X2.  A text in which no pattern of steps 1 to 4 is found comes out
    with its whitespace normalised and nothing else changed. *)
Theorem clean_settled_only_whitespace (x : str) :
  settled x = true → clean_email_text x = normalize_space x.
Proof.
  intros Hs. unfold clean_email_text, normalize_space. cbv zeta.
  repeat (rewrite (sub_no_match _ _ x)
            by (apply settled_search; [exact Hs | in_patterns])).
  destruct (whitespace_step x) as [E _]. rewrite E.
  rewrite spaces_squeeze. reflexivity.
Qed.

Lemma clean_settled_only_whitespace_witness :
  let x : str := "  Meeting   moved to  room 4,  see you there. " in
  settled x = true
  ∧ clean_email_text x = ("Meeting moved to room 4, see you there." : str).
Proof.
  intros x. split; [vm_compute; reflexivity|].
  rewrite (clean_settled_only_whitespace x) by (vm_compute; reflexivity).
  vm_compute. reflexivity.
Defined.

(** X3.  The cleaner invents no character: every character of the
    result occurs in the input or is a space. *)
Theorem clean_no_new_characters (x : str) (a : ascii) :
  a ∈ clean_email_text x → a ∈ x ∨ a = Char.space.
Proof.
  unfold clean_email_text. cbv zeta.
  match goal with
  | |- context [sub Pat.spaces _ ?u] =>
      destruct (whitespace_step u) as [E _]; rewrite E
  end.
  intros H. apply strip_elem in H.
  repeat (apply sub_chars in H as [H|H];
          [|first [ apply elem_of_cons in H as [H|H];
                    [right; exact H | inversion H]
                  | inversion H ]]).
  left. exact H.
Qed.

Lemma clean_no_new_characters_witness :
  ("k"%char : ascii) ∈ Scenario.ex_html ∨ "k"%char = Char.space.
Proof.
  apply (clean_no_new_characters Scenario.ex_html).
  apply list_elem_of_In. vm_compute. tauto.
Defined.

End CleanerMore.

(** ** The length of a substitution *)

Section Lengths.

Lemma sem_minlen r c g c' g' :
  sem r c g c' g' → minlen r + length (after c') ≤ length (after c).
Proof.
  induction 1; cbn [minlen after length] in *; try lia.
  destruct lo; cbn [pred] in *; nia.
Qed.

Variable r : regex.
Variable repl : str.
Hypothesis r_takes : 1 ≤ minlen r.
Hypothesis repl_short : length repl ≤ minlen r.

(** A pattern that cannot match the empty text gives at most one match
    at a position. *)
Lemma attempt_minlen c :
  attempt r c = []
  ∨ ∃ mt, attempt r c = [mt]
          ∧ minlen r ≤ length (group0 mt) ∧ length (group0 mt) ≤ length (after c).
Proof.
  unfold attempt.
  destruct (match_at r c false) as [res|] eqn:E; [|left; reflexivity].
  right. apply match_at_sound in E.
  pose proof (sem_minlen _ _ _ _ _ E) as Hm.
  apply sem_forward in E as (s & Es & _).
  rewrite (consumed_app _ _ _ Es).
  assert (Hs : minlen r ≤ length s ∧ length s ≤ length (after c)).
  { rewrite Es, length_app in *. lia. }
  destruct s as [|a s]; [simpl in Hs; lia|].
  exists (mk_match c res). split; [reflexivity|].
  unfold mk_match. cbn [group0]. rewrite (consumed_app _ _ _ Es). exact Hs.
Qed.

Lemma scan_length (aft : str) : ∀ bef skip,
  length (flat_map (emit repl) (scan r bef aft skip)) + Nat.min skip (length aft)
  ≤ length aft.
Proof.
  induction aft as [|a t IH]; intros bef skip; destruct skip as [|n];
    cbn [scan].
  - destruct (attempt_minlen (Cursor bef [])) as [->|(mt & -> & H1 & H2)];
      [simpl; lia | cbn [after length] in H2; lia].
  - simpl. lia.
  - destruct (attempt_minlen (Cursor bef (a :: t))) as [->|(mt & -> & H1 & H2)].
    + cbn [map app last_len last flat_map emit length Nat.min].
      specialize (IH (a :: bef) 0). cbn [Nat.min] in IH. lia.
    + cbn [map app last_len last after length] in *.
      destruct (length (group0 mt)) as [|d] eqn:Ed; [lia|].
      cbn [flat_map emit]. rewrite length_app.
      specialize (IH (a :: bef) d). lia.
  - specialize (IH (a :: bef) n). cbn [length Nat.min]. lia.
Qed.

Lemma sub_length (text : str) : length (sub r repl text) ≤ length text.
Proof. pose proof (scan_length text [] 0). unfold sub. simpl in *. lia. Qed.

End Lengths.

Lemma strip_length (s : str) : length (strip s) ≤ length s.
Proof.
  destruct (strip_infix s) as (u & v & E). rewrite E at 2.
  rewrite !length_app. lia.
Qed.

(** X4.  The cleaner never lengthens a text. *)
Theorem clean_never_longer (x : str) :
  length (clean_email_text x) ≤ length x.
Proof.
  unfold clean_email_text. cbv zeta.
  repeat match goal with
         | |- length (sub ?r ?repl ?t) ≤ _ =>
             transitivity (length t);
             [apply sub_length; vm_compute; lia|]
         | |- length (strip ?t) ≤ _ =>
             transitivity (length t); [apply strip_length|]
         end.
  reflexivity.
Qed.


(** ** The shape of a reported filename *)

Section FilenameShape.

(** Every match of a scan starts at a position of the subject. *)
Lemma scan_match_at r (aft : str) : ∀ bef skip mt,
  TMatch mt ∈ scan r bef aft skip →
  ∃ c, mt ∈ attempt r c ∧ rev (before c) ++ after c = rev bef ++ aft.
Proof.
  induction aft as [|a t IH]; intros bef skip mt.
  - destruct skip as [|n]; cbn [scan].
    + rewrite app_nil_r, list_elem_of_fmap. intros (x & [= ->] & Hx).
      exists (Cursor bef []). split; [exact Hx | reflexivity].
    + intros H. inversion H.
  - assert (Hstep : ∀ k, TMatch mt ∈ scan r (a :: bef) t k →
              ∃ c, mt ∈ attempt r c
                   ∧ rev (before c) ++ after c = rev bef ++ a :: t).
    { intros k Hk. destruct (IH _ _ _ Hk) as (c & Hc & E).
      exists c. split; [exact Hc|]. rewrite E. cbn [rev].
      rewrite <- app_assoc. reflexivity. }
    destruct skip as [|n]; cbn [scan]; [|apply Hstep].
    rewrite elem_of_app, list_elem_of_fmap.
    intros [(x & [= ->] & Hx)|H].
    + exists (Cursor bef (a :: t)). split; [exact Hx | reflexivity].
    + destruct (last_len _).
      * apply elem_of_cons in H as [H|H]; [discriminate | eauto].
      * eauto.
Qed.

Lemma finditer_sem_at r (text : str) mt :
  mt ∈ finditer r text →
  ∃ c c' g, sem r c [] c' g ∧ mt = Match (consumed c c') g
            ∧ rev (before c) ++ after c = text.
Proof.
  unfold finditer. rewrite list_elem_of_omap. intros (tk & Htk & Hm).
  destruct tk as [a|mt']; [discriminate|]. injection Hm as ->.
  apply scan_match_at in Htk as (c & Hc & E).
  apply attempt_match in Hc as (ma & [c' g] & Hm & ->).
  apply match_at_sound in Hm. exists c, c', g.
  split; [exact Hm|]. split; [reflexivity | exact E].
Qed.

(** A repetition of one character class reads characters of the class. *)
Lemma sem_rep_chr p lo hi gr c g c' g' :
  sem (Rep lo hi gr (Chr p)) c g c' g' →
  ∃ s, after c = s ++ after c'
       ∧ Forall (λ a, p a = true) s ∧ lo ≤ length s.
Proof.
  intros H. remember (Rep lo hi gr (Chr p)) as r eqn:Er.
  revert lo hi Er.
  induction H as [| | | | |hi0 gr0 r0 c g
                  |lo0 hi0 gr0 r0 c g c1 g1 c2 g2 H1 _ _ IH2| | | |];
    intros lo hi Er; try discriminate.
  - injection Er as <- _ _ _. exists []. repeat split; [constructor | simpl; lia].
  - injection Er as -> -> -> ->.
    destruct (IH2 _ _ eq_refl) as (s & E & F & L).
    inversion H1 as [|? a bef t ? Ha| | | | | | | | |]; subst.
    cbn [after] in *. exists (a :: s). rewrite E.
    repeat split; [constructor; assumption | simpl; lia].
Qed.

(** A literal under IGNORECASE reads the literal up to case. *)
Lemma sem_lit_i (x : str) : ∀ c g c' g',
  sem (lit_i x) c g c' g' →
  ∃ e, after c = e ++ after c' ∧ lower e = lower x.
Proof.
  unfold lit_i.
  induction x as [|a x IH]; intros c g c' g' H.
  - cbn in H. inversion H; subst. exists []. split; reflexivity.
  - assert (Hchi : ∀ d h d' h', sem (chi a) d h d' h' →
              ∃ b, after d = b :: after d' ∧ Char.lower b = Char.lower a).
    { intros d h d' h' Hd. unfold chi in Hd.
      inversion Hd as [|? b bef t ? Hb| | | | | | | | |]; subst.
      exists b. split; [reflexivity|]. apply Ascii.eqb_eq. exact Hb. }
    destruct x as [|b x].
    + cbn [map seqs] in H. apply Hchi in H as (b & E & L).
      exists [b]. split; [exact E|]. cbn. rewrite L. reflexivity.
    + cbn [map seqs] in H.
      inversion H as [| |? ? ? ? c1 g1 ? ? H1 H2| | | | | | | |]; subst.
      apply Hchi in H1 as (d & E1 & L1).
      apply IH in H2 as (e & E2 & L2).
      exists (d :: e). rewrite E1, E2. split; [reflexivity|].
      change (Char.lower d :: lower e = Char.lower a :: lower (b :: x)).
      rewrite L1, L2. reflexivity.
Qed.

Lemma sem_alts (rs : list regex) : ∀ c g c' g',
  sem (alts rs) c g c' g' → ∃ r, r ∈ rs ∧ sem r c g c' g'.
Proof.
  induction rs as [|r rs IH]; intros c g c' g' H.
  - cbn in H. unfold beyond in H. inversion H; discriminate.
  - destruct rs as [|r' rs].
    + exists r. split; [left | exact H].
    + cbn [alts] in H.
      inversion H as [| | |? ? ? ? ? ? H1|? ? ? ? ? ? H1| | | | | |]; subst.
      * exists r. split; [left | exact H1].
      * apply IH in H1 as (r0 & Hin & Hs).
        exists r0. split; [right; exact Hin | exact Hs].
Qed.

Lemma extensions_lower x : x ∈ extensions → lower x = x.
Proof.
  intros H. apply list_elem_of_In in H.
  repeat (destruct H as [<-|H]; [reflexivity|]). destruct H.
Qed.

(** Group 2 reads word characters, a full stop and one of the
    extensions in any case. *)
Lemma name_group_shape c g c1 g1 :
  sem name_group c g c1 g1 →
  ∃ w e, after c = (w ++ "."%char :: e) ++ after c1
         ∧ w ≠ []
         ∧ Forall (λ a, Char.isword a = true) w
         ∧ lower e ∈ extensions.
Proof.
  unfold name_group. cbn [seqs].
  set (ext := alts (map lit_i extensions)).
  assert (Hext : ∀ d h d' h', sem ext d h d' h' →
            ∃ e, after d = e ++ after d' ∧ lower e ∈ extensions).
  { intros d h d' h' Hd. apply sem_alts in Hd as (r & Hr & Hd).
    apply list_elem_of_fmap in Hr as (x & -> & Hx).
    apply sem_lit_i in Hd as (e & E & L). exists e. split; [exact E|].
    rewrite L, (extensions_lower _ Hx). exact Hx. }
  clearbody ext. intros H.
  inversion H as [| | | | | | |? ? ? ? ? g2 HB| | |]; subst; clear H.
  inversion HB as [| |? ? ? ? c3 g3 ? ? H5 H6| | | | | | | |]; subst; clear HB.
  inversion H6 as [| | | | | | | | | |? ? Hb]; subst; clear H6.
  inversion H5 as [| | | | | | |? ? ? ? ? g3' HW| | |]; subst; clear H5.
  inversion HW as [| |? ? ? ? cm gm ? ? H7 H8| | | | | | | |]; subst; clear HW.
  inversion H8 as [| |? ? ? ? cd gd ? ? H9 H10| | | | | | | |]; subst; clear H8.
  apply sem_rep_chr in H7 as (w & Ew & Fw & Lw).
  unfold ch in H9.
  inversion H9 as [|? a bef t ? Ha| | | | | | | | |]; subst; clear H9.
  apply Ascii.eqb_eq in Ha. subst a.
  apply Hext in H10 as (e & Ee & Le). cbn [after] in *.
  exists w, e. rewrite Ew, Ee, <- !app_assoc. cbn [app].
  repeat split; auto.
  intros ->. simpl in Lw. lia.
Qed.

Lemma file_pattern_shape (text : str) mt :
  mt ∈ finditer file_pattern text →
  ∃ pre fn post w e u v,
    groups mt = [(4, post); (2, fn); (3, fn); (1, pre)]
    ∧ fn = w ++ "."%char :: e
    ∧ w ≠ []
    ∧ Forall (λ a, Char.isword a = true) w
    ∧ lower e ∈ extensions
    ∧ text = u ++ fn ++ v.
Proof.
  intros H. apply finditer_sem_at in H as (c & c' & g & Hs & -> & Et).
  unfold file_pattern in Hs. cbn [seqs] in Hs.
  inversion Hs as [| |? ? ? ? c1 g1 ? ? H1 H2| | | | | | | |]; subst; clear Hs.
  inversion H2 as [| |? ? ? ? c2 g2 ? ? H3 H4| | | | | | | |]; subst; clear H2.
  pose proof (sem_forward _ _ _ _ _ H1) as (s1 & E1 & _).
  apply pre_group_sem in H1 as ->.
  pose proof (name_group_shape _ _ _ _ H3) as (w & e & E & Hw & Fw & Le).
  apply name_group_sem in H3 as (a & t & -> & _ & E' & _).
  apply post_group_sem in H4 as ->.
  assert (Efn : a :: t = w ++ "."%char :: e).
  { rewrite E in E'. apply app_inv_tail in E'. symmetry. exact E'. }
  exists (consumed c c1), (a :: t), (consumed c2 c'), w, e,
         (rev (before c) ++ s1), (after c2).
  repeat split; auto.
  rewrite E1, E, <- Efn, <- app_assoc. reflexivity.
Qed.

End FilenameShape.

(** X5.  A text without a full stop mentions no attachment: the detector
    returns the empty list. *)
Theorem no_full_stop_no_attachment (nlp_spacy : str → Doc) (text : str) :
  "."%char ∉ text →
  detect_attachments_with_context nlp_spacy text = Returns [].
Proof.
  intros H. unfold detect_attachments_with_context.
  rewrite (finditer_eats not_dot file_pattern).
  - reflexivity.
  - vm_compute. reflexivity.
  - apply Forall_forall. intros a Ha. unfold not_dot.
    destruct (Ascii.eqb_spec a "."); [subst; contradiction | reflexivity].
Qed.


Lemma no_full_stop_no_attachment_witness :
  detect_attachments_with_context
    (Scenario.segmenter ["See the report pdf attached"]%string)
    ("See the report pdf attached" : str) = Returns [].
Proof.
  apply no_full_stop_no_attachment.
  intros H. apply list_elem_of_In in H. vm_compute in H.
  repeat (destruct H as [H|H]; [discriminate|]). exact H.
Defined.

(** X6.  Every filename the detector reports is one or more word
    characters, a full stop and one of the thirteen extensions in any
    case, and it stands in the text. *)
Theorem attachment_filename_shape (nlp_spacy : str → Doc) (text : str)
    (l : list (str * str)) (fn ctx : str) :
  detect_attachments_with_context nlp_spacy text = Returns l →
  (fn, ctx) ∈ l →
  ∃ w e u v,
    fn = w ++ "."%char :: e
    ∧ w ≠ []
    ∧ Forall (λ a, Char.isword a = true) w
    ∧ lower e ∈ extensions
    ∧ text = u ++ fn ++ v.
Proof.
  intros El Hin.
  destruct (detect_attachments_spec nlp_spacy text) as (l' & E & _ & H).
  rewrite E in El. injection El as <-.
  apply H in Hin as (mt & Hmt & Ha).
  apply file_pattern_shape in Hmt
    as (pre & fn' & post & w & e & u & v & Hg & Efn & Hw & Fw & Le & Et).
  rewrite (attachment_of_groups _ _ _ _ _ Hg) in Ha. injection Ha as <- _.
  exists w, e, u, v. auto.
Qed.

Lemma attachment_filename_shape_witness :
  let text : str := "First a.pdf is here. Then b.Docx again." in
  ∃ w e u v,
    ("b.Docx" : str) = w ++ "."%char :: e
    ∧ w ≠ []
    ∧ Forall (λ a, Char.isword a = true) w
    ∧ lower e ∈ extensions
    ∧ text = u ++ ("b.Docx" : str) ++ v.
Proof.
  intros text.
  apply (attachment_filename_shape
           (Scenario.segmenter ["First a.pdf is here."; "Then a.pdf again."]%string)
           text
           [("b.Docx" : str, "is here. Then**b.Docx****b.Docx**" : str);
            ("a.pdf" : str, "First a.pdf is here." : str)]
           _ ("is here. Then**b.Docx****b.Docx**" : str)).
  - vm_compute. reflexivity.
  - left.
Defined.


(** ** More on the Key-Point Extractor *)

Section KeyPointsMore.

Variable nlp_spacy : str -> Doc.

Lemma any_in_spec (kws : list str) (s : str) :
  any_in kws s = true ↔ ∃ kw, kw ∈ kws ∧ contains s kw = true.
Proof.
  unfold any_in. rewrite existsb_exists.
  split; intros (kw & H1 & H2); exists kw; split; auto;
    apply list_elem_of_In; exact H1.
Qed.

(** The flag [is_key] is the disjunction of the three heuristics. *)
Lemma is_key_heuristics (t : str) (sent : Sent) :
  is_key t sent = true ↔ heuristics t sent.
Proof.
  unfold is_key, heuristics. cbv zeta.
  rewrite <- any_in_spec.
  assert (Hent : existsb (λ ent, label_in (label_ ent) significant_labels)
                         (sent_ents sent) = true
                 ↔ ∃ ent, ent ∈ sent_ents sent
                          ∧ label_ ent ∈ significant_labels).
  { rewrite existsb_exists. unfold label_in.
    split; intros (ent & H1 & H2); exists ent.
    - split; [apply list_elem_of_In; exact H1
             | apply bool_decide_eq_true in H2; exact H2].
    - split; [apply list_elem_of_In; exact H1
             | apply bool_decide_eq_true; exact H2]. }
  rewrite <- Hent.
  destruct (any_in action_indicators (lower t)); cbn [negb];
    [split; [left; reflexivity | reflexivity]|].
  destruct (existsb _ _); cbn [negb andb];
    [split; [right; left; reflexivity | reflexivity]|].
  destruct (endswith t "?").
  - split; [right; right; reflexivity | reflexivity].
  - split; [discriminate|]. intros [H|[H|H]]; discriminate H.
Qed.

(** X7.  A string is a key point exactly when it is the trimmed text,
    not empty, of some sentence of the document on which one of the three
    heuristics holds: no sentence that shows an action indicator, a
    significant entity or a final question mark is left out. *)
Theorem key_point_iff_heuristics (text x : str) :
  x ∈ extract_key_points_and_actions nlp_spacy text
  ↔ x ≠ []
    ∧ ∃ sent, sent ∈ sents (nlp_spacy text)
              ∧ strip (sent_text sent) = x
              ∧ heuristics x sent.
Proof.
  unfold extract_key_points_and_actions.
  rewrite (key_point_loop_spec nlp_spacy _ [] ∅) by set_solver.
  cbn [app]. rewrite filter_not_in_nil, (first_occurrences_elem nlp_spacy),
    list_elem_of_omap.
  split.
  - intros (sent & Hsent & Hsel). unfold selected in Hsel. cbv zeta in Hsel.
    destruct (bool_decide (strip (sent_text sent) = [])) eqn:He; [discriminate|].
    apply bool_decide_eq_false in He.
    destruct (is_key _ sent) eqn:Hk; [|discriminate].
    injection Hsel as <-. split; [exact He|].
    exists sent. split; [exact Hsent|]. split; [reflexivity|].
    apply is_key_heuristics. exact Hk.
  - intros (Hx & sent & Hsent & <- & Hh). exists sent. split; [exact Hsent|].
    unfold selected. cbv zeta.
    rewrite bool_decide_eq_false_2 by exact Hx.
    apply is_key_heuristics in Hh. rewrite Hh. reflexivity.
Qed.

End KeyPointsMore.

(** ** More on the Deadline Extractor *)

Section DeadlinesMore.

Variable dateparser_parse : str -> datetime -> option datetime.
Variable clock : nat -> datetime.

Local Abbreviation one_ent := (deadline_of dateparser_parse clock).
Local Abbreviation ent_loop := (deadline_loop dateparser_parse clock).

Lemma with_calls_id (w : World) : with_calls (calls w) w = w.
Proof. destruct w; reflexivity. Qed.

(** An entity with another label is passed over. *)
Lemma deadline_of_other (text : str) (ent : Ent) (w : World) :
  ¬ date_like ent → one_ent text ent w = (None, w).
Proof.
  intros H. unfold deadline_of. fold date_labels. unfold label_in.
  rewrite bool_decide_eq_false_2 by exact H. reflexivity.
Qed.

(** An entity that is looked at costs one or two readings of the clock
    and gives at most one string. *)
Lemma deadline_of_reads (text : str) (ent : Ent) (w : World) :
  date_like ent →
  tick w + 1 ≤ tick (snd (one_ent text ent w)) ≤ tick w + 2.
Proof.
  intros H. unfold deadline_of, datetime_now. fold date_labels.
  unfold label_in. rewrite bool_decide_eq_true_2 by exact H.
  destruct (dateparser_parse _ _); cbn [snd tick ticked]; [|lia].
  repeat match goal with
         | |- context [if ?b then _ else _] => destruct b
         end; cbn [snd tick ticked]; lia.
Qed.

(** The loop body reads the log of model calls nowhere and hands it on. *)
Lemma deadline_of_calls (text : str) (ent : Ent) (c : list str) (w : World) :
  one_ent text ent (with_calls c w)
  = (fst (one_ent text ent w), with_calls c (snd (one_ent text ent w))).
Proof.
  unfold deadline_of, datetime_now, with_calls, ticked. cbn [tick calls].
  destruct (label_in _ _); [|reflexivity].
  destruct (dateparser_parse _ _); [|reflexivity].
  repeat match goal with
         | |- context [if ?b then _ else _] => destruct b
         end; reflexivity.
Qed.

Lemma deadline_loop_calls (text : str) (es : list Ent) (c : list str) :
  ∀ acc w,
    ent_loop text es acc (with_calls c w)
    = (fst (ent_loop text es acc w),
       with_calls c (snd (ent_loop text es acc w))).
Proof.
  induction es as [|ent es IH]; intros acc w; cbn [deadline_loop].
  - reflexivity.
  - rewrite deadline_of_calls.
    destruct (one_ent text ent w) as [o w1]. cbn [fst snd]. apply IH.
Qed.

Lemma deadline_loop_filter (text : str) (es : list Ent) :
  ∀ acc w, ent_loop text es acc w = ent_loop text (filter date_like es) acc w.
Proof.
  induction es as [|ent es IH]; intros acc w; [reflexivity|].
  destruct (decide (date_like ent)) as [H|H].
  - rewrite filter_cons_True by exact H. cbn [deadline_loop].
    destruct (one_ent text ent w) as [o w1]. apply IH.
  - rewrite filter_cons_False by exact H. cbn [deadline_loop].
    rewrite (deadline_of_other _ _ _ H). cbn [option_list].
    rewrite app_nil_r. apply IH.
Qed.

Lemma deadline_loop_reads (text : str) (es : list Ent) :
  Forall date_like es →
  ∀ acc w,
    tick w + length es ≤ tick (snd (ent_loop text es acc w))
    ∧ tick (snd (ent_loop text es acc w)) ≤ tick w + 2 * length es
    ∧ length (fst (ent_loop text es acc w)) ≤ length acc + length es.
Proof.
  induction 1 as [|ent es Hent _ IH]; intros acc w; cbn [deadline_loop].
  - cbn [fst snd length]. lia.
  - pose proof (deadline_of_reads text ent w Hent) as Hr.
    destruct (one_ent text ent w) as [o w1]. cbn [snd] in Hr.
    specialize (IH (acc ++ option_list o) w1).
    rewrite length_app in IH. cbn [length].
    assert (length (option_list o) ≤ 1) by (destruct o; simpl; lia).
    lia.
Qed.

Lemma elements_list_to_set_length (l : list str) :
  length (elements (list_to_set l : gset str)) ≤ length l.
Proof.
  apply submseteq_length, NoDup_submseteq; [apply NoDup_elements|].
  intros x Hx. apply elem_of_elements, elem_of_list_to_set in Hx. exact Hx.
Qed.

(** X8.  The deadlines depend on the document through its entities
    labelled DATE, TIME or EVENT only: two recognisers that agree on
    these give the same deadlines and leave the same state, whatever other
    entities and whatever sentences they return. *)
Theorem deadlines_only_from_date_entities (nlp1 nlp2 : str -> Doc)
    (text : str) (w : World) :
  filter date_like (ents (nlp1 text)) = filter date_like (ents (nlp2 text)) →
  extract_deadlines nlp1 dateparser_parse clock text w
  = extract_deadlines nlp2 dateparser_parse clock text w.
Proof.
  intros H. unfold extract_deadlines. cbv zeta.
  rewrite (deadline_loop_filter text (ents (nlp1 text))),
          (deadline_loop_filter text (ents (nlp2 text))), H.
  reflexivity.
Qed.


Lemma extract_deadlines_calls (nlp_spacy : str -> Doc) (text : str)
    (c : list str) (w : World) :
  extract_deadlines nlp_spacy dateparser_parse clock text (with_calls c w)
  = (fst (extract_deadlines nlp_spacy dateparser_parse clock text w),
     with_calls c
       (snd (extract_deadlines nlp_spacy dateparser_parse clock text w))).
Proof.
  unfold extract_deadlines. cbv zeta. rewrite deadline_loop_calls.
  destruct (deadline_loop _ _ _ _ _ _) as [l w1]. reflexivity.
Qed.

End DeadlinesMore.

Lemma deadlines_only_from_date_entities_witness :
  let noisy : str -> Doc := fun text =>
    {| ents := {| ent_text := "Anna"; label_ := "PERSON";
                  start_char := 0; end_char := 4 |}
               :: ents (Runs.nlp text);
       sents := [] |} in
  extract_deadlines Runs.nlp Runs.parse (fun _ => Runs.dec1)
                    Runs.report_text Runs.w0
  = extract_deadlines noisy Runs.parse (fun _ => Runs.dec1)
                      Runs.report_text Runs.w0.
Proof.
  intros noisy.
  apply (deadlines_only_from_date_entities Runs.parse (fun _ => Runs.dec1)
           Runs.nlp noisy Runs.report_text Runs.w0).
  vm_compute. reflexivity.
Defined.


(** ** The Deadline Extractor on dates with a time zone *)

Section ZonedFacts.

Variable nlp_spacy : str -> Doc.
Variable dateparser_parse : str -> datetime -> option parsed.
Variable clock : nat -> datetime.

Local Abbreviation zoned_of := (Zoned.deadline_of dateparser_parse clock).
Local Abbreviation zoned_loop := (Zoned.deadline_loop dateparser_parse clock).
Local Abbreviation zoned_extract :=
  (Zoned.extract_deadlines nlp_spacy dateparser_parse clock).
Local Abbreviation naive := (naive_part dateparser_parse).

(** A call that returns has met naive results only: it is a call of the
    pass on naive datetimes. *)
Lemma zoned_of_returns (text : str) (ent : Ent) (w : World) o w' :
  zoned_of text ent w = (Returns o, w') →
  deadline_of naive clock text ent w = (o, w').
Proof.
  unfold Zoned.deadline_of, deadline_of, naive_part, datetime_now.
  destruct (label_in _ _); [|intros [= <- <-]; reflexivity].
  cbn [tick ticked].
  destruct (dateparser_parse _ _) as [[d|d z]|];
    cbn [Zoned.minus_naive bind Zoned.format].
  - repeat match goal with
           | |- context [if ?b then _ else _] => destruct b
           end; intros [= <- <-]; reflexivity.
  - intros [=].
  - intros [= <- <-]. reflexivity.
Qed.

(** A call raises on a date with a time zone, and nowhere else. *)
Lemma zoned_of_raises (text : str) (ent : Ent) (w : World) e w' :
  zoned_of text ent w = (Raises e, w') →
  e = Exception "TypeError"
  ∧ ∃ d z, dateparser_parse (ent_text ent) (clock (tick w)) = Some (Aware d z).
Proof.
  unfold Zoned.deadline_of, datetime_now.
  destruct (label_in _ _); [|intros [=]].
  cbn [tick ticked].
  destruct (dateparser_parse _ _) as [[d|d z]|];
    cbn [Zoned.minus_naive bind Zoned.format].
  - repeat match goal with
           | |- context [if ?b then _ else _] => destruct b
           end; intros [=].
  - intros [= <- _]. split; [reflexivity|]. eauto.
  - intros [=].
Qed.

Lemma zoned_of_aware (text : str) (ent : Ent) (w : World) d z :
  label_in (label_ ent) date_labels = true →
  dateparser_parse (ent_text ent) (clock (tick w)) = Some (Aware d z) →
  zoned_of text ent w = (Raises (Exception "TypeError"), ticked (ticked w)).
Proof.
  intros Hl Hd. unfold Zoned.deadline_of, datetime_now.
  fold date_labels. rewrite Hl. cbn [tick ticked]. rewrite Hd. reflexivity.
Qed.

Lemma zoned_loop_returns (text : str) (es : list Ent) :
  ∀ acc w l w',
    zoned_loop text es acc w = (Returns l, w') →
    deadline_loop naive clock text es acc w = (l, w').
Proof.
  induction es as [|ent es IH]; intros acc w l w';
    cbn [Zoned.deadline_loop deadline_loop].
  - intros [= <- <-]. reflexivity.
  - destruct (zoned_of text ent w) as [[o|e] w1] eqn:E; [|intros [=]].
    rewrite (zoned_of_returns _ _ _ _ _ E). apply IH.
Qed.

Lemma zoned_loop_raises (text : str) (es : list Ent) :
  ∀ acc w e w',
    zoned_loop text es acc w = (Raises e, w') → e = Exception "TypeError".
Proof.
  induction es as [|ent es IH]; intros acc w e w'; cbn [Zoned.deadline_loop].
  - intros [=].
  - destruct (zoned_of text ent w) as [[o|e1] w1] eqn:E.
    + apply IH.
    + intros [= <- _]. apply (zoned_of_raises _ _ _ _ _ E).
Qed.

Lemma zoned_extract_returns (text : str) (w : World) l w' :
  zoned_extract text w = (Returns l, w') →
  extract_deadlines nlp_spacy naive clock text w = (l, w').
Proof.
  unfold Zoned.extract_deadlines, extract_deadlines. cbv zeta.
  destruct (zoned_loop text (ents (nlp_spacy text)) [] w) as [[l1|e] w1] eqn:E;
    [|intros [=]].
  rewrite (zoned_loop_returns _ _ _ _ _ _ E). intros [= <- <-]. reflexivity.
Qed.

Lemma zoned_extract_raises (text : str) (w : World) e w' :
  zoned_extract text w = (Raises e, w') → e = Exception "TypeError".
Proof.
  unfold Zoned.extract_deadlines. cbv zeta.
  destruct (zoned_loop text (ents (nlp_spacy text)) [] w) as [[l1|e1] w1] eqn:E;
    [intros [=]|].
  intros [= <- _]. apply (zoned_loop_raises _ _ _ _ _ _ E).
Qed.

(** Without a date with a time zone the call returns. *)
Lemma zoned_loop_no_zone (text : str) (es : list Ent) :
  no_zone dateparser_parse →
  ∀ acc w, ∃ l w', zoned_loop text es acc w = (Returns l, w').
Proof.
  intros Hz. induction es as [|ent es IH]; intros acc w;
    cbn [Zoned.deadline_loop]; [eauto|].
  destruct (zoned_of text ent w) as [[o|e] w1] eqn:E; [apply IH|].
  apply zoned_of_raises in E as (_ & d & z & E). destruct (Hz _ _ _ _ E).
Qed.

Lemma zoned_extract_no_zone (text : str) (w : World) :
  no_zone dateparser_parse →
  ∃ l w', zoned_extract text w = (Returns l, w').
Proof.
  intros Hz. unfold Zoned.extract_deadlines. cbv zeta.
  destruct (zoned_loop_no_zone text (ents (nlp_spacy text)) Hz [] w)
    as (l & w' & ->). eauto.
Qed.

(** The pass reads the log of model calls nowhere and hands it on. *)
Lemma zoned_of_calls (text : str) (ent : Ent) (c : list str) (w : World) :
  zoned_of text ent (with_calls c w)
  = (fst (zoned_of text ent w), with_calls c (snd (zoned_of text ent w))).
Proof.
  unfold Zoned.deadline_of, datetime_now, with_calls, ticked. cbn [tick calls].
  destruct (label_in _ _); [|reflexivity].
  destruct (dateparser_parse _ _) as [[d|d z]|]; reflexivity.
Qed.

Lemma zoned_loop_calls (text : str) (es : list Ent) (c : list str) :
  ∀ acc w,
    zoned_loop text es acc (with_calls c w)
    = (fst (zoned_loop text es acc w),
       with_calls c (snd (zoned_loop text es acc w))).
Proof.
  induction es as [|ent es IH]; intros acc w; cbn [Zoned.deadline_loop].
  - reflexivity.
  - rewrite zoned_of_calls.
    destruct (zoned_of text ent w) as [[o|e] w1]; cbn [fst snd];
      [apply IH | reflexivity].
Qed.

Lemma zoned_extract_calls (text : str) (c : list str) (w : World) :
  zoned_extract text (with_calls c w)
  = (fst (zoned_extract text w), with_calls c (snd (zoned_extract text w))).
Proof.
  unfold Zoned.extract_deadlines. cbv zeta. rewrite zoned_loop_calls.
  destruct (zoned_loop text (ents (nlp_spacy text)) [] w) as [[l|e] w1];
    reflexivity.
Qed.

Lemma zoned_loop_app (text : str) (pre es : list Ent) :
  ∀ acc w,
    zoned_loop text (pre ++ es) acc w
    = match zoned_loop text pre acc w with
      | (Returns l, w1) => zoned_loop text es l w1
      | (Raises e, w1) => (Raises e, w1)
      end.
Proof.
  induction pre as [|ent pre IH]; intros acc w;
    cbn [app Zoned.deadline_loop]; [reflexivity|].
  destruct (zoned_of text ent w) as [[o|e] w1]; [apply IH | reflexivity].
Qed.


End ZonedFacts.

(** A parser of naive datetimes gives no date with a time zone, and the
    pass with it is the pass on naive datetimes. *)
Lemma all_naive_no_zone (p : str -> datetime -> option datetime) :
  no_zone (all_naive p).
Proof. intros s base d z. unfold all_naive. destruct (p s base); discriminate. Qed.

Lemma zoned_of_all_naive (p : str -> datetime -> option datetime)
    (clock : nat -> datetime) (text : str) (ent : Ent) (w : World) :
  Zoned.deadline_of (all_naive p) clock text ent w
  = (Returns (fst (deadline_of p clock text ent w)),
     snd (deadline_of p clock text ent w)).
Proof.
  unfold Zoned.deadline_of, deadline_of, all_naive, datetime_now.
  destruct (label_in _ _); [|reflexivity].
  cbn [tick ticked].
  destruct (p _ _) as [d|]; cbn [option_map Zoned.minus_naive bind Zoned.format];
    [|reflexivity].
  repeat match goal with
         | |- context [if ?b then _ else _] => destruct b
         end; reflexivity.
Qed.

Lemma zoned_loop_all_naive (p : str -> datetime -> option datetime)
    (clock : nat -> datetime) (text : str) (es : list Ent) :
  ∀ acc w,
    Zoned.deadline_loop (all_naive p) clock text es acc w
    = (Returns (fst (deadline_loop p clock text es acc w)),
       snd (deadline_loop p clock text es acc w)).
Proof.
  induction es as [|ent es IH]; intros acc w;
    cbn [Zoned.deadline_loop deadline_loop]; [reflexivity|].
  rewrite zoned_of_all_naive.
  destruct (deadline_of p clock text ent w) as [o w1]. cbn [fst snd].
  apply IH.
Qed.

Lemma zoned_extract_all_naive (nlp_spacy : str -> Doc)
    (p : str -> datetime -> option datetime) (clock : nat -> datetime)
    (text : str) (w : World) :
  Zoned.extract_deadlines nlp_spacy (all_naive p) clock text w
  = (Returns (fst (extract_deadlines nlp_spacy p clock text w)),
     snd (extract_deadlines nlp_spacy p clock text w)).
Proof.
  unfold Zoned.extract_deadlines, extract_deadlines. cbv zeta.
  rewrite zoned_loop_all_naive.
  destruct (deadline_loop p clock text (ents (nlp_spacy text)) [] w)
    as [l w1]. reflexivity.
Qed.


(** ** More on the digest *)

Section DigestMore.

Variable summarizer : str -> outcome (list (gmap str str)).
Variable nlp_spacy : str -> Doc.
Variable dateparser_parse : str -> datetime -> option parsed.
Variable clock : nat -> datetime.

Local Abbreviation digest :=
  (compute_digest summarizer nlp_spacy dateparser_parse clock).
Local Abbreviation zoned_extract :=
  (Zoned.extract_deadlines nlp_spacy dateparser_parse clock).

Lemma get_summary_returns (text : str) (w : World) :
  ∃ s, fst (get_summary summarizer text w) = Returns s.
Proof.
  unfold get_summary. destruct (strip text); [eexists; reflexivity|].
  cbn [fst]. destruct (summarizer text) as [out|e]; cbn [bind try_except];
    [|eexists; reflexivity].
  unfold index. destruct (out !! 0) as [d|]; cbn [bind try_except];
    [|eexists; reflexivity].
  unfold getitem. destruct (d !! _); eexists; reflexivity.
Qed.

(** The summarizer reads the clock nowhere. *)
Lemma get_summary_world (text : str) (w : World) :
  snd (get_summary summarizer text w)
  = with_calls (calls (snd (get_summary summarizer text w))) w.
Proof. unfold get_summary. destruct (strip text), w; reflexivity. Qed.

(** The digest is the record of the four results, and fails where the
    deadline extractor fails. *)
Lemma compute_digest_eq (text : str) (w : World) s att :
  fst (get_summary summarizer text w) = Returns s →
  detect_attachments_with_context nlp_spacy text = Returns att →
  let rd := zoned_extract text (snd (get_summary summarizer text w)) in
  digest text w
  = (bind (fst rd) (fun dl =>
       Returns {| summary := s;
                  key_points := extract_key_points_and_actions nlp_spacy text;
                  deadlines := dl; attachments := att |}),
     snd rd).
Proof.
  intros Es Ea rd. subst rd. unfold compute_digest.
  destruct (get_summary summarizer text w) as [o w1]. cbn [fst snd] in *.
  subst o. destruct (zoned_extract text w1) as [[dl|e] w2]; cbn [fst snd bind].
  - rewrite Ea. reflexivity.
  - reflexivity.
Qed.

(** X10.  The digest computation raises exactly where the deadline
    extractor raises, with its exception, and the four passes do not
    interfere: a Digest that is returned holds the summary, the key
    points, the deadlines and the attachments that each pass gives when
    run on its own from the starting state; afterwards the clock has been
    read as often as by the deadline extractor alone and the model called
    as often as by the summarizer alone. *)
Theorem digest_of_four_passes (text : str) (w : World) :
  let r := digest text w in
  let rd := zoned_extract text w in
  ∃ s att,
    fst (get_summary summarizer text w) = Returns s
    ∧ detect_attachments_with_context nlp_spacy text = Returns att
    ∧ fst r = bind (fst rd) (fun dl =>
        Returns
          {| summary := s;
             key_points := extract_key_points_and_actions nlp_spacy text;
             deadlines := dl;
             attachments := att |})
    ∧ tick (snd r) = tick (snd rd)
    ∧ calls (snd r) = calls (snd (get_summary summarizer text w)).
Proof.
  intros r rd. subst r rd.
  destruct (get_summary_returns text w) as (s & Es).
  destruct (detect_attachments_spec nlp_spacy text) as (att & Ea & _).
  exists s, att. split; [exact Es|]. split; [exact Ea|].
  rewrite (compute_digest_eq text w s att Es Ea). cbv zeta.
  rewrite (get_summary_world text w), zoned_extract_calls.
  cbn [fst snd with_calls tick calls]. repeat split.
Qed.

(** What a returned Digest holds; its deadlines are those of the pass
    on naive datetimes. *)
Lemma compute_digest_fields (text : str) (w : World) (D : Digest) :
  fst (digest text w) = Returns D →
  fst (get_summary summarizer text w) = Returns (summary D)
  ∧ key_points D = extract_key_points_and_actions nlp_spacy text
  ∧ deadlines D
    = fst (extract_deadlines nlp_spacy (naive_part dateparser_parse) clock
             text w)
  ∧ detect_attachments_with_context nlp_spacy text = Returns (attachments D).
Proof.
  destruct (get_summary_returns text w) as (s & Es).
  destruct (detect_attachments_spec nlp_spacy text) as (att & Ea & _).
  rewrite (compute_digest_eq text w s att Es Ea). cbv zeta. cbn [fst].
  rewrite (get_summary_world text w), zoned_extract_calls. cbn [fst].
  destruct (zoned_extract text w) as [[dl|e] w1] eqn:E; cbn [fst bind];
    [|intros [=]].
  intros [= <-]. cbn [summary key_points deadlines attachments].
  rewrite (zoned_extract_returns _ _ _ _ _ _ _ E).
  repeat split; assumption.
Qed.

Lemma compute_digest_no_zone (text : str) (w : World) :
  no_zone dateparser_parse → ∃ D, fst (digest text w) = Returns D.
Proof.
  intros Hz.
  destruct (get_summary_returns text w) as (s & Es).
  destruct (detect_attachments_spec nlp_spacy text) as (att & Ea & _).
  rewrite (compute_digest_eq text w s att Es Ea). cbv zeta.
  destruct (zoned_extract_no_zone nlp_spacy dateparser_parse clock text
              (snd (get_summary summarizer text w)) Hz) as (l & w' & ->).
  eexists. reflexivity.
Qed.


End DigestMore.



(** * Properties of the mailbox access *)

Section MailboxFacts.

Variable imap_fetch :
  IMAP4 -> message_set -> string -> nat -> outcome (str * list item).
Variable message_from_bytes : bytes -> Message.
Variable decode : bytes -> str -> outcome str.

Local Abbreviation fetch_content :=
  (fetch_email_content imap_fetch message_from_bytes decode).
Local Abbreviation body := (body_part decode).

Lemma body_part_test (part : Message) :
  body part ↔
  bool_decide (content_type (headers_of part) = ("text/plain" : str))
  && negb (contains (py_str (content_disposition (headers_of part)))
                    "attachment") = true
  ∧ ∃ s, decoded_text decode part = Returns s.
Proof.
  unfold body_part. rewrite andb_true_iff, bool_decide_eq_true, negb_true_iff.
  tauto.
Qed.

(** The loop stops at the first part that is taken as the body. *)
Lemma plain_text_loop_first (pre : list Message) :
  ∀ part post s text_content,
    (∀ p, p ∈ pre → ¬ body p) →
    body part →
    decoded_text decode part = Returns s →
    plain_text_loop decode (pre ++ part :: post) text_content = s.
Proof.
  induction pre as [|p pre IH]; intros part post s t0 Hpre Hb Hs.
  - cbn [app plain_text_loop]. apply body_part_test in Hb as [-> _].
    rewrite Hs. reflexivity.
  - cbn [app plain_text_loop].
    assert (Hp : ¬ body p) by (apply Hpre; left).
    assert (Hrest : ∀ q, q ∈ pre → ¬ body q)
      by (intros q Hq; apply Hpre; right; exact Hq).
    rewrite body_part_test in Hp.
    destruct (bool_decide _ && negb _); [|apply IH; assumption].
    destruct (decoded_text decode p) as [s'|e] eqn:Ed;
      [|apply IH; assumption].
    exfalso. apply Hp. split; [reflexivity | eauto].
Qed.

Lemma plain_text_loop_none (parts : list Message) (text_content : str) :
  (∀ p, p ∈ parts → ¬ body p) →
  plain_text_loop decode parts text_content = text_content.
Proof.
  induction parts as [|p parts IH]; intros Hn; [reflexivity|].
  cbn [plain_text_loop].
  assert (Hp : ¬ body p) by (apply Hn; left).
  assert (Hrest : ∀ q, q ∈ parts → ¬ body q)
    by (intros q Hq; apply Hn; right; exact Hq).
  rewrite body_part_test in Hp.
  destruct (bool_decide _ && negb _); [|apply IH; assumption].
  destruct (decoded_text decode p) as [s'|e] eqn:Ed; [|apply IH; assumption].
  exfalso. apply Hp. split; [reflexivity | eauto].
Qed.

(** X11.  [fetch_email_content] returns [None] exactly when the FETCH
    command fails: it raises, its status is not OK, or its data do not
    start with a pair.  Whenever the message is fetched a string is
    returned, whatever the decoding of its parts does. *)
Theorem fetch_content_none_iff (mail : IMAP4) (uid : str) (n : nat) :
  fetch_content mail uid n = None
  ↔ ¬ ∃ envelope raw rest,
        imap_fetch mail (AsStr uid) "(RFC822)" n
        = Returns ("OK" : str, ITuple envelope raw :: rest).
Proof.
  unfold fetch_email_content.
  destruct (imap_fetch mail (AsStr uid) "(RFC822)" n) as [[status msg_data]|e];
    cbn [bind].
  - destruct (decide (status = ("OK" : str))) as [->|Hst].
    + rewrite bool_decide_eq_false_2 by (intros H; apply H; reflexivity).
      destruct msg_data as [|[envelope raw|line|] rest]; cbn.
      * split; [intros _ (x1 & x2 & x3 & [=]) | reflexivity].
      * split; [discriminate|]. intros H. exfalso. apply H. eauto.
      * destruct line as [|? [|? ?]];
          (split; [intros _ (x1 & x2 & x3 & [=]) | reflexivity]).
      * split; [intros _ (x1 & x2 & x3 & [=]) | reflexivity].
    + rewrite bool_decide_eq_true_2 by exact Hst.
      split; [|reflexivity]. intros _ (x1 & x2 & x3 & [= H _]).
      apply Hst. exact H.
  - split; [intros _ (x1 & x2 & x3 & [=]) | reflexivity].
Qed.

(** X12.  For a fetched multipart message the content is the decoded text
    of the first part, in the order of [walk], that is plain text, has
    no attachment in its Content-Disposition and can be decoded; later
    parts are not looked at, and without such a part the content is the
    empty string. *)
Theorem fetch_content_first_body_part (mail : IMAP4) (uid : str) (n : nat)
    (envelope raw : bytes) (rest : list item) :
  imap_fetch mail (AsStr uid) "(RFC822)" n
  = Returns ("OK" : str, ITuple envelope raw :: rest) →
  is_multipart (message_from_bytes raw) = true →
  (∀ pre part post s,
     walk (message_from_bytes raw) = pre ++ part :: post →
     (∀ p, p ∈ pre → ¬ body p) →
     body part →
     decoded_text decode part = Returns s →
     fetch_content mail uid n = Some s)
  ∧ ((∀ p, p ∈ walk (message_from_bytes raw) → ¬ body p) →
     fetch_content mail uid n = Some []).
Proof.
  intros Hf Hm. unfold fetch_email_content. rewrite Hf. cbn [bind].
  rewrite bool_decide_eq_false_2 by (intros H; apply H; reflexivity).
  cbn. rewrite Hm. split.
  - intros pre part post s Hw Hpre Hb Hs. rewrite Hw.
    rewrite (plain_text_loop_first pre part post s [] Hpre Hb Hs).
    reflexivity.
  - intros Hn. rewrite (plain_text_loop_none _ [] Hn). reflexivity.
Qed.

End MailboxFacts.


Lemma fetch_content_first_body_part_witness :
  fetch_email_content Inbox.fetch Inbox.parse Inbox.decode 0 ("1" : str) 0
  = Some ("Hello  there" : str).
Proof.
  destruct (fetch_content_first_body_part Inbox.fetch Inbox.parse Inbox.decode
              0 ("1" : str) 0 (Inbox.b "1 (RFC822 {4}") (Inbox.b "RAW1")
              [ILine (Inbox.b ")")] eq_refl eq_refl) as [H _].
  apply (H [Inbox.mixed; Inbox.alternative; Inbox.html_part;
            Inbox.unknown_charset_part; Inbox.attached_part]
           Inbox.text_part [] ("Hello  there" : str)).
  - reflexivity.
  - intros p Hp (Hc & Hd & s & Hs). apply list_elem_of_In in Hp.
    repeat (destruct Hp as [<-|Hp];
            [vm_compute in Hc, Hd, Hs;
             first [discriminate Hc | discriminate Hd | discriminate Hs]|]).
    destruct Hp.
  - split; [reflexivity|]. split; [reflexivity|].
    exists ("Hello  there" : str). vm_compute. reflexivity.
  - vm_compute. reflexivity.
Defined.


(** * Properties of the page script *)

Section StepFacts.

Variable summarizer : str -> outcome (list (gmap str str)).
Variable nlp_spacy : str -> Doc.
Variable dateparser_parse : str -> datetime -> option parsed.
Variable clock : nat -> datetime.
Variable imap_fetch :
  IMAP4 -> message_set -> string -> nat -> outcome (str * list item).
Variable message_from_bytes : bytes -> Message.
Variable decode : bytes -> str -> outcome str.

Local Abbreviation fetch_content :=
  (fetch_email_content imap_fetch message_from_bytes decode).
Local Abbreviation select := (App.select_email imap_fetch message_from_bytes decode).
Local Abbreviation analyse :=
  (App.analyse summarizer nlp_spacy dateparser_parse clock).
Local Abbreviation digest_column :=
  (App.digest_column summarizer nlp_spacy dateparser_parse clock).
Local Abbreviation email_column :=
  (App.email_column imap_fetch message_from_bytes decode).
Local Abbreviation step2 :=
  (App.step2 summarizer nlp_spacy dateparser_parse clock
             imap_fetch message_from_bytes decode).
Local Abbreviation run :=
  (App.run summarizer nlp_spacy dateparser_parse clock
           imap_fetch message_from_bytes decode).

Lemma add_page_nil (st : App.State) : add_page [] st = st.
Proof. destruct st. unfold add_page. cbn. rewrite app_nil_r. reflexivity. Qed.

Lemma add_page_app (ws1 ws2 : list App.Widget) (st : App.State) :
  add_page ws2 (add_page ws1 st) = add_page (ws1 ++ ws2) st.
Proof. unfold add_page. cbn. rewrite app_assoc. reflexivity. Qed.

Lemma emit_all_spec (wgs : list App.Widget) :
  ∀ st, App.emit_all wgs st = (Returns tt, add_page wgs st).
Proof.
  induction wgs as [|wg wgs IH]; intros st; cbn [App.emit_all].
  - rewrite add_page_nil. reflexivity.
  - unfold App.seq, App.emit. rewrite IH. unfold add_page. cbn.
    rewrite <- app_assoc. reflexivity.
Qed.

Lemma seq_ret {A B : Type} (a : A) (f : A → App.Script B) st :
  App.seq (App.ret a) f st = f a st.
Proof. reflexivity. Qed.

Lemma seq_lift {A B : Type} (a : A) (f : A → App.Script B) st :
  App.seq (App.lift (Returns a)) f st = f a st.
Proof. reflexivity. Qed.

Lemma seq_get {B : Type} (f : App.Session → App.Script B) st :
  App.seq App.get f st = f (App.session st) st.
Proof. reflexivity. Qed.

Lemma seq_assign {B : Type} set (f : unit → App.Script B) st :
  App.seq (App.assign set) f st
  = f tt (with_session (set (App.session st)) st).
Proof. reflexivity. Qed.

Lemma seq_emit {B : Type} wg (f : unit → App.Script B) st :
  App.seq (App.emit wg) f st = f tt (add_page [wg] st).
Proof. reflexivity. Qed.

Lemma seq_emit_all {B : Type} wgs (f : unit → App.Script B) st :
  App.seq (App.emit_all wgs) f st = f tt (add_page wgs st).
Proof. unfold App.seq. rewrite emit_all_spec. reflexivity. Qed.

Lemma seq_key {A B : Type} (field : App.Session → option A) v
    (f : A → App.Script B) st :
  field (App.session st) = Some v → App.seq (App.key field) f st = f v st.
Proof. intros H. unfold App.seq, App.key. rewrite H. reflexivity. Qed.

Lemma seq_returns {A B : Type} (x : App.Script A) (f : A → App.Script B)
    st a st' :
  x st = (Returns a, st') → App.seq x f st = f a st'.
Proof. intros H. unfold App.seq. rewrite H. reflexivity. Qed.

Lemma seq_raises {A B : Type} (x : App.Script A) (f : A → App.Script B)
    st e st' :
  x st = (Raises e, st') → App.seq x f st = (Raises e, st').
Proof. intros H. unfold App.seq. rewrite H. reflexivity. Qed.

Lemma emit_spec wg st : App.emit wg st = (Returns tt, add_page [wg] st).
Proof. reflexivity. Qed.

(** The digest on the page when the four keys are there. *)
Lemma show_digest_spec (st : App.State) s kp dl att :
  App.summary (App.session st) = Some s →
  App.key_points (App.session st) = Some kp →
  App.deadlines (App.session st) = Some dl →
  App.attachments (App.session st) = Some att →
  App.show_digest st = (Returns tt, add_page (digest_page s kp dl att) st).
Proof.
  intros H1 H2 H3 H4. unfold App.show_digest, digest_page.
  rewrite seq_emit, (seq_key _ s) by exact H1.
  rewrite seq_emit, (seq_key _ kp) by exact H2.
  assert (E1 : ∀ (f : unit → App.Script unit) st0,
            App.seq
              match kp with
              | [] => App.emit (App.Info "No distinct crucial points or action items identified.")
              | _ :: _ =>
                  App.seq (App.emit (App.Subheader "Crucial Points / Action Items"))
                    (λ _, App.emit_all (map (λ point, App.Markdown ("- " ++ point)) kp))
              end f st0
            = f tt (add_page
                      match kp with
                      | _ :: _ => App.Subheader "Crucial Points / Action Items"
                                  :: map (λ point, App.Markdown ("- " ++ point)) kp
                      | [] => [App.Info "No distinct crucial points or action items identified."]
                      end st0)).
  { intros f st0. destruct kp; [reflexivity|].
    unfold App.seq at 1. rewrite seq_emit, emit_all_spec, add_page_app.
    reflexivity. }
  rewrite E1, (seq_key _ dl) by exact H3.
  assert (E2 : ∀ (f : unit → App.Script unit) st0,
            App.seq
              match dl with
              | [] => App.emit (App.Info "No specific deadlines found.")
              | _ :: _ =>
                  App.seq (App.emit (App.Subheader "Deadlines Detected"))
                    (λ _, App.emit_all (map (λ deadline, App.Write ("- " ++ deadline)) dl))
              end f st0
            = f tt (add_page
                      match dl with
                      | _ :: _ => App.Subheader "Deadlines Detected"
                                  :: map (λ deadline, App.Write ("- " ++ deadline)) dl
                      | [] => [App.Info "No specific deadlines found."]
                      end st0)).
  { intros f st0. destruct dl; [reflexivity|].
    unfold App.seq at 1. rewrite seq_emit, emit_all_spec, add_page_app.
    reflexivity. }
  rewrite E2, (seq_key _ att) by exact H4.
  rewrite !add_page_app.
  destruct att as [|a att'].
  - rewrite emit_spec, add_page_app, <- !app_assoc. reflexivity.
  - rewrite seq_emit, emit_all_spec, !add_page_app, <- !app_assoc.
    reflexivity.
Qed.

(** The four passes leave their results in the session; when the
    deadline extractor raises, the summary and the key points are there
    and the rest is not touched. *)
Lemma analyse_spec (c : str) (st : App.State) :
  let rd := Zoned.extract_deadlines nlp_spacy dateparser_parse clock c
              (snd (get_summary summarizer c (App.world st))) in
  let kp := extract_key_points_and_actions nlp_spacy c in
  ∃ s att,
    fst (get_summary summarizer c (App.world st)) = Returns s
    ∧ detect_attachments_with_context nlp_spacy c = Returns att
    ∧ analyse c st
      = match fst rd with
        | Returns dl =>
            (Returns tt,
             with_world (snd rd)
               (with_session (analysed c s kp dl att (App.session st)) st))
        | Raises e =>
            (Raises e,
             with_world (snd rd)
               (with_session (half_analysed s kp (App.session st)) st))
        end.
Proof.
  intros rd kp. subst rd kp.
  destruct (get_summary_returns summarizer c (App.world st)) as (s & Es).
  destruct (detect_attachments_spec nlp_spacy c) as (att & Ea & _).
  exists s, att. split; [exact Es|]. split; [exact Ea|].
  unfold App.analyse. unfold App.seq at 1. unfold App.call_get_summary.
  destruct (get_summary summarizer c (App.world st)) as [o w1].
  cbn [fst snd] in *. subst o.
  rewrite !seq_assign. unfold App.seq at 1. unfold App.call_extract_deadlines.
  cbn [App.world with_session].
  destruct (Zoned.extract_deadlines nlp_spacy dateparser_parse clock c w1)
    as [[dl|e] w2]; cbn [fst snd].
  - rewrite seq_assign, Ea, seq_lift, seq_assign. reflexivity.
  - reflexivity.
Qed.

(** *** The selection *)

Lemma select_keep opts choice o (st : App.State) :
  App.selected_uid opts choice = Returns o →
  (truthy o → App.selected_email_uid (App.session st) = o) →
  select opts choice st = (Returns tt, st).
Proof.
  intros Ho Hs. unfold App.select_email. rewrite Ho, seq_lift, seq_get.
  destruct o as [[|a u]|]; [reflexivity| |reflexivity].
  rewrite bool_decide_eq_false_2; [reflexivity|].
  intros H. apply H, Hs. exists a, u. reflexivity.
Qed.

Lemma select_change opts choice u mail (st : App.State) :
  App.selected_uid opts choice = Returns (Some u) →
  u ≠ [] →
  App.selected_email_uid (App.session st) ≠ Some u →
  App.imap_connection (App.session st) = Some mail →
  select opts choice st
  = (Returns tt,
     newly_selected u (fetch_content mail u (length (App.imap_log st))) st).
Proof.
  intros Ho Hu Hs Hm. unfold App.select_email.
  rewrite Ho, seq_lift, seq_get.
  destruct u as [|a u]; [contradiction|].
  rewrite bool_decide_eq_true_2 by exact Hs.
  rewrite seq_assign. unfold App.seq at 1.
  unfold App.call_fetch_email_content. rewrite Hm.
  cbn [App.imap_log with_session].
  rewrite seq_assign.
  destruct (fetch_content mail (a :: u) (length (App.imap_log st)))
    as [content|].
  - rewrite seq_ret, !seq_assign. unfold newly_selected, App.assign, cleared.
    cbn. rewrite app_nil_r. reflexivity.
  - rewrite seq_emit, !seq_assign. reflexivity.
Qed.

Lemma select_raise opts choice e (st : App.State) :
  App.selected_uid opts choice = Raises e →
  select opts choice st = (Raises e, st).
Proof. intros Ho. unfold App.select_email. rewrite Ho. reflexivity. Qed.

(** *** The right column *)

Lemma column_idle (st : App.State) :
  ¬ truthy (App.current_email_content (App.session st)) →
  digest_column st
  = (Returns tt,
     add_page [App.Subheader "Email Digest";
               App.Info "Select an email from the left to generate its digest."]
              st).
Proof.
  intros H. unfold App.digest_column. rewrite seq_emit, seq_get.
  cbn [App.session add_page].
  destruct (App.current_email_content (App.session st)) as [[|a raw]|].
  - rewrite emit_spec, add_page_app. reflexivity.
  - exfalso. apply H. exists a, raw. reflexivity.
  - rewrite emit_spec, add_page_app. reflexivity.
Qed.

Lemma column_cached (st : App.State) raw s kp dl att :
  App.current_email_content (App.session st) = Some raw →
  raw ≠ [] →
  App.last_analyzed_content (App.session st) = Some (clean_email_text raw) →
  App.summary (App.session st) = Some s →
  App.key_points (App.session st) = Some kp →
  App.deadlines (App.session st) = Some dl →
  App.attachments (App.session st) = Some att →
  digest_column st
  = (Returns tt,
     add_page ([App.Subheader "Email Digest";
                App.TextArea "DEBUG: Cleaned Email Content:"
                             (clean_email_text raw)]
               ++ digest_page s kp dl att
               ++ [App.TextArea "Raw Content:" raw]) st).
Proof.
  intros Hc Hr Hl H1 H2 H3 H4. unfold App.digest_column.
  rewrite seq_emit, seq_get. cbn [App.session add_page].
  rewrite Hc. destruct raw as [|a raw]; [contradiction|].
  cbv zeta. rewrite seq_emit, Hl.
  rewrite bool_decide_eq_false_2 by (intros H; apply H; reflexivity).
  rewrite seq_ret.
  match goal with
  | |- App.seq App.show_digest _ ?st0 = _ =>
      rewrite (seq_returns _ _ st0 tt _
                 (show_digest_spec st0 s kp dl att H1 H2 H3 H4))
  end.
  rewrite emit_spec, !add_page_app.
  rewrite <- ?app_assoc. reflexivity.
Qed.

Lemma column_fresh (st : App.State) raw :
  App.current_email_content (App.session st) = Some raw →
  raw ≠ [] →
  App.last_analyzed_content (App.session st) ≠ Some (clean_email_text raw) →
  let c := clean_email_text raw in
  let rd := Zoned.extract_deadlines nlp_spacy dateparser_parse clock c
              (snd (get_summary summarizer c (App.world st))) in
  let kp := extract_key_points_and_actions nlp_spacy c in
  let top := [App.Subheader "Email Digest";
              App.TextArea "DEBUG: Cleaned Email Content:" c] in
  ∃ s att,
    fst (get_summary summarizer c (App.world st)) = Returns s
    ∧ detect_attachments_with_context nlp_spacy c = Returns att
    ∧ digest_column st
      = match fst rd with
        | Returns dl =>
            (Returns tt,
             add_page (top ++ digest_page s kp dl att
                       ++ [App.TextArea "Raw Content:" raw])
               (with_world (snd rd)
                  (with_session (analysed c s kp dl att (App.session st))
                     st)))
        | Raises e =>
            (Raises e,
             add_page top
               (with_world (snd rd)
                  (with_session (half_analysed s kp (App.session st)) st)))
        end.
Proof.
  intros Hc Hr Hl c rd kp top.
  destruct (analyse_spec c (add_page top st)) as (s & att & Es & Ea & E).
  change (App.world (add_page top st)) with (App.world st) in Es, E.
  fold rd kp in E.
  exists s, att. split; [exact Es|]. split; [exact Ea|].
  unfold App.digest_column. rewrite seq_emit, seq_get.
  cbn [App.session add_page]. rewrite Hc.
  destruct raw as [|a raw]; [contradiction|].
  cbv zeta. fold c. rewrite seq_emit, add_page_app. cbn [app]. fold top.
  assert (E' : (match App.last_analyzed_content (App.session st) with
                | Some last =>
                    if bool_decide (last ≠ c) then analyse c else App.ret tt
                | None => analyse c
                end) = analyse c).
  { destruct (App.last_analyzed_content (App.session st)) as [last|];
      [|reflexivity].
    rewrite bool_decide_eq_true_2; [reflexivity|].
    intros ->. apply Hl. reflexivity. }
  rewrite E'. destruct (fst rd) as [dl|e].
  - rewrite (seq_returns _ _ _ tt _ E).
    match goal with
    | |- App.seq App.show_digest _ ?st0 = _ =>
        rewrite (seq_returns _ _ st0 tt _
                   (show_digest_spec st0 s kp dl att
                      eq_refl eq_refl eq_refl eq_refl))
    end.
    rewrite emit_spec. unfold add_page, with_world, with_session.
    cbn [App.session App.world App.imap_log App.page].
    rewrite <- ?app_assoc. reflexivity.
  - rewrite (seq_raises _ _ _ _ _ E). reflexivity.
Qed.

(** *** One run *)

Lemma run_disconnected choice ss w log :
  ¬ connected ss →
  run choice ss w log
  = (Returns tt,
     {| App.session := ss; App.world := w; App.imap_log := log;
        App.page :=
          [App.Header "Step 2: Browse & Get Digest";
           App.Info "Please connect your email account in Step 1 to browse emails."] |}).
Proof.
  intros H. unfold App.run, App.step2. rewrite seq_emit, seq_get.
  cbn [App.session add_page].
  destruct (App.imap_connection ss) as [mail|] eqn:Em; [|reflexivity].
  destruct (App.recent_emails ss) as [|e es] eqn:Ee; [reflexivity|].
  exfalso. apply H. split; [rewrite Em; eauto | rewrite Ee; discriminate].
Qed.

Lemma run_connected choice ss w log :
  connected ss →
  run choice ss w log
  = App.seq (select (App.email_options (App.recent_emails ss)) choice)
            (λ _, digest_column)
            {| App.session := ss; App.world := w; App.imap_log := log;
               App.page := front_page ss |}.
Proof.
  intros [[mail Em] He]. unfold App.run, App.step2.
  rewrite seq_emit, seq_get. cbn [App.session add_page]. rewrite Em.
  destruct (App.recent_emails ss) as [|e es] eqn:Ee; [contradiction|].
  unfold App.email_column. unfold App.seq at 1.
  rewrite seq_emit, seq_get. cbn [App.session add_page]. rewrite Ee.
  cbv zeta. rewrite seq_emit. unfold front_page. rewrite Ee. reflexivity.
Qed.

(** X13.  When a newly selected email is fetched, has content, and its
    cleaned content is not the one analysed last, the run stores the
    uid and the raw content and calls the four passes on the cleaned
    content.  When they return, it stores their results: the session
    holds the Digest of the cleaned content, and the page shows it.  When
    the deadline extractor raises, the run raises with it: the session
    holds the summary and the key points of the new content, no deadline
    and no attachment, and the content analysed last is what it was. *)
Theorem selected_email_is_digested (ss : App.Session) (w : World)
    (log : list str) (mail : IMAP4) (choice : option str) (u raw : str) :
  App.imap_connection ss = Some mail →
  App.recent_emails ss ≠ [] →
  chosen ss choice = Returns (Some u) →
  u ≠ [] →
  App.selected_email_uid ss ≠ Some u →
  fetch_content mail u (length log) = Some raw →
  raw ≠ [] →
  App.last_analyzed_content ss ≠ Some (clean_email_text raw) →
  let c := clean_email_text raw in
  let selected :=
    App.set_current_email_content (Some raw)
      (App.set_selected_email_uid (Some u) ss) in
  (∀ d w',
     compute_digest summarizer nlp_spacy dateparser_parse clock c w
     = (Returns d, w') →
     run choice ss w log
     = (Returns tt,
        {| App.session :=
             analysed c (summary d) (key_points d) (deadlines d)
                      (attachments d) selected;
           App.world := w';
           App.imap_log := log ++ [u];
           App.page :=
             digest_widgets ss raw (summary d) (key_points d) (deadlines d)
                            (attachments d) |}))
  ∧ (∀ e w',
       compute_digest summarizer nlp_spacy dateparser_parse clock c w
       = (Raises e, w') →
       ∃ s,
         fst (get_summary summarizer c w) = Returns s
         ∧ run choice ss w log
           = (Raises e,
              {| App.session :=
                   half_analysed s (extract_key_points_and_actions nlp_spacy c)
                                 (cleared selected);
                 App.world := w';
                 App.imap_log := log ++ [u];
                 App.page := debug_page ss raw |})).
Proof.
  intros Hm He Hc Hu Hs Hf Hr Hl c selected.
  rewrite run_connected by (split; [rewrite Hm; eauto | exact He]).
  erewrite seq_returns;
    [|apply (select_change _ _ u mail); [exact Hc | exact Hu | exact Hs | exact Hm]].
  cbn [App.imap_log]. rewrite Hf.
  match goal with
  | |- context [digest_column ?st0] =>
      destruct (column_fresh st0 raw eq_refl Hr Hl) as (s & att & Es & Ea & E)
  end.
  cbn [newly_selected App.world] in Es, E. fold c in Es, E.
  rewrite E, (compute_digest_eq summarizer nlp_spacy dateparser_parse clock
                c w s att Es Ea).
  cbv zeta.
  destruct (Zoned.extract_deadlines nlp_spacy dateparser_parse clock c
              (snd (get_summary summarizer c w))) as [[dl|e0] w2];
    cbn [fst snd bind]; split.
  - intros d w' [= <- <-].
    unfold digest_widgets, add_page, with_world, with_session, newly_selected.
    cbn [App.session App.world App.imap_log App.page summary key_points
         deadlines attachments fst snd].
    rewrite app_nil_r, <- ?app_assoc. reflexivity.
  - intros e w' [=].
  - intros d w' [=].
  - intros e w' [= <- <-]. exists s. split; [exact Es|].
    unfold debug_page, add_page, with_world, with_session, newly_selected.
    cbn [App.session App.world App.imap_log App.page fst snd].
    rewrite app_nil_r, <- ?app_assoc. reflexivity.
Qed.

(** X14.  When a newly selected email has the cleaned content that was
    analysed last, no pass runs: the four result keys stay as the
    selection has reset them, and the page shows an empty summary and no
    key point, deadline or attachment, whatever the content holds. *)
Theorem same_content_shows_empty_digest (ss : App.Session) (w : World)
    (log : list str) (mail : IMAP4) (choice : option str) (u raw : str) :
  App.imap_connection ss = Some mail →
  App.recent_emails ss ≠ [] →
  chosen ss choice = Returns (Some u) →
  u ≠ [] →
  App.selected_email_uid ss ≠ Some u →
  fetch_content mail u (length log) = Some raw →
  raw ≠ [] →
  App.last_analyzed_content ss = Some (clean_email_text raw) →
  run choice ss w log
  = (Returns tt,
     {| App.session :=
          cleared (App.set_current_email_content (Some raw)
                     (App.set_selected_email_uid (Some u) ss));
        App.world := w;
        App.imap_log := log ++ [u];
        App.page := digest_widgets ss raw [] [] [] [] |}).
Proof.
  intros Hm He Hc Hu Hs Hf Hr Hl.
  rewrite run_connected by (split; [rewrite Hm; eauto | exact He]).
  erewrite seq_returns;
    [|apply (select_change _ _ u mail); [exact Hc | exact Hu | exact Hs | exact Hm]].
  cbn [App.imap_log]. rewrite Hf.
  match goal with
  | |- digest_column ?st0 = _ =>
      rewrite (column_cached st0 raw [] [] [] [] eq_refl Hr Hl
                 eq_refl eq_refl eq_refl eq_refl)
  end.
  unfold digest_widgets, add_page, newly_selected.
  cbn [App.session App.world App.imap_log App.page].
  rewrite app_nil_r, <- ?app_assoc. reflexivity.
Qed.

(** X15.  When the content of a newly selected email cannot be fetched,
    or is empty, no pass runs and nothing is cleaned: the four result keys
    are reset, the page warns if the fetch has failed and asks to select
    an email. *)
Theorem unfetched_email_no_digest (ss : App.Session) (w : World)
    (log : list str) (mail : IMAP4) (choice : option str) (u : str) :
  App.imap_connection ss = Some mail →
  App.recent_emails ss ≠ [] →
  chosen ss choice = Returns (Some u) →
  u ≠ [] →
  App.selected_email_uid ss ≠ Some u →
  ¬ truthy (fetch_content mail u (length log)) →
  run choice ss w log
  = (Returns tt,
     {| App.session :=
          cleared (App.set_current_email_content
                     (fetch_content mail u (length log))
                     (App.set_selected_email_uid (Some u) ss));
        App.world := w;
        App.imap_log := log ++ [u];
        App.page :=
          front_page ss
          ++ match fetch_content mail u (length log) with
             | None => [fetch_warning u]
             | Some _ => []
             end
          ++ idle_page |}).
Proof.
  intros Hm He Hc Hu Hs Hf.
  rewrite run_connected by (split; [rewrite Hm; eauto | exact He]).
  erewrite seq_returns;
    [|apply (select_change _ _ u mail); [exact Hc | exact Hu | exact Hs | exact Hm]].
  cbn [App.imap_log].
  rewrite column_idle by exact Hf.
  unfold add_page, newly_selected, idle_page.
  cbn [App.session App.world App.imap_log App.page].
  rewrite <- ?app_assoc. reflexivity.
Qed.

(** *** The options of the radio widget *)

Lemma dict_get_set {V : Type} (k k' : str) (v : V) (d : list (str * V)) :
  App.dict_get k (App.dict_set k' v d)
  = if decide (k' = k) then Returns v else App.dict_get k d.
Proof.
  induction d as [|[k0 v0] d IH]; cbn [App.dict_set App.dict_get].
  - reflexivity.
  - destruct (decide (k0 = k')) as [->|H0]; cbn [App.dict_get].
    + destruct (decide (k' = k)); reflexivity.
    + destruct (decide (k0 = k)) as [->|H1].
      * rewrite decide_False by (intros ->; apply H0; reflexivity).
        reflexivity.
      * exact IH.
Qed.

Lemma dict_set_keys {V : Type} (k : str) (v : V) (d : list (str * V)) :
  map fst (App.dict_set k v d)
  = if decide (k ∈ map fst d) then map fst d else map fst d ++ [k].
Proof.
  induction d as [|[k0 v0] d IH]; cbn [App.dict_set map fst].
  - rewrite decide_False by (intros H; inversion H). reflexivity.
  - destruct (decide (k0 = k)) as [->|H0]; cbn [map fst].
    + rewrite decide_True by left. reflexivity.
    + rewrite IH. destruct (decide (k ∈ map fst d)) as [Hin|Hin].
      * rewrite decide_True by (right; exact Hin). reflexivity.
      * rewrite decide_False; [reflexivity|].
        intros H. apply elem_of_cons in H as [H|H]; [|exact (Hin H)].
        apply H0. symmetry. exact H.
Qed.

Lemma dict_get_in {V : Type} (k : str) (d : list (str * V)) :
  k ∈ map fst d → ∃ v, App.dict_get k d = Returns v.
Proof.
  induction d as [|[k0 v0] d IH]; cbn [map fst App.dict_get].
  - intros H. inversion H.
  - intros H. destruct (decide (k0 = k)) as [->|H0]; [eauto|].
    apply elem_of_cons in H as [H|H]; [|exact (IH H)].
    exfalso. apply H0. symmetry. exact H.
Qed.

Lemma email_options_fold (t : str) (emails : list App.EmailInfo) :
  ∀ d,
    App.dict_get t
      (fold_left (λ d e, App.dict_set (App.display_text e) (App.uid e) d)
                 emails d)
    = match last_with_text t emails with
      | Some e => Returns (App.uid e)
      | None => App.dict_get t d
      end.
Proof.
  unfold last_with_text.
  induction emails as [|e es IH]; intros d; cbn [fold_left].
  - reflexivity.
  - rewrite IH, dict_get_set.
    destruct (decide (App.display_text e = t)) as [He|He].
    + rewrite filter_cons_True by exact He. rewrite last_cons.
      destruct (last (filter _ es)); reflexivity.
    + rewrite filter_cons_False by exact He. reflexivity.
Qed.

Lemma email_options_keys (emails : list App.EmailInfo) :
  ∀ d : list (str * str),
    NoDup (map fst d) →
    let d' := fold_left (λ d e, App.dict_set (App.display_text e) (App.uid e) d)
                        emails d in
    NoDup (map fst d')
    ∧ ∀ t, t ∈ map fst d'
           ↔ t ∈ map fst d ∨ ∃ e, e ∈ emails ∧ App.display_text e = t.
Proof.
  induction emails as [|e es IH]; intros d Hd; cbn [fold_left].
  - split; [exact Hd|]. intros t. split; [tauto|].
    intros [H|(e & He & _)]; [exact H | inversion He].
  - assert (Hd' : NoDup (map fst (App.dict_set (App.display_text e)
                                                (App.uid e) d))).
    { rewrite dict_set_keys. destruct (decide _) as [Hin|Hin]; [exact Hd|].
      apply NoDup_app. split; [exact Hd|]. split.
      - intros x Hx Hx'. apply list_elem_of_singleton in Hx' as ->.
        exact (Hin Hx).
      - apply NoDup_singleton. }
    destruct (IH _ Hd') as [Hn Hk]. split; [exact Hn|].
    intros t. rewrite Hk, dict_set_keys. split.
    + intros [H|(e' & He' & Et)].
      * destruct (decide _) as [Hin|Hin]; [left; exact H|].
        apply elem_of_app in H as [H|H]; [left; exact H|].
        apply list_elem_of_singleton in H as ->.
        right. exists e. split; [left | reflexivity].
      * right. exists e'. split; [right; exact He' | exact Et].
    + intros [H|(e' & He' & Et)].
      * left. destruct (decide _); [exact H|].
        apply elem_of_app. left. exact H.
      * apply elem_of_cons in He' as [->|He'].
        -- left. subst t. destruct (decide _) as [Hin|Hin]; [exact Hin|].
           apply elem_of_app. right. left.
        -- right. exists e'. split; [exact He' | exact Et].
Qed.

(** X16.  The radio widget offers each text of sender and subject once;
    an option selects the uid of the last email of the list with that
    text, so that of two emails with the same sender and subject only the
    later one can be selected. *)
Theorem email_options_last_wins (emails : list App.EmailInfo) :
  NoDup (map fst (App.email_options emails))
  ∧ (∀ t, t ∈ map fst (App.email_options emails)
          ↔ ∃ e, e ∈ emails ∧ App.display_text e = t)
  ∧ ∀ t, App.dict_get t (App.email_options emails)
         = match last_with_text t emails with
           | Some e => Returns (App.uid e)
           | None => Raises (Exception "KeyError")
           end.
Proof.
  unfold App.email_options.
  destruct (email_options_keys emails [] (NoDup_nil_2)) as [Hn Hk].
  split; [exact Hn|]. split.
  - intros t. rewrite Hk. split; [|tauto].
    intros [H|H]; [inversion H | exact H].
  - intros t. rewrite email_options_fold. reflexivity.
Qed.

(** *** Runs return *)

Lemma chosen_offered (ss : App.Session) (choice : option str) :
  offered ss choice → ∃ o, chosen ss choice = Returns o.
Proof.
  unfold offered, chosen, App.selected_uid.
  destruct choice as [[|a t]|]; [eauto| |eauto].
  intros H. apply dict_get_in in H as (u & ->). cbn [bind]. eauto.
Qed.

Lemma seq_key_none {A B : Type} (field : App.Session → option A)
    (f : A → App.Script B) st :
  field (App.session st) = None →
  App.seq (App.key field) f st = (Raises (Exception "KeyError"), st).
Proof. intros H. unfold App.seq, App.key. rewrite H. reflexivity. Qed.

Lemma all_set_cleared (ss : App.Session) : all_set (cleared ss).
Proof. repeat split; eexists; reflexivity. Qed.

Lemma all_set_analysed c s kp dl att (ss : App.Session) :
  all_set (analysed c s kp dl att ss).
Proof. repeat split; eexists; reflexivity. Qed.

(** The selection returns when the choice is one of the options; it
    leaves the connection and the list of emails alone. *)
Lemma select_returns (choice : option str) (st : App.State) mail :
  App.imap_connection (App.session st) = Some mail →
  offered (App.session st) choice →
  ∃ st', select (App.email_options (App.recent_emails (App.session st)))
                choice st
         = (Returns tt, st')
         ∧ (complete (App.session st) → complete (App.session st'))
         ∧ App.imap_connection (App.session st')
           = App.imap_connection (App.session st)
         ∧ App.recent_emails (App.session st')
           = App.recent_emails (App.session st).
Proof.
  intros Hm Ho. apply chosen_offered in Ho as (o & Ho). unfold chosen in Ho.
  assert (Hkeep : (truthy o → App.selected_email_uid (App.session st) = o) →
            ∃ st', select (App.email_options
                             (App.recent_emails (App.session st))) choice st
                   = (Returns tt, st')
                   ∧ (complete (App.session st) → complete (App.session st'))
                   ∧ App.imap_connection (App.session st')
                     = App.imap_connection (App.session st)
                   ∧ App.recent_emails (App.session st')
                     = App.recent_emails (App.session st)).
  { intros Hk. exists st. split; [apply (select_keep _ _ o _ Ho Hk)|].
    split; [tauto|]. split; reflexivity. }
  destruct o as [[|a u]|].
  - apply Hkeep. intros (a & t & [=]).
  - destruct (decide (App.selected_email_uid (App.session st) = Some (a :: u)))
      as [E|E]; [apply Hkeep; intros _; exact E|].
    eexists. split.
    + apply (select_change _ _ (a :: u) mail);
        [exact Ho | discriminate | exact E | exact Hm].
    + split; [intros _ _; apply all_set_cleared|]. split; reflexivity.
  - apply Hkeep. intros (a & t & [=]).
Qed.

Lemma complete_half_analysed s kp (ss : App.Session) :
  complete ss → complete (half_analysed s kp ss).
Proof.
  intros Hc Hl. destruct (Hc Hl) as (_ & _ & H3 & H4).
  repeat split; [eexists; reflexivity | eexists; reflexivity | exact H3
                | exact H4].
Qed.

(** On a complete session the right column returns, or it raises the
    TypeError of the deadline extractor; it fails on no missing key. *)
Lemma column_outcome (st : App.State) :
  complete (App.session st) →
  ∃ o st', digest_column st = (o, st')
           ∧ (o = Returns tt ∨ o = Raises (Exception "TypeError"))
           ∧ (no_zone dateparser_parse → o = Returns tt)
           ∧ complete (App.session st')
           ∧ App.imap_connection (App.session st')
             = App.imap_connection (App.session st)
           ∧ App.recent_emails (App.session st')
             = App.recent_emails (App.session st).
Proof.
  intros Hc.
  destruct (App.current_email_content (App.session st)) as [[|a raw]|] eqn:Ec.
  - eexists _, _. split; [apply column_idle|].
    + rewrite Ec. intros (a & t & [=]).
    + split; [left; reflexivity|]. split; [reflexivity|].
      split; [exact Hc|]. split; reflexivity.
  - destruct (decide (App.last_analyzed_content (App.session st)
                      = Some (clean_email_text (a :: raw)))) as [El|El].
    + destruct Hc as ([s H1] & [kp H2] & [dl H3] & [att H4]);
        [rewrite El; eauto|].
      eexists _, _. split.
      * apply (column_cached st (a :: raw) s kp dl att);
          [exact Ec | discriminate | exact El | exact H1 | exact H2
          | exact H3 | exact H4].
      * split; [left; reflexivity|]. split; [reflexivity|].
        split; [|split; reflexivity].
        intros _. repeat split; eauto.
    + destruct (column_fresh st (a :: raw) Ec ltac:(discriminate) El)
        as (s & att & _ & _ & E).
      cbv zeta in E.
      destruct (Zoned.extract_deadlines nlp_spacy dateparser_parse clock
                  (clean_email_text (a :: raw))
                  (snd (get_summary summarizer (clean_email_text (a :: raw))
                          (App.world st)))) as [[dl|e] w2] eqn:Ez;
        cbn [fst snd] in E.
      * eexists _, _. split; [exact E|].
        split; [left; reflexivity|]. split; [reflexivity|].
        split; [intros _; apply all_set_analysed|]. split; reflexivity.
      * pose proof (zoned_extract_raises _ _ _ _ _ _ _ Ez) as ->.
        eexists _, _. split; [exact E|].
        split; [right; reflexivity|]. split.
        { intros Hz.
          destruct (zoned_extract_no_zone nlp_spacy dateparser_parse clock
                      (clean_email_text (a :: raw))
                      (snd (get_summary summarizer
                              (clean_email_text (a :: raw)) (App.world st)))
                      Hz) as (l & w' & Er).
          rewrite Er in Ez. discriminate Ez. }
        split; [apply complete_half_analysed, Hc|]. split; reflexivity.
  - eexists _, _. split; [apply column_idle|].
    + rewrite Ec. intros (a & t & [=]).
    + split; [left; reflexivity|]. split; [reflexivity|].
      split; [exact Hc|]. split; reflexivity.
Qed.

(** A fresh session has analysed nothing, and is complete. *)
Lemma fresh_complete : complete App.fresh.
Proof. intros [x H]. discriminate H. Qed.

Lemma connected_dec (ss : App.Session) : connected ss ∨ ¬ connected ss.
Proof.
  unfold connected.
  destruct (App.imap_connection ss) as [mail|];
    [|right; intros [[x H] _]; discriminate H].
  destruct (App.recent_emails ss) as [|e es];
    [right; intros [_ H]; apply H; reflexivity|].
  left. split; [eauto | discriminate].
Qed.

Lemma run_outcome (choice : option str) (ss : App.Session) (w : World)
    (log : list str) :
  complete ss →
  offered ss choice →
  ∃ o st', run choice ss w log = (o, st')
           ∧ (o = Returns tt ∨ o = Raises (Exception "TypeError"))
           ∧ (no_zone dateparser_parse → o = Returns tt)
           ∧ complete (App.session st')
           ∧ App.recent_emails (App.session st') = App.recent_emails ss.
Proof.
  intros Hc Ho. destruct (connected_dec ss) as [Hn|Hn].
  - rewrite (run_connected _ _ _ _ Hn). destruct Hn as [[mail Hm] He].
    match goal with
    | |- ∃ o st', App.seq _ _ ?st0 = _ ∧ _ =>
        destruct (select_returns choice st0 mail Hm Ho)
          as (st1 & E1 & C1 & M1 & R1)
    end.
    cbn [App.session] in E1, C1, M1, R1.
    rewrite (seq_returns _ _ _ tt _ E1).
    destruct (column_outcome st1 (C1 Hc))
      as (o & st2 & E2 & O2 & Z2 & C2 & M2 & R2).
    exists o, st2. split; [exact E2|]. split; [exact O2|].
    split; [exact Z2|]. split; [exact C2|]. congruence.
  - rewrite (run_disconnected _ _ _ _ Hn). eexists _, _.
    split; [reflexivity|]. split; [left; reflexivity|].
    split; [reflexivity|]. split; [exact Hc | reflexivity].
Qed.


(** *** A run on the state it has left *)

Lemma seq_points {B : Type} (kp : list str) (f : unit → App.Script B) st :
  App.seq
    match kp with
    | [] => App.emit (App.Info "No distinct crucial points or action items identified.")
    | _ :: _ =>
        App.seq (App.emit (App.Subheader "Crucial Points / Action Items"))
          (λ _, App.emit_all (map (λ point, App.Markdown ("- " ++ point)) kp))
    end f st
  = f tt (add_page
            match kp with
            | _ :: _ => App.Subheader "Crucial Points / Action Items"
                        :: map (λ point, App.Markdown ("- " ++ point)) kp
            | [] => [App.Info "No distinct crucial points or action items identified."]
            end st).
Proof.
  destruct kp; [reflexivity|].
  unfold App.seq at 1. rewrite seq_emit, emit_all_spec, add_page_app.
  reflexivity.
Qed.

Lemma seq_dates {B : Type} (dl : list str) (f : unit → App.Script B) st :
  App.seq
    match dl with
    | [] => App.emit (App.Info "No specific deadlines found.")
    | _ :: _ =>
        App.seq (App.emit (App.Subheader "Deadlines Detected"))
          (λ _, App.emit_all (map (λ deadline, App.Write ("- " ++ deadline)) dl))
    end f st
  = f tt (add_page
            match dl with
            | _ :: _ => App.Subheader "Deadlines Detected"
                        :: map (λ deadline, App.Write ("- " ++ deadline)) dl
            | [] => [App.Info "No specific deadlines found."]
            end st).
Proof.
  destruct dl; [reflexivity|].
  unfold App.seq at 1. rewrite seq_emit, emit_all_spec, add_page_app.
  reflexivity.
Qed.

(** If the digest is shown, the four keys are there. *)
Lemma show_digest_inv (st st' : App.State) a :
  App.show_digest st = (Returns a, st') → all_set (App.session st).
Proof.
  intros H. unfold all_set.
  destruct (App.summary (App.session st)) as [s|] eqn:H1.
  2:{ exfalso. unfold App.show_digest in H.
      rewrite seq_emit, seq_key_none in H by exact H1. discriminate H. }
  destruct (App.key_points (App.session st)) as [kp|] eqn:H2.
  2:{ exfalso. unfold App.show_digest in H.
      rewrite seq_emit, (seq_key _ s), seq_emit, seq_key_none in H
        by first [exact H1 | exact H2].
      discriminate H. }
  destruct (App.deadlines (App.session st)) as [dl|] eqn:H3.
  2:{ exfalso. unfold App.show_digest in H.
      rewrite seq_emit, (seq_key _ s), seq_emit, (seq_key _ kp), seq_points,
        seq_key_none in H by first [exact H1 | exact H2 | exact H3].
      discriminate H. }
  destruct (App.attachments (App.session st)) as [att|] eqn:H4.
  2:{ exfalso. unfold App.show_digest in H.
      rewrite seq_emit, (seq_key _ s), seq_emit, (seq_key _ kp), seq_points,
        (seq_key _ dl), seq_dates, seq_key_none in H
        by first [exact H1 | exact H2 | exact H3 | exact H4].
      discriminate H. }
  repeat split; eauto.
Qed.

(** What the right column leaves when it returns. *)
Lemma column_inv (st st1 : App.State) :
  digest_column st = (Returns tt, st1) →
  App.imap_connection (App.session st1) = App.imap_connection (App.session st)
  ∧ App.recent_emails (App.session st1) = App.recent_emails (App.session st)
  ∧ App.selected_email_uid (App.session st1)
    = App.selected_email_uid (App.session st)
  ∧ (truthy (App.current_email_content (App.session st1)) →
     all_set (App.session st1)
     ∧ App.last_analyzed_content (App.session st1)
       = option_map clean_email_text
           (App.current_email_content (App.session st1))).
Proof.
  intros H.
  assert (Hidle : ¬ truthy (App.current_email_content (App.session st)) →
            App.imap_connection (App.session st1)
            = App.imap_connection (App.session st)
            ∧ App.recent_emails (App.session st1)
              = App.recent_emails (App.session st)
            ∧ App.selected_email_uid (App.session st1)
              = App.selected_email_uid (App.session st)
            ∧ (truthy (App.current_email_content (App.session st1)) →
               all_set (App.session st1)
               ∧ App.last_analyzed_content (App.session st1)
                 = option_map clean_email_text
                     (App.current_email_content (App.session st1)))).
  { intros Hn. rewrite (column_idle st Hn) in H. apply (f_equal snd) in H. cbn [snd] in H. subst st1.
    cbn [add_page App.session]. repeat split; tauto. }
  destruct (App.current_email_content (App.session st)) as [[|a raw]|] eqn:Ec.
  - apply Hidle. intros (a & t & [=]).
  - destruct (decide (App.last_analyzed_content (App.session st)
                      = Some (clean_email_text (a :: raw)))) as [El|El].
    + assert (Hall : all_set (App.session st)).
      { unfold App.digest_column in H.
        rewrite seq_emit, seq_get in H. cbn [App.session add_page] in H.
        rewrite Ec in H. cbv zeta in H. rewrite seq_emit, El in H.
        rewrite bool_decide_eq_false_2 in H
          by (intros H'; apply H'; reflexivity).
        rewrite seq_ret in H. unfold App.seq at 1 in H.
        match type of H with
        | context [App.show_digest ?st0] =>
            destruct (App.show_digest st0) as [[x|e] st'] eqn:Es;
            [exact (show_digest_inv _ _ _ Es) | discriminate H]
        end. }
      destruct Hall as ([s H1] & [kp H2] & [dl H3] & [att H4]).
      rewrite (column_cached st (a :: raw) s kp dl att Ec
                 ltac:(discriminate) El H1 H2 H3 H4) in H.
      apply (f_equal snd) in H. cbn [snd] in H. subst st1. cbn [add_page App.session].
      split; [reflexivity|]. split; [reflexivity|]. split; [reflexivity|].
      intros _. rewrite Ec. split; [|exact El].
      repeat split; eauto.
    + destruct (column_fresh st (a :: raw) Ec ltac:(discriminate) El)
        as (s & att & _ & _ & E).
      cbv zeta in E. rewrite E in H.
      destruct (fst (Zoned.extract_deadlines nlp_spacy dateparser_parse clock
                       (clean_email_text (a :: raw))
                       (snd (get_summary summarizer
                               (clean_email_text (a :: raw)) (App.world st)))))
        as [dl|e]; [|discriminate H].
      apply (f_equal snd) in H. cbn [snd] in H. subst st1.
      split; [reflexivity|]. split; [reflexivity|]. split; [reflexivity|].
      intros _. split; [apply all_set_analysed|].
      cbn [add_page with_world with_session App.session analysed
           App.set_last_analyzed_content App.last_analyzed_content
           App.current_email_content App.set_attachments App.set_deadlines
           App.set_key_points App.set_summary].
      rewrite Ec. reflexivity.
  - apply Hidle. intros (a & t & [=]).
Qed.

Lemma run_at_rest (choice : option str) (ss : App.Session) (w : World)
    (log : list str) :
  connected ss →
  at_rest choice ss →
  ∃ pg, run choice ss w log
        = (Returns tt,
           {| App.session := ss; App.world := w; App.imap_log := log;
              App.page := pg |}).
Proof.
  intros Hn (o & Ho & Hs & Hc). rewrite (run_connected _ _ _ _ Hn).
  match goal with
  | |- context [App.seq _ _ ?st0] =>
      rewrite (seq_returns _ _ st0 tt _ (select_keep _ _ o st0 Ho Hs))
  end.
  destruct (App.current_email_content ss) as [[|a raw]|] eqn:Ec.
  - rewrite column_idle by (cbn [App.session]; rewrite Ec; intros (a & t & [=])).
    eexists. reflexivity.
  - destruct Hc as [([s H1] & [kp H2] & [dl H3] & [att H4]) El];
      [eexists _, _; reflexivity|].
    cbn [option_map] in El.
    match goal with
    | |- ∃ pg, digest_column ?st0 = _ =>
        rewrite (column_cached st0 (a :: raw) s kp dl att Ec
                   ltac:(discriminate) El H1 H2 H3 H4)
    end.
    eexists. reflexivity.
  - rewrite column_idle by (cbn [App.session]; rewrite Ec; intros (a & t & [=])).
    eexists. reflexivity.
Qed.

Lemma run_reaches_rest (choice : option str) (ss : App.Session) (w : World)
    (log : list str) (st1 : App.State) :
  connected ss →
  run choice ss w log = (Returns tt, st1) →
  connected (App.session st1) ∧ at_rest choice (App.session st1).
Proof.
  intros Hn H. rewrite (run_connected _ _ _ _ Hn) in H.
  destruct Hn as [[mail Hm] He].
  destruct (chosen ss choice) as [o|e] eqn:Ho.
  2:{ unfold chosen in Ho.
      rewrite (seq_raises _ _ _ _ _ (select_raise _ _ e _ Ho)) in H.
      discriminate H. }
  assert (Hpost : ∀ st_a,
            App.imap_connection (App.session st_a) = Some mail →
            App.recent_emails (App.session st_a) = App.recent_emails ss →
            (truthy o → App.selected_email_uid (App.session st_a) = o) →
            digest_column st_a = (Returns tt, st1) →
            connected (App.session st1) ∧ at_rest choice (App.session st1)).
  { intros st_a Ha1 Ha2 Ha3 Hcol.
    apply column_inv in Hcol as (C1 & C2 & C3 & C4). split.
    - split; [rewrite C1, Ha1; eauto | rewrite C2, Ha2; exact He].
    - exists o. split; [unfold chosen; rewrite C2, Ha2; exact Ho|].
      split; [rewrite C3; exact Ha3 | exact C4]. }
  unfold chosen in Ho.
  assert (Hkeep : (truthy o → App.selected_email_uid ss = o) →
            connected (App.session st1) ∧ at_rest choice (App.session st1)).
  { intros Hk.
    match type of H with
    | context [App.seq _ _ ?st0] =>
        rewrite (seq_returns _ _ st0 tt _ (select_keep _ _ o st0 Ho Hk)) in H
    end.
    refine (Hpost _ _ _ _ H); [exact Hm | reflexivity | exact Hk]. }
  destruct o as [[|a u]|].
  - apply Hkeep. intros (a & t & [=]).
  - destruct (decide (App.selected_email_uid ss = Some (a :: u))) as [E|E];
      [apply Hkeep; intros _; exact E|].
    match type of H with
    | context [App.seq _ _ ?st0] =>
        rewrite (seq_returns _ _ st0 tt _
                   (select_change _ _ (a :: u) mail st0 Ho
                      ltac:(discriminate) E Hm)) in H
    end.
    refine (Hpost _ _ _ _ H); [exact Hm | reflexivity | reflexivity].
  - apply Hkeep. intros (a & t & [=]).
Qed.

(** X18.  A run on the state that a run with the same choice has left
    changes nothing: the session state stays as it is, no email is
    fetched, the model is not called and the clock is not read. *)
Theorem rerun_changes_nothing (choice : option str) (ss : App.Session)
    (w : World) (log : list str) (st1 : App.State) :
  run choice ss w log = (Returns tt, st1) →
  ∃ pg, run choice (App.session st1) (App.world st1) (App.imap_log st1)
        = (Returns tt,
           {| App.session := App.session st1; App.world := App.world st1;
              App.imap_log := App.imap_log st1; App.page := pg |}).
Proof.
  intros H. destruct (connected_dec ss) as [Hn|Hn].
  - destruct (run_reaches_rest _ _ _ _ _ Hn H) as [Hn1 Hr].
    apply run_at_rest; assumption.
  - rewrite (run_disconnected _ _ _ _ Hn) in H. apply (f_equal snd) in H. cbn [snd] in H. subst st1.
    cbn [App.session App.world App.imap_log].
    rewrite (run_disconnected _ _ _ _ Hn). eexists. reflexivity.
Qed.

End StepFacts.


(** ** Runs of the page on a mailbox with two messages *)

(** The first email of the mailbox, and the email that names a time
    zone. *)
Lemma selected_email_is_digested_witness :
  (∃ d w',
     compute_digest Runs.summarize Runs.nlp Runs.parse_naive
                    (fun _ => Runs.dec1)
                    (clean_email_text ("Hello  there" : str)) Runs.w0
     = (Returns d, w')
     ∧ Inbox.run (Some Inbox.option_ann) Inbox.listed Runs.w0 []
       = (Returns tt,
          {| App.session :=
               analysed (clean_email_text ("Hello  there" : str))
                 (summary d) (key_points d) (deadlines d) (attachments d)
                 (App.set_current_email_content (Some ("Hello  there" : str))
                    (App.set_selected_email_uid (Some ("1" : str))
                       Inbox.listed));
             App.world := w';
             App.imap_log := [] ++ [("1" : str)];
             App.page :=
               digest_widgets Inbox.listed ("Hello  there" : str) (summary d)
                 (key_points d) (deadlines d) (attachments d) |}))
  ∧ ∃ s w',
      Inbox.run_call (Some Inbox.option_ann) Inbox.listed Runs.w0 []
      = (Raises (Exception "TypeError"),
         {| App.session :=
              half_analysed s
                (extract_key_points_and_actions Runs.call_nlp
                   (clean_email_text Runs.call_text))
                (cleared
                   (App.set_current_email_content (Some Runs.call_text)
                      (App.set_selected_email_uid (Some ("1" : str))
                         Inbox.listed)));
            App.world := w';
            App.imap_log := [] ++ [("1" : str)];
            App.page := debug_page Inbox.listed Runs.call_text |}).
Proof.
  split.
  - destruct (selected_email_is_digested Runs.summarize Runs.nlp
                Runs.parse_naive (fun _ => Runs.dec1) Inbox.fetch Inbox.parse
                Inbox.decode Inbox.listed Runs.w0 [] 0 (Some Inbox.option_ann)
                ("1" : str) ("Hello  there" : str)) as [H _].
    + reflexivity.
    + discriminate.
    + vm_compute. reflexivity.
    + discriminate.
    + discriminate.
    + vm_compute. reflexivity.
    + discriminate.
    + discriminate.
    + eexists _, _. split; [vm_compute; reflexivity|].
      unfold Inbox.run. apply H. vm_compute. reflexivity.
  - destruct (selected_email_is_digested Runs.summarize Runs.call_nlp
                Runs.call_parse (fun _ => Runs.dec1) Inbox.fetch_call
                Inbox.parse Inbox.decode Inbox.listed Runs.w0 [] 0
                (Some Inbox.option_ann) ("1" : str) Runs.call_text)
      as [_ H].
    + reflexivity.
    + discriminate.
    + vm_compute. reflexivity.
    + discriminate.
    + discriminate.
    + vm_compute. reflexivity.
    + discriminate.
    + discriminate.
    + destruct (H (Exception "TypeError")
                  (snd (compute_digest Runs.summarize Runs.call_nlp
                          Runs.call_parse (fun _ => Runs.dec1)
                          (clean_email_text Runs.call_text) Runs.w0)))
        as (s & _ & E).
      * vm_compute. reflexivity.
      * exists s. eexists. unfold Inbox.run_call. exact E.
Defined.

Lemma same_content_shows_empty_digest_witness :
  let raw : str := "<p>Hello there</p>" in
  Inbox.run (Some Inbox.option_bob) (App.session Inbox.first_run)
            (App.world Inbox.first_run) (App.imap_log Inbox.first_run)
  = (Returns tt,
     {| App.session :=
          cleared (App.set_current_email_content (Some raw)
                     (App.set_selected_email_uid (Some ("2" : str))
                        (App.session Inbox.first_run)));
        App.world := App.world Inbox.first_run;
        App.imap_log := App.imap_log Inbox.first_run ++ [("2" : str)];
        App.page := digest_widgets (App.session Inbox.first_run) raw
                                   [] [] [] [] |}).
Proof.
  intros raw. unfold Inbox.run.
  apply (same_content_shows_empty_digest Runs.summarize Runs.nlp
           Runs.parse_naive
           (fun _ => Runs.dec1) Inbox.fetch Inbox.parse Inbox.decode
           (App.session Inbox.first_run) (App.world Inbox.first_run)
           (App.imap_log Inbox.first_run) 0 (Some Inbox.option_bob)
           ("2" : str) raw).
  - vm_compute. reflexivity.
  - vm_compute. discriminate.
  - vm_compute. reflexivity.
  - discriminate.
  - vm_compute. discriminate.
  - vm_compute. reflexivity.
  - discriminate.
  - vm_compute. reflexivity.
Defined.

Lemma unfetched_email_no_digest_witness :
  Inbox.run (Some Inbox.option_dan) Inbox.listed Runs.w0 []
  = (Returns tt,
     {| App.session :=
          cleared (App.set_current_email_content None
                     (App.set_selected_email_uid (Some ("4" : str))
                        Inbox.listed));
        App.world := Runs.w0;
        App.imap_log := [("4" : str)];
        App.page := front_page Inbox.listed
                    ++ [fetch_warning ("4" : str)] ++ idle_page |}).
Proof.
  unfold Inbox.run.
  rewrite (unfetched_email_no_digest Runs.summarize Runs.nlp
             Runs.parse_naive
             (fun _ => Runs.dec1) Inbox.fetch Inbox.parse Inbox.decode
             Inbox.listed Runs.w0 [] 0 (Some Inbox.option_dan) ("4" : str)).
  - vm_compute. reflexivity.
  - reflexivity.
  - discriminate.
  - vm_compute. reflexivity.
  - discriminate.
  - discriminate.
  - vm_compute. intros (a & t & [=]).
Defined.


Lemma rerun_changes_nothing_witness :
  ∃ pg, Inbox.run (Some Inbox.option_ann) (App.session Inbox.first_run)
                  (App.world Inbox.first_run) (App.imap_log Inbox.first_run)
        = (Returns tt,
           {| App.session := App.session Inbox.first_run;
              App.world := App.world Inbox.first_run;
              App.imap_log := App.imap_log Inbox.first_run;
              App.page := pg |}).
Proof.
  unfold Inbox.run.
  apply (rerun_changes_nothing Runs.summarize Runs.nlp Runs.parse_naive
           (fun _ => Runs.dec1) Inbox.fetch Inbox.parse Inbox.decode
           (Some Inbox.option_ann) Inbox.listed Runs.w0 [] Inbox.first_run).
  vm_compute. reflexivity.
Defined.


(** * Properties of the list of recent emails *)

Section RecentFacts.

Variable imap_select : IMAP4 -> string -> nat -> outcome (str * list item).
Variable imap_search :
  IMAP4 -> string -> nat -> outcome (str * list (option bytes)).
Variable imap_fetch :
  IMAP4 -> message_set -> string -> nat -> outcome (str * list item).
Variable message_from_bytes : bytes -> Message.
Variable decode_header : option str -> outcome (list (chunk * option str)).
Variable bytes_repr : bytes -> str.
Variable encode_latin1 : str -> outcome bytes.
Variable decode_strict : bytes -> str -> outcome str.

Local Abbreviation entry :=
  (header_entry imap_fetch message_from_bytes decode_header bytes_repr
                encode_latin1 decode_strict).
Local Abbreviation entries :=
  (header_loop imap_fetch message_from_bytes decode_header bytes_repr
               encode_latin1 decode_strict).
Local Abbreviation recent_emails :=
  (fetch_recent_emails imap_select imap_search imap_fetch message_from_bytes
                       decode_header bytes_repr encode_latin1 decode_strict).

Local Abbreviation made_from := (made_of decode_strict).

Lemma header_entry_uid (mail : IMAP4) (id : bytes) (n : nat) e :
  entry mail id n = Returns (Some e) → made_from e id.
Proof.
  unfold header_entry, made_of.
  destruct (decode_strict id "utf-8") as [uid|x]; cbn [bind]; [|discriminate].
  destruct (imap_fetch _ _ _ _) as [[status msg_data]|x]; cbn [bind];
    [|discriminate].
  destruct (bool_decide _); [discriminate|].
  destruct (index msg_data 0) as [first|x]; cbn [bind]; [|discriminate].
  destruct (literal_of first) as [raw|x]; cbn [bind]; [|discriminate].
  destruct (header_text _ _ _ _ _) as [sender|x]; cbn [bind]; [|discriminate].
  destruct (header_text _ _ _ _ _) as [subject|x]; cbn [bind]; [|discriminate].
  intros [= <-]. reflexivity.
Qed.

Lemma header_loop_spec (mail : IMAP4) (ids : list bytes) :
  ∀ n acc l,
    entries mail ids n acc = Returns l →
    ∃ l' kept, l = acc ++ l' ∧ sublist kept ids ∧ Forall2 made_from l' kept.
Proof.
  induction ids as [|id ids IH]; intros n acc l; cbn [header_loop].
  - intros [= <-]. exists [], []. rewrite app_nil_r.
    split; [reflexivity|]. split; constructor.
  - destruct (entry mail id n) as [o|x] eqn:Ee; cbn [bind]; [|discriminate].
    intros H. apply IH in H as (l' & kept & -> & Hs & Hf).
    destruct o as [e|]; cbn [option_list].
    + exists (e :: l'), (id :: kept). rewrite <- app_assoc.
      split; [reflexivity|]. split; [apply sublist_skip; exact Hs|].
      constructor; [exact (header_entry_uid _ _ _ _ Ee) | exact Hf].
    + exists l', kept. rewrite app_nil_r.
      split; [reflexivity|]. split; [apply sublist_cons; exact Hs | exact Hf].
Qed.

Lemma header_loop_raises (mail : IMAP4) (id : bytes) (post : list bytes) x
    (pre : list bytes) :
  ∀ n acc,
    entry mail id (n + length pre) = Raises x →
    ∃ x', entries mail (pre ++ id :: post) n acc = Raises x'.
Proof.
  induction pre as [|p pre IH]; intros n acc H; cbn [app header_loop].
  - cbn [length] in H. rewrite Nat.add_0_r in H. rewrite H. cbn [bind]. eauto.
  - destruct (entry mail p n) as [o|x0]; cbn [bind]; [|eauto].
    apply IH. cbn [length] in H. rewrite Nat.add_succ_r in H. exact H.
Qed.

Lemma slice_from_last {A : Type} (l : list A) (k : Z) :
  (0 < k)%Z → (Z.of_nat (length (slice_from l (- k))) ≤ k)%Z.
Proof.
  intros Hk. unfold slice_from.
  replace (- k <? 0)%Z with true by (symmetry; apply Z.ltb_lt; lia).
  rewrite length_drop. lia.
Qed.

(** X19.  The entries that [fetch_recent_emails] returns are made, in
    the order of the mailbox, from ids among the last [num_emails] ids of
    the search result, each id giving at most one entry whose uid is the
    id decoded; for a positive [num_emails] there are at most that many
    entries. *)
Theorem recent_emails_from_last_ids (mail : IMAP4) (num_emails : Z) (n : nat)
    (status : str) (line : bytes) (rest : list (option bytes)) :
  imap_search mail "ALL" (S n) = Returns (status, Some line :: rest) →
  let recent_ids := slice_from (bytes_split line) (- num_emails) in
  let result := recent_emails mail num_emails n in
  (∃ kept, sublist kept recent_ids ∧ Forall2 made_from result kept)
  ∧ ((0 < num_emails)%Z → (Z.of_nat (length result) ≤ num_emails)%Z).
Proof.
  intros Hs recent_ids result.
  assert (H : ∃ kept, sublist kept recent_ids ∧ Forall2 made_from result kept).
  { assert (Hnil : ∃ kept, sublist kept recent_ids
                           ∧ Forall2 made_from [] kept).
    { exists []. split; [apply sublist_nil_l | constructor]. }
    subst result. unfold fetch_recent_emails.
    destruct (imap_select mail "INBOX" n) as [[st0 messages]|x]; cbn [bind];
      [|exact Hnil].
    destruct (bool_decide (st0 ≠ _)); [exact Hnil|].
    rewrite Hs. cbn [bind].
    destruct (bool_decide (status ≠ _)); [exact Hnil|].
    cbn [index lookup list_lookup bind split_first]. fold recent_ids.
    destruct (entries mail recent_ids (S (S n)) []) as [l|x] eqn:El;
      [|exact Hnil].
    apply header_loop_spec in El as (l' & kept & -> & Hsub & Hf).
    exists kept. split; [exact Hsub | exact Hf]. }
  split; [exact H|]. intros Hk.
  destruct H as (kept & Hsub & Hf).
  apply Forall2_length in Hf. apply sublist_length in Hsub.
  pose proof (slice_from_last (bytes_split line) num_emails Hk) as Hl.
  fold recent_ids in Hl. lia.
Qed.

(** X20.  One failure empties the list: when, for one of the ids
    looked at, the loop body raises (its uid or a header cannot be decoded,
    the FETCH command raises, or its data are not a pair), the result is
    the empty list, whatever the other messages are. *)
Theorem one_failure_empties_list (mail : IMAP4) (num_emails : Z) (n : nat)
    (status : str) (line : bytes) (rest : list (option bytes))
    (pre : list bytes) (id : bytes) (post : list bytes) (x : exn) :
  imap_search mail "ALL" (S n) = Returns (status, Some line :: rest) →
  slice_from (bytes_split line) (- num_emails) = pre ++ id :: post →
  entry mail id (S (S n) + length pre) = Raises x →
  recent_emails mail num_emails n = [].
Proof.
  intros Hs Hr He. unfold fetch_recent_emails.
  destruct (imap_select mail "INBOX" n) as [[st0 messages]|x0]; cbn [bind];
    [|reflexivity].
  destruct (bool_decide (st0 ≠ _)); [reflexivity|].
  rewrite Hs. cbn [bind].
  destruct (bool_decide (status ≠ _)); [reflexivity|].
  cbn [index lookup list_lookup bind split_first]. rewrite Hr.
  destruct (header_loop_raises mail id post x pre (S (S n)) [] He) as (x' & ->).
  reflexivity.
Qed.

End RecentFacts.

Lemma recent_emails_from_last_ids_witness :
  Inbox.recent 3
  = [ {| App.uid := "1"; App.from := "ann@x.org"; App.subject := "Hello" |};
      {| App.uid := "2"; App.from := "bob@x.org"; App.subject := "Hello" |} ]
  ∧ (Z.of_nat (length (Inbox.recent 3)) ≤ 3)%Z.
Proof.
  split; [vm_compute; reflexivity|].
  unfold Inbox.recent.
  apply (recent_emails_from_last_ids Inbox.select Inbox.search Inbox.fetch
           Inbox.parse Inbox.decode_header Inbox.bytes_repr
           Inbox.encode_latin1 Inbox.decode 0 3 0 ("OK" : str)
           (Inbox.b "5 1 7 2") []).
  - reflexivity.
  - reflexivity.
Defined.

Lemma one_failure_empties_list_witness : Inbox.recent 20 = [].
Proof.
  unfold Inbox.recent.
  apply (one_failure_empties_list Inbox.select Inbox.search Inbox.fetch
           Inbox.parse Inbox.decode_header Inbox.bytes_repr
           Inbox.encode_latin1 Inbox.decode 0 20 0 ("OK" : str)
           (Inbox.b "5 1 7 2") [] [] (Inbox.b "5")
           [Inbox.b "1"; Inbox.b "7"; Inbox.b "2"] (Exception "TypeError")).
  - reflexivity.
  - vm_compute. reflexivity.
  - vm_compute. reflexivity.
Defined.


(** * No tag is left in the cleaned text *)

Section FirstCharacters.

Lemma sem_same_place r c g c' g' :
  sem r c g c' g' → length (after c') = length (after c) → after c' = after c.
Proof.
  intros H Hl. apply sem_forward in H as (s & E & _).
  rewrite E, length_app in Hl. destruct s; [rewrite E; reflexivity|].
  simpl in Hl. lia.
Qed.

Lemma sem_nullable r c g c' g' :
  sem r c g c' g' → length (after c') = length (after c) → nullable r = true.
Proof.
  induction 1 as [c g|p a bef t g Ha|r1 r2 c g c1 g1 c2 g2 H1 IH1 H2 IH2
                  |r1 r2 c g c' g' _ IH|r1 r2 c g c' g' _ IH
                  |hi gr r c g|lo hi gr r c g c1 g1 c2 g2 H1 IH1 H2 IH2
                  |n r c g c1 g1 _ IH|c g _|c g _|c g _];
    cbn [nullable after length]; intros Hl; try reflexivity.
  - lia.
  - pose proof (sem_shorter _ _ _ _ _ H1). pose proof (sem_shorter _ _ _ _ _ H2).
    rewrite IH1, IH2 by lia. reflexivity.
  - rewrite IH by exact Hl. reflexivity.
  - rewrite IH by exact Hl. apply orb_true_r.
  - pose proof (sem_shorter _ _ _ _ _ H1). pose proof (sem_shorter _ _ _ _ _ H2).
    rewrite IH1 by lia. apply orb_true_r.
  - apply IH. exact Hl.
Qed.

(** A match that takes characters begins with a character the pattern
    may begin with. *)
Lemma sem_first r c g c' g' :
  sem r c g c' g' →
  ∀ a t, after c = a :: t →
         length (after c') < length (after c) →
         first_may r a = true.
Proof.
  induction 1 as [c g|p a0 bef t0 g Ha|r1 r2 c g c1 g1 c2 g2 H1 IH1 H2 IH2
                  |r1 r2 c g c' g' _ IH|r1 r2 c g c' g' _ IH
                  |hi gr r c g|lo hi gr r c g c1 g1 c2 g2 H1 IH1 H2 IH2
                  |n r c g c1 g1 _ IH|c g _|c g _|c g _];
    cbn [first_may]; intros a t Ea Hl; try lia.
  - cbn [after] in Ea. injection Ea as <- _. exact Ha.
  - pose proof (sem_shorter _ _ _ _ _ H1) as L1.
    destruct (decide (length (after c1) = length (after c))) as [E|E].
    + rewrite (sem_nullable _ _ _ _ _ H1 E).
      assert (E2 : first_may r2 a = true).
      { apply (IH2 a t);
          [rewrite (sem_same_place _ _ _ _ _ H1 E); exact Ea | lia]. }
      rewrite E2. apply orb_true_r.
    + rewrite (IH1 a t Ea) by lia. reflexivity.
  - rewrite (IH a t Ea Hl). reflexivity.
  - rewrite (IH a t Ea Hl). apply orb_true_r.
  - pose proof (sem_shorter _ _ _ _ _ H1) as L1.
    destruct (decide (length (after c1) = length (after c))) as [E|E].
    + apply (IH2 a t);
        [rewrite (sem_same_place _ _ _ _ _ H1 E); exact Ea | lia].
    + apply (IH1 a t Ea). lia.
  - exact (IH a t Ea Hl).
Qed.

(** No match begins at a character the pattern cannot begin with. *)
Lemma attempt_none_first r bef a (t : str) :
  1 ≤ minlen r → first_may r a = false →
  attempt r (Cursor bef (a :: t)) = [].
Proof.
  intros Hm Hf.
  destruct (attempt_minlen r [] Hm (Nat.le_0_l _) (Cursor bef (a :: t)))
    as [E|(mt & E & _)]; [exact E|].
  exfalso.
  assert (Hin : mt ∈ attempt r (Cursor bef (a :: t))) by (rewrite E; left).
  apply attempt_match in Hin as (ma & res & Hres & _).
  apply match_at_sound in Hres.
  pose proof (sem_minlen _ _ _ _ _ Hres) as Hl.
  rewrite (sem_first _ _ _ _ _ Hres a t eq_refl) in Hf; [discriminate|lia].
Qed.

Lemma attempt_none_end r bef :
  1 ≤ minlen r → attempt r (Cursor bef []) = [].
Proof.
  intros Hm.
  destruct (attempt_minlen r [] Hm (Nat.le_0_l _) (Cursor bef []))
    as [E|(mt & _ & H1 & H2)]; [exact E|].
  cbn [after length] in H2. lia.
Qed.

End FirstCharacters.

Section TagFree.

Lemma ok_after_prefix (t v : str) : ok_after (t ++ v) → ok_after t.
Proof.
  intros [H|[(w & H)|H]].
  - left. apply app_eq_nil in H as [H _]. exact H.
  - destruct t as [|a t']; [left; reflexivity|].
    right. left. injection H as -> _. eauto.
  - right. right. intros Hin. apply H, elem_of_app. left. exact Hin.
Qed.

Lemma tagfree_suffix (u s : str) : tagfree (u ++ s) → tagfree s.
Proof.
  induction u as [|a u IH]; [tauto|]. intros [_ H]. exact (IH H).
Qed.

Lemma tagfree_prefix (s v : str) : tagfree (s ++ v) → tagfree s.
Proof.
  induction s as [|a s IH]; [intros _; exact I|].
  cbn [app tagfree]. intros [H1 H2]. split; [|exact (IH H2)].
  intros Ha. exact (ok_after_prefix _ _ (H1 Ha)).
Qed.

Lemma tagfree_strip (s : str) : tagfree s → tagfree (strip s).
Proof.
  destruct (strip_infix s) as (u & v & E). intros H. rewrite E in H.
  apply tagfree_suffix, tagfree_prefix in H. exact H.
Qed.

Lemma tagfree_at (u t : str) :
  tagfree (u ++ "<"%char :: t) → ok_after t.
Proof. intros H. apply tagfree_suffix in H as [H _]. apply H. reflexivity. Qed.

(** Text without an opening bracket in front changes nothing. *)
Lemma tagfree_app (w s : str) :
  "<"%char ∉ w → tagfree s → tagfree (w ++ s).
Proof.
  induction w as [|a w IH]; intros Hw Hs; [exact Hs|].
  cbn [app tagfree]. split.
  - intros ->. exfalso. apply Hw. left.
  - apply IH; [|exact Hs]. intros H. apply Hw. right. exact H.
Qed.

Variable r : regex.
Variable repl : str.
Hypothesis r_takes : 1 ≤ minlen r.
Hypothesis r_first : first_may r ">" = false.
Hypothesis repl_lt : "<"%char ∉ repl.
Hypothesis repl_gt : ">"%char ∉ repl.

Lemma kept_ok_tail a (t : str) : kept_ok r (a :: t) → kept_ok r t.
Proof.
  intros H u t' bef E. apply (H (a :: u) t' bef). rewrite E. reflexivity.
Qed.

Lemma scan_empty bef skip : flat_map (emit repl) (scan r bef [] skip) = [].
Proof.
  destruct skip; cbn [scan]; [|reflexivity].
  rewrite attempt_none_end by exact r_takes. reflexivity.
Qed.

Lemma scan_head_gt bef (t : str) :
  ∃ out, flat_map (emit repl) (scan r bef (">"%char :: t) 0)
         = ">"%char :: out.
Proof.
  cbn [scan]. rewrite attempt_none_first by assumption.
  cbn [map app last_len last flat_map emit]. eauto.
Qed.

Lemma scan_ok_after bef (t : str) :
  ok_after t → ok_after (flat_map (emit repl) (scan r bef t 0)).
Proof.
  intros [->|[(v & ->)|H]].
  - left. apply scan_empty.
  - right. left. apply scan_head_gt.
  - right. right. intros Hin.
    apply scan_chars in Hin as [Hin|Hin]; [exact (H Hin) | exact (repl_gt Hin)].
Qed.

(** A substitution whose matches do not begin with a closing bracket,
    and whose replacement holds no bracket, makes no tag. *)
Lemma scan_tagfree (aft : str) : ∀ bef skip,
  kept_ok r aft → tagfree (flat_map (emit repl) (scan r bef aft skip)).
Proof.
  induction aft as [|a t IH]; intros bef skip Hk.
  - rewrite scan_empty. exact I.
  - destruct skip as [|n]; cbn [scan]; [|apply IH, (kept_ok_tail a), Hk].
    destruct (attempt_minlen r [] r_takes (Nat.le_0_l _) (Cursor bef (a :: t)))
      as [E|(mt & E & H1 & H2)]; rewrite E.
    + cbn [map app last_len last flat_map emit tagfree]. split.
      * intros ->. apply scan_ok_after. exact (Hk [] t bef eq_refl E).
      * apply IH, (kept_ok_tail a), Hk.
    + cbn [map app last_len last].
      destruct (length (group0 mt)) as [|d] eqn:Ed; [lia|].
      cbn [flat_map emit]. apply tagfree_app; [exact repl_lt|].
      apply IH, (kept_ok_tail a), Hk.
Qed.

Lemma sub_tagfree (text : str) : kept_ok r text → tagfree (sub r repl text).
Proof. apply scan_tagfree. Qed.

End TagFree.

Lemma sub_tagfree_step r repl (text : str) :
  1 ≤ minlen r → first_may r ">" = false →
  existsb (Ascii.eqb "<") repl = false →
  existsb (Ascii.eqb ">") repl = false →
  tagfree text → tagfree (sub r repl text).
Proof.
  intros H1 H2 H3 H4 Ht.
  assert (Hnot : ∀ a (s : str), existsb (Ascii.eqb a) s = false → a ∉ s).
  { intros a s Hs Hin. apply list_elem_of_In in Hin.
    assert (Hex : existsb (Ascii.eqb a) s = true)
      by (apply existsb_exists; exists a; split;
          [exact Hin | apply Ascii.eqb_refl]).
    congruence. }
  apply sub_tagfree; auto.
  intros u t bef -> _. exact (tagfree_at _ _ Ht).
Qed.

(** ** The pattern of step 1 *)

Section TagPattern.

Lemma not_gt_spec a : not_gt a = negb (Ascii.eqb ">" a).
Proof.
  unfold not_gt. cbn [existsb list_ascii_of_string].
  rewrite orb_false_r, Ascii.eqb_sym. reflexivity.
Qed.

Lemma rest_nil p (s : str) : rest p s = [] ↔ Forall (λ a, p a = true) s.
Proof.
  induction s as [|a s IH]; cbn [rest]; [split; [constructor | reflexivity]|].
  destruct (p a) eqn:Ha.
  - rewrite IH. split; [constructor; assumption|].
    intros H. inversion H; assumption.
  - split; [discriminate|]. intros H. inversion H; congruence.
Qed.

Lemma rest_head p (s : str) b v : rest p s = b :: v → p b = false.
Proof.
  induction s as [|a s IH]; cbn [rest]; [discriminate|].
  destruct (p a) eqn:Ha; [exact IH|]. intros [= <- _]. exact Ha.
Qed.

(** The greedy loop of one character class, before a continuation that
    fails in front of the class: the continuation is run once, after the
    longest run. *)
Lemma rep_greedy_chr p (k : kont) :
  (∀ bef a t g, p a = true → k (Cursor bef (a :: t)) g = None) →
  ∀ fuel bef aft g, length aft ≤ fuel →
  rep_loop (m (Chr p)) true k fuel 0 None (Cursor bef aft) g
  = k (Cursor (rev (run p aft) ++ bef) (rest p aft)) g.
Proof.
  intros Hk. induction fuel as [|f IH]; intros bef aft g Hlen.
  - destruct aft; [|simpl in Hlen; lia]. reflexivity.
  - destruct aft as [|a t]; [reflexivity|].
    cbn [rep_loop m after before run rest].
    destruct (p a) eqn:Ha; [|reflexivity].
    cbn [after dec_hi option_map].
    assert (Hlt : (length t <? length (a :: t))%nat = true)
      by (apply Nat.ltb_lt; simpl; lia).
    rewrite Hlt, IH by (simpl in Hlen; lia).
    rewrite (Hk bef a t g Ha). cbn [rev]. rewrite <- app_assoc. cbn [app].
    destruct (k _ g); reflexivity.
Qed.

Lemma m_seq r1 r2 c g (k : kont) :
  m (Seq r1 r2) c g k = m r1 c g (λ c1 g1, m r2 c1 g1 k).
Proof. reflexivity. Qed.

Lemma m_chr_cons p bef a (t : str) g (k : kont) :
  m (Chr p) (Cursor bef (a :: t)) g k
  = if p a then k (Cursor (a :: bef) t) g else None.
Proof. reflexivity. Qed.

Lemma m_chr_nil p bef g (k : kont) : m (Chr p) (Cursor bef []) g k = None.
Proof. reflexivity. Qed.

Lemma m_plus_chr p bef a (t : str) g (k : kont) :
  m (plus (Chr p)) (Cursor bef (a :: t)) g k
  = if p a
    then rep_loop (m (Chr p)) true k (length (a :: t)) 0 None
                  (Cursor (a :: bef) t) g
    else None.
Proof.
  unfold plus.
  change (m (Rep 1 None true (Chr p)) (Cursor bef (a :: t)) g k)
    with (rep_loop (m (Chr p)) true k (S (length (a :: t))) 1 None
                   (Cursor bef (a :: t)) g).
  cbn [rep_loop]. rewrite m_chr_cons. reflexivity.
Qed.

(** What the pattern of step 1 finds at an opening bracket. *)
Lemma match_tag_eq bef a (t : str) :
  match_at Pat.tag (Cursor bef ("<"%char :: a :: t)) false
  = if not_gt a
    then match rest not_gt t with
         | b :: v =>
             if Ascii.eqb ">" b
             then Some (Cursor (b :: rev (run not_gt t) ++ a :: "<"%char :: bef) v,
                        [])
             else None
         | [] => None
         end
    else None.
Proof.
  unfold match_at, Pat.tag. cbn [seqs]. rewrite !m_seq.
  unfold ch at 1. rewrite m_chr_cons, Ascii.eqb_refl.
  change (noneof ">") with (Chr not_gt).
  rewrite m_seq, m_plus_chr. destruct (not_gt a); [|reflexivity].
  rewrite rep_greedy_chr.
  - unfold ch. destruct (rest not_gt t) as [|b v]; [reflexivity|].
    rewrite m_chr_cons. destruct (Ascii.eqb ">" b); reflexivity.
  - intros bef0 a0 t0 g0 Ha0. unfold ch. rewrite m_chr_cons.
    rewrite not_gt_spec in Ha0. apply negb_true_iff in Ha0.
    rewrite Ha0. reflexivity.
  - simpl. lia.
Qed.

(** The pattern of step 1 finds no match at an opening bracket exactly
    when what follows is as in a text without a tag. *)
Lemma match_tag bef (t : str) :
  match_at Pat.tag (Cursor bef ("<"%char :: t)) false = None ↔ ok_after t.
Proof.
  destruct t as [|a t'].
  - split; [left; reflexivity | reflexivity].
  - rewrite match_tag_eq. destruct (not_gt a) eqn:Ha.
    + destruct (rest not_gt t') as [|b v] eqn:Er.
      * split; [|reflexivity]. intros _. right. right.
        apply rest_nil in Er. intros Hin.
        apply elem_of_cons in Hin as [<-|Hin].
        -- rewrite not_gt_spec, Ascii.eqb_refl in Ha. discriminate Ha.
        -- rewrite Forall_forall in Er. specialize (Er _ Hin).
           rewrite not_gt_spec, Ascii.eqb_refl in Er. discriminate Er.
      * pose proof (rest_head _ _ _ _ Er) as Hb.
        rewrite not_gt_spec in Hb. apply negb_false_iff in Hb.
        rewrite Hb. split; [discriminate|].
        intros [H|[(w & H)|H]].
        -- discriminate H.
        -- injection H as -> _.
           rewrite not_gt_spec, Ascii.eqb_refl in Ha. discriminate Ha.
        -- exfalso. apply H. right.
           rewrite <- (run_rest not_gt t'), Er. apply elem_of_app. right.
           apply Ascii.eqb_eq in Hb as <-. left.
    + split; [|reflexivity]. intros _. right. left.
      rewrite not_gt_spec in Ha. apply negb_false_iff, Ascii.eqb_eq in Ha.
      subst a. eauto.
Qed.

Lemma attempt_nil r c : attempt r c = [] ↔ match_at r c false = None.
Proof.
  unfold attempt. destruct (match_at r c false) as [res|];
    [|split; reflexivity].
  split; [|discriminate].
  destruct (consumed c res.1); [|discriminate].
  destruct (match_at r c true); discriminate.
Qed.

Lemma tag_kept_ok (x : str) : kept_ok Pat.tag x.
Proof.
  intros u t bef _ H. apply attempt_nil in H. apply match_tag in H. exact H.
Qed.

Lemma omap_chars (s : str) : omap is_match (map TChar s) = [].
Proof. induction s as [|a s IH]; [reflexivity | exact IH]. Qed.

(** In a text without a tag the pattern of step 1 matches nowhere. *)
Lemma tagfree_no_match (s : str) :
  tagfree s → ∀ bef, scan Pat.tag bef s 0 = map TChar s.
Proof.
  induction s as [|a s IH]; intros Ht bef; cbn [scan].
  - rewrite attempt_none_end by (vm_compute; lia). reflexivity.
  - destruct Ht as [Ha Ht].
    assert (E : attempt Pat.tag (Cursor bef (a :: s)) = []).
    { destruct (Ascii.eqb_spec "<" a) as [<-|Hne].
      - apply attempt_nil, match_tag, Ha. reflexivity.
      - apply attempt_none_first; [vm_compute; lia|].
        unfold Pat.tag, ch, plus, noneof.
        cbn [seqs first_may nullable andb]. rewrite orb_false_r.
        apply Ascii.eqb_neq. exact Hne. }
    rewrite E. cbn [map app last_len last]. f_equal. apply IH. exact Ht.
Qed.

End TagPattern.

(** X21.  No tag is left in the cleaned text: the pattern of step 1
    finds no match in the result of [clean_email_text], although the later
    steps remove text between brackets that step 1 has kept. *)
Theorem clean_leaves_no_tag (x : str) :
  search Pat.tag (clean_email_text x) = None.
Proof.
  assert (H : tagfree (clean_email_text x)).
  { unfold clean_email_text. cbv zeta.
    repeat lazymatch goal with
           | |- tagfree (sub Pat.tag _ _) =>
               apply sub_tagfree;
               [vm_compute; lia | reflexivity
               | intros Hin; apply list_elem_of_In in Hin; vm_compute in Hin;
                 destruct Hin as [Hin|[]]; discriminate Hin
               | intros Hin; apply list_elem_of_In in Hin; vm_compute in Hin;
                 destruct Hin as [Hin|[]]; discriminate Hin
               | apply tag_kept_ok]
           | |- tagfree (sub _ _ _) =>
               apply sub_tagfree_step;
               [vm_compute; lia | vm_compute; reflexivity
               | reflexivity | reflexivity |]
           | |- tagfree (strip _) => apply tagfree_strip
           end. }
  unfold search, finditer. rewrite (tagfree_no_match _ H), omap_chars.
  reflexivity.
Qed.


(** ** The whitespace of a context *)

Lemma context_of_shape (doc : Doc) (g1 g3 filename : str) :
  context_of doc g1 g3 filename = []
  ∨ ∃ y, context_of doc g1 g3 filename = strip (sub Pat.spaces " " y).
Proof.
  unfold context_of. cbv zeta.
  destruct (_ && _); [left; reflexivity | right; eauto].
Qed.

(** X22.  Every context that the detector reports is trimmed and has
    its whitespace normalised: it holds no newline and no tab, and no two
    spaces in a row. *)
Theorem attachment_context_normalized (nlp_spacy : str → Doc) (text : str)
    (l : list (str * str)) (fn ctx : str) :
  detect_attachments_with_context nlp_spacy text = Returns l →
  (fn, ctx) ∈ l →
  (∀ a t, ctx = a :: t → Char.isspace a = false)
  ∧ (∀ l0 a, ctx = l0 ++ [a] → Char.isspace a = false)
  ∧ (Char.nl ∉ ctx) ∧ (Char.tab ∉ ctx)
  ∧ (∀ l1 l2, ctx ≠ l1 ++ Char.space :: Char.space :: l2).
Proof.
  intros El Hin.
  destruct (detect_attachments_spec nlp_spacy text) as (l' & E & _ & H).
  rewrite E in El. injection El as <-.
  apply H in Hin as (mt & Hmt & Ha).
  apply file_pattern_groups in Hmt as (pre & fn' & post & a & t & Hg & _ & _).
  rewrite (attachment_of_groups _ _ _ _ _ Hg) in Ha. injection Ha as _ <-.
  destruct (context_of_shape (nlp_spacy text) pre fn' fn') as [->|(y & ->)].
  - repeat split.
    + intros a0 t0 [=].
    + intros l0 a0 H0. destruct l0; discriminate H0.
    + intros H0. inversion H0.
    + intros H0. inversion H0.
    + intros l1 l2 H0. destruct l1; discriminate H0.
  - destruct (whitespace_step y) as [_ Ht]. repeat split.
    + intros a0 t0 H0. exact (strip_head _ _ _ H0).
    + intros l0 a0 H0. exact (strip_last _ _ _ H0).
    + intros H0. pose proof (tidy_space _ _ _ Ht H0 eq_refl) as H'.
      discriminate H'.
    + intros H0. pose proof (tidy_space _ _ _ Ht H0 eq_refl) as H'.
      discriminate H'.
    + intros l1 l2 H0. apply (tidy_no_pair _ _ _ _ _ _ Ht H0).
      split; reflexivity.
Qed.

Lemma attachment_context_normalized_witness :
  let ctx : str := "is here. Then**b.Docx****b.Docx**" in
  (∀ a t, ctx = a :: t → Char.isspace a = false)
  ∧ (∀ l0 a, ctx = l0 ++ [a] → Char.isspace a = false)
  ∧ (Char.nl ∉ ctx) ∧ (Char.tab ∉ ctx)
  ∧ (∀ l1 l2, ctx ≠ l1 ++ Char.space :: Char.space :: l2).
Proof.
  intros ctx.
  apply (attachment_context_normalized
           (Scenario.segmenter ["First a.pdf is here."; "Then a.pdf again."]%string)
           ("First a.pdf is  here. Then b.Docx again." : str)
           [("b.Docx" : str, ctx); ("a.pdf" : str, "First a.pdf is here." : str)]
           ("b.Docx" : str) ctx).
  - vm_compute. reflexivity.
  - left.
Defined.
